(** * A slotted timing wheel: the coordinator of [timewheel.go]

    The development embeds the single-threaded coordinator of the Go package
    [timewheel] (its [start] loop and the handlers it calls) and proves the
    properties of the placement arithmetic, of the per-tick scan and of the
    registry.  Channels, the ticker and the goroutines that run callbacks are
    outside the embedding: the coordinator is a function of the events it
    receives, and a dispatched callback is an entry of the returned log. *)

From Stdlib Require Import ZArith Lia.
From Stdlib Require Import Floats.SpecFloat.
From stdpp Require Import gmap list strings.

Local Open Scope Z_scope.

(** ** Go values *)

(** [int] is 64 bits wide (amd64, arm64); arithmetic wraps around. *)
Definition wrap64 (z : Z) : Z := (z + 2 ^ 63) mod 2 ^ 64 - 2 ^ 63.

(** The largest [int]. *)
Definition maxInt : Z := 2 ^ 63 - 1.

(** The largest [time.Duration], an [int64] count of nanoseconds. *)
Definition maxDuration : Z := 2 ^ 63 - 1.

(** [time.Second] in nanoseconds. *)
Definition Second : Z := 1000000000.

(** The run-time panics the coordinator can raise. *)
Inductive panic : Set :=
  | DivideByZero      (* integer divide by zero *)
  | IndexOutOfRange   (* slice index out of range *)
  | NilDereference.   (* method call through a nil *list.List *)

(** The outcome of a handler: it returns, it panics, or the loop that models
    it has used up its fuel. *)
Inductive result (A : Type) : Type :=
  | Ok (a : A)
  | Panic (p : panic)
  | OutOfFuel.

Arguments Ok {A} a.
Arguments Panic {A} p.
Arguments OutOfFuel {A}.

#[global] Instance result_bind : MBind result :=
  fun A B f r =>
    match r with
    | Ok a => f a
    | Panic p => Panic p
    | OutOfFuel => OutOfFuel
    end.

#[global] Instance result_ret : MRet result := fun A a => Ok a.

(** Go's [/] and [%] on [int]: truncated, panicking on a zero divisor. *)
Definition go_div (a b : Z) : result Z :=
  if b =? 0 then Panic DivideByZero else Ok (wrap64 (Z.quot a b)).

Definition go_rem (a b : Z) : result Z :=
  if b =? 0 then Panic DivideByZero else Ok (Z.rem a b).

(** ** float64 and [time.Duration.Seconds]

    IEEE 754 binary64 as specified by the standard library's [SpecFloat]:
    53 bits of precision, round to nearest even. *)

Definition prec : Z := 53.
Definition emax : Z := 1024.

(** [float64(n)] for an integer [n]. *)
Definition float64_of_int (z : Z) : spec_float := binary_normalize prec emax z 0 false.

(** [int(f)]: truncation toward zero.  Outside the range of [int] (and for
    NaN and the infinities) amd64 yields the smallest [int]; the durations of
    this program never reach that arm. *)
Definition int_of_float64 (f : spec_float) : Z :=
  match f with
  | S754_zero _ => 0
  | S754_finite s m e =>
      let v := cond_Zopp s (match e with
                            | Z.neg k => Z.pos m / 2 ^ Z.pos k
                            | _ => Z.pos m * 2 ^ e
                            end) in
      if (- 2 ^ 63 <=? v) && (v <? 2 ^ 63) then v else - 2 ^ 63
  | _ => - 2 ^ 63
  end.

(** [func (d Duration) Seconds() float64]:
    [sec := d / Second; nsec := d % Second;
     return float64(sec) + float64(nsec)/1e9]. *)
Definition Seconds (d : Z) : spec_float :=
  let sec := Z.quot d Second in
  let nsec := Z.rem d Second in
  SFadd prec emax (float64_of_int sec)
    (SFdiv prec emax (float64_of_int nsec) (float64_of_int 1000000000)).

(** A non-negative mantissa and an exponent as a float: what the rounding
    pipeline of [SpecFloat] returns. *)
Definition float_of_mant (s : bool) (m e : Z) : spec_float :=
  match m with
  | 0 => S754_zero s
  | Z.pos p => if e <=? emax - prec then S754_finite s p e else S754_infinity s
  | Z.neg _ => S754_nan
  end.

Definition float64_1e9 : spec_float := S754_finite false 8388608000000000 (-23).

(** ** The wheel *)

Section Model.

(** [Key]: the non-nil comparable values an [interface{}] key can hold
    (a key is used as a map key, so it is comparable).  [TaskData]: the
    payload map, opaque to the wheel.  [Job]: the non-nil callbacks. *)
Context {Key : Type} `{Countable Key} {TaskData Job : Type}.

(** [type task struct] *)
Record task : Type := mkTask {
  task_interval : Z;        (* interval time.Duration *)
  task_times : Z;           (* times int: -1 forever, >= 1 a number of runs *)
  task_circle : Z;          (* circle int *)
  task_key : Key;           (* key interface{} *)
  task_job : Job;           (* job Job *)
  task_taskData : TaskData  (* taskData TaskData *)
}.

(** [type uptask struct] *)
Record uptask : Type := mkUptask {
  up_key : Key;
  up_interval : Z;
  up_taskData : TaskData
}.

(** [type TimeWheel struct].  A slot is a [*list.List]: [None] is the nil
    pointer [make] fills the slice with, [Some l] a list whose elements
    hold [l] front to back.  The ticker and the four channels carry the
    events of [start] and are not part of the state. *)
Record TimeWheel : Type := mkTimeWheel {
  interval : Z;
  slots : list (option (list task));
  timer : gmap Key Z;
  currentPos : Z;
  slotNum : Z
}.

Definition set_slots (tw : TimeWheel) (s : list (option (list task))) : TimeWheel :=
  mkTimeWheel (interval tw) s (timer tw) (currentPos tw) (slotNum tw).

Definition set_timer (tw : TimeWheel) (m : gmap Key Z) : TimeWheel :=
  mkTimeWheel (interval tw) (slots tw) m (currentPos tw) (slotNum tw).

Definition set_currentPos (tw : TimeWheel) (p : Z) : TimeWheel :=
  mkTimeWheel (interval tw) (slots tw) (timer tw) p (slotNum tw).

(** The list object behind [slots[p]] takes a new content. *)
Definition set_slot (tw : TimeWheel) (p : nat) (l : list task) : TimeWheel :=
  set_slots tw (<[p := Some l]> (slots tw)).

Definition set_circle (t : task) (c : Z) : task :=
  mkTask (task_interval t) (task_times t) c (task_key t) (task_job t) (task_taskData t).

Definition set_times (t : task) (n : Z) : task :=
  mkTask (task_interval t) n (task_circle t) (task_key t) (task_job t) (task_taskData t).

(** [tw.slots[pos]], with Go's bounds check. *)
Definition index_slot (tw : TimeWheel) (pos : Z) : result (option (list task)) :=
  if pos <? 0 then Panic IndexOutOfRange
  else match slots tw !! Z.to_nat pos with
       | Some s => Ok s
       | None => Panic IndexOutOfRange
       end.

(** [func (tw *TimeWheel) init()] *)
Definition init (tw : TimeWheel) : TimeWheel :=
  set_slots tw
    (foldl (fun s i => <[i := Some []]> s) (slots tw) (seq 0 (Z.to_nat (slotNum tw)))).

(** [func New(interval time.Duration, slotNum int) *TimeWheel]; [None] is
    the nil wheel. *)
Definition New (interval : Z) (slotNum : Z) : option TimeWheel :=
  if (interval <=? 0) || (slotNum <=? 0) then None
  else Some (init (mkTimeWheel interval (replicate (Z.to_nat slotNum) None) ∅ 0 slotNum)).

(** [func (tw *TimeWheel) getPositionAndCircle(d time.Duration) (pos int, circle int)] *)
Definition getPositionAndCircle (tw : TimeWheel) (d : Z) : result (Z * Z) :=
  let delaySeconds := int_of_float64 (Seconds d) in
  let intervalSeconds := int_of_float64 (Seconds (interval tw)) in
  q ← go_div delaySeconds intervalSeconds;
  circle ← go_div q (slotNum tw);
  q' ← go_div delaySeconds intervalSeconds;
  pos ← go_rem (wrap64 (currentPos tw + q')) (slotNum tw);
  Ok (pos, circle).

(** [func (tw *TimeWheel) addTask(task *task)] *)
Definition addTask (tw : TimeWheel) (t : task) : result TimeWheel :=
  '(pos, circle) ← getPositionAndCircle tw (task_interval t);
  let t := set_circle t circle in
  s ← index_slot tw pos;
  match s with
  | None => Panic NilDereference
  | Some l =>
      let tw := set_slot tw (Z.to_nat pos) (l ++ [t]) in
      Ok (set_timer tw (<[task_key t := pos]> (timer tw)))
  end.

(** The loop of [updateTask]: every task of the list with the key takes
    the new interval and payload. *)
Definition update_loop (u : uptask) (l : list task) : list task :=
  (fun t =>
     if decide (task_key t = up_key u)
     then mkTask (up_interval u) (task_times t) (task_circle t) (task_key t)
                 (task_job t) (up_taskData u)
     else t) <$> l.

(** [func (tw *TimeWheel) updateTask(update uptask)].  The line printed by
    [fmt.Println] goes to standard output and is not kept. *)
Definition updateTask (tw : TimeWheel) (u : uptask) : result TimeWheel :=
  match timer tw !! up_key u with
  | None => Ok tw
  | Some position =>
      s ← index_slot tw position;
      match s with
      | None => Panic NilDereference
      | Some l => Ok (set_slot tw (Z.to_nat position) (update_loop u l))
      end
  end.

(** The loop of [removeTask].  After [l.Remove(e)] the element [e] has no
    list any more and [e.Next()] is nil: the loop ends at the first task
    with the key.  [None] when no task has it. *)
Fixpoint remove_loop (k : Key) (l : list task) : option (list task) :=
  match l with
  | [] => None
  | t :: l' =>
      if decide (task_key t = k) then Some l'
      else cons t <$> remove_loop k l'
  end.

(** [func (tw *TimeWheel) removeTask(key interface{})] *)
Definition removeTask (tw : TimeWheel) (k : Key) : result TimeWheel :=
  match timer tw !! k with
  | None => Ok tw
  | Some position =>
      s ← index_slot tw position;
      match s with
      | None => Panic NilDereference
      | Some l =>
          match remove_loop k l with
          | None => Ok tw
          | Some l' =>
              Ok (set_slot (set_timer tw (delete k (timer tw))) (Z.to_nat position) l')
          end
      end
  end.

(** Where the loop of [scanAddRunTask] stands after one item. *)
Inductive scan_state : Type :=
  | Continue (tw : TimeWheel) (i : nat) (log : list task)
  | Done (tw : TimeWheel) (log : list task).

(** [l.Remove(item); delete(tw.timer, task.key)] for the item at index [i]
    of the list behind [slots[p]]. *)
Definition drop_item (tw : TimeWheel) (p i : nat) (l : list task) (t : task) : TimeWheel :=
  set_timer (set_slot tw p (delete i l)) (delete (task_key t) (timer tw)).

(** One iteration of the loop of [scanAddRunTask] over the list [l] behind
    [slots[p]], with [item] its element at index [i]; [log] holds the tasks
    whose callback was started, as they were at that moment.  The elements
    before [item] stay where they are and a re-armed task goes to the back,
    so [item.Next()] is the element at [i + 1], and after the removal of
    [item] the element at [i]. *)
Definition scan_item (tw : TimeWheel) (p i : nat) (log : list task)
    (l : list task) (t : task) : result scan_state :=
  if task_times t =? 0 then
    Ok (Continue (drop_item tw p i l t) i log)
  else if 0 <? task_circle t then
    Ok (Continue (set_slot tw p (<[i := set_circle t (wrap64 (task_circle t - 1))]> l))
                 (S i) log)
  else
    let log := log ++ [t] in
    let next := l !! S i in
    let tw := drop_item tw p i l t in
    tw ← (if (0 <? task_times t) || (task_times t =? -1) then
            let t := if 0 <? task_times t
                     then set_times t (wrap64 (task_times t - 1)) else t in
            addTask tw t
          else Ok tw);
    match next with
    | Some _ => Ok (Continue tw i log)
    | None => Ok (Done tw log)
    end.

(** The loop [for item := l.Front(); item != nil; ...]. *)
Fixpoint scan_loop (fuel : nat) (tw : TimeWheel) (p i : nat) (log : list task)
    : result (TimeWheel * list task) :=
  match fuel with
  | O => OutOfFuel
  | S fuel =>
      match slots tw !! p with
      | Some (Some l) =>
          match l !! i with
          | None => Ok (tw, log)
          | Some t =>
              st ← scan_item tw p i log l t;
              match st with
              | Continue tw i log => scan_loop fuel tw p i log
              | Done tw log => Ok (tw, log)
              end
          end
      | _ => Ok (tw, log)
      end
  end.

(** [func (tw *TimeWheel) scanAddRunTask(l *list.List)], for the list [l]
    behind [slots[p]]. *)
Definition scanAddRunTask (fuel : nat) (tw : TimeWheel) (p : nat)
    : result (TimeWheel * list task) :=
  match slots tw !! p with
  | Some None => Ok (tw, [])
  | _ => scan_loop fuel tw p 0%nat []
  end.

(** [func (tw *TimeWheel) tickHandler()] *)
Definition tickHandler (fuel : nat) (tw : TimeWheel) : result (TimeWheel * list task) :=
  _ ← index_slot tw (currentPos tw);
  '(tw, log) ← scanAddRunTask fuel tw (Z.to_nat (currentPos tw));
  if currentPos tw =? wrap64 (slotNum tw - 1)
  then Ok (set_currentPos tw 0, log)
  else Ok (set_currentPos tw (wrap64 (currentPos tw + 1)), log).

(** *** The exported functions: what they hand to the coordinator *)

(** [AddTask]: the task sent on [addTaskChannel], if any. *)
Definition AddTask (interval times : Z) (key : option Key) (data : TaskData)
    (job : option Job) : option task :=
  match key, job with
  | Some k, Some j =>
      if interval <=? 0 then None else Some (mkTask interval times 0 k j data)
  | _, _ => None
  end.

(** [UpdateTask]: the update sent on [updateTaskChannel], if any. *)
Definition UpdateTask (key : option Key) (interval : Z) (data : TaskData) : option uptask :=
  match key with
  | Some k => Some (mkUptask k interval data)
  | None => None
  end.

(** [RemoveTask]: the key sent on [removeTaskChannel], if any. *)
Definition RemoveTask (key : option Key) : option Key := key.

(** *** The coordinator *)

(** What [start] selects on. *)
Inductive event : Type :=
  | Tick
  | Add (t : task)
  | Update (u : uptask)
  | Remove (k : Key)
  | Stop.

(** One case of the [select] of [start]. *)
Definition handle (fuel : nat) (tw : TimeWheel) (ev : event)
    : result (TimeWheel * list task) :=
  match ev with
  | Tick => tickHandler fuel tw
  | Add t => tw ← addTask tw t; Ok (tw, [])
  | Update u => tw ← updateTask tw u; Ok (tw, [])
  | Remove k => tw ← removeTask tw k; Ok (tw, [])
  | Stop => Ok (tw, [])
  end.

(** [func (tw *TimeWheel) start()]: the events are handled one at a time
    until [Stop]. *)
Fixpoint start (fuel : nat) (tw : TimeWheel) (evs : list event)
    : result (TimeWheel * list task) :=
  match evs with
  | [] => Ok (tw, [])
  | Stop :: _ => Ok (tw, [])
  | ev :: evs =>
      '(tw, log) ← handle fuel tw ev;
      '(tw, log') ← start fuel tw evs;
      Ok (tw, log ++ log')
  end.

End Model.

(** ** Well-formed wheels, executions and the statements of the specification *)

Section Properties.

Context {Key : Type} `{Countable Key} {TaskData Job : Type}.

Local Abbreviation task := (@task Key TaskData Job).
Local Abbreviation uptask := (@uptask Key TaskData).
Local Abbreviation TimeWheel := (@TimeWheel Key _ _ TaskData Job).
Local Abbreviation event := (@event Key TaskData Job).

(** [int(d.Seconds())]: the whole seconds of a duration. *)
Definition wholeSeconds (d : Z) : Z := int_of_float64 (Seconds d).

(** The number of slots a delay [d] is ahead of the cursor, in the whole
    seconds [getPositionAndCircle] computes with. *)
Definition stepsOf (tw : TimeWheel) (d : Z) : Z :=
  wholeSeconds d / wholeSeconds (interval tw).

(** The shape of a wheel: [slotNum] lists, none nil, and a cursor on one
    of them. *)
Record wheel_ok (tw : TimeWheel) : Prop := {
  ok_slotNum : 0 < slotNum tw < 2 ^ 63;
  ok_length : length (slots tw) = Z.to_nat (slotNum tw);
  ok_lists : forall p s, slots tw !! p = Some s -> is_Some s;
  ok_pos : 0 <= currentPos tw < slotNum tw
}.

(** The registry and the slots agree. *)
Record registry_ok (tw : TimeWheel) : Prop := {
  reg_of_task : forall p l t,
    slots tw !! p = Some (Some l) -> t ∈ l ->
    timer tw !! task_key t = Some (Z.of_nat p);
  reg_has_task : forall k z,
    timer tw !! k = Some z ->
    exists p l t, z = Z.of_nat p /\ slots tw !! p = Some (Some l) /\
                  t ∈ l /\ task_key t = k;
  reg_nodup : forall p l,
    slots tw !! p = Some (Some l) -> NoDup (task_key <$> l)
}.

(** The invariant of the coordinator. *)
Definition inv (tw : TimeWheel) : Prop := wheel_ok tw /\ registry_ok tw.

(** What no handler but [tickHandler] writes, and [New] alone sets. *)
Definition same_frame (tw tw' : TimeWheel) : Prop :=
  interval tw' = interval tw /\ slotNum tw' = slotNum tw /\
  currentPos tw' = currentPos tw.

(** The tasks with key [k] in a list. *)
Definition with_key (k : Key) (l : list task) : list task :=
  filter (fun t => task_key t = k) l.

(** How often the callback of [k] was started in a log. *)
Definition dispatches (k : Key) (log : list task) : nat := length (with_key k log).

(** No slot holds a task with key [k]. *)
Definition absent (k : Key) (tw : TimeWheel) : Prop :=
  forall p l t, slots tw !! p = Some (Some l) -> t ∈ l -> task_key t <> k.

(** One event handled by the coordinator.  An [Add] carries a key that no
    armed task has, as the data model requires. *)
Inductive step : TimeWheel -> event -> TimeWheel -> list task -> Prop :=
  | step_Tick fuel tw tw' log :
      tickHandler fuel tw = Ok (tw', log) -> step tw Tick tw' log
  | step_Add tw t tw' :
      timer tw !! task_key t = None -> addTask tw t = Ok tw' ->
      step tw (Add t) tw' []
  | step_Update tw u tw' :
      updateTask tw u = Ok tw' -> step tw (Update u) tw' []
  | step_Remove tw k tw' :
      removeTask tw k = Ok tw' -> step tw (Remove k) tw' [].

Inductive steps : TimeWheel -> list event -> TimeWheel -> list task -> Prop :=
  | steps_nil tw : steps tw [] tw []
  | steps_cons tw ev tw1 log1 evs tw2 log2 :
      step tw ev tw1 log1 -> steps tw1 evs tw2 log2 ->
      steps tw (ev :: evs) tw2 (log1 ++ log2).

(** The states the coordinator of a wheel made by [New] can be in. *)
Definition reachable (tw : TimeWheel) : Prop :=
  exists interval slotNum tw0 evs log,
    interval <= maxDuration /\ slotNum <= maxInt /\
    New interval slotNum = Some tw0 /\ steps tw0 evs tw log.

(** A task that fires is armed again when runs are left or it runs
    forever, with one run less when the runs are counted. *)
Definition periodic (t : task) : bool :=
  (0 <? task_times t) || (task_times t =? -1).

Definition rearmed (t : task) : task :=
  if 0 <? task_times t then set_times t (wrap64 (task_times t - 1)) else t.

(** The wheel after a task fired: armed again, or left without it. *)
Definition rearm (tw : TimeWheel) (t : task) : result TimeWheel :=
  if periodic t then addTask tw (rearmed t) else Ok tw.

(** The task [t] is the element at index [j] of the list of slot [p]. *)
Definition task_at (tw : TimeWheel) (p j : nat) (t : task) : Prop :=
  exists l, slots tw !! p = Some (Some l) /\ l !! j = Some t.

(** The task with key [k] and delay [d], with [r] runs left, in a wheel
    of [n] slots where the delay is [s] slots long. *)
Definition holds_task (k : Key) (d n s r : Z) (tw : TimeWheel) (p j : nat) (t : task)
    : Prop :=
  task_at tw p j t /\ task_key t = k /\ task_interval t = d /\
  0 <= r /\ task_times t = r /\ 0 <= task_circle t <= s / n.

(** The ticks a task can still wait for in its slot once the cursor is on
    it: a rotation for each circle, and a delay and a rotation for each
    run that is left. *)
Definition weight (n s : Z) (t : task) : Z :=
  if task_times t =? 0 then 0 else task_times t * (s + n) + task_circle t * n.

(** With the cursor at [cur], the key [k] is out of the registry with no
    run left, or its task leaves the wheel within [B] ticks. *)
Definition tracked (k : Key) (d n s cur B : Z) (tw : TimeWheel) (r : Z) : Prop :=
  (timer tw !! k = None /\ r = 0) \/
  exists p j t, holds_task k d n s r tw p j t /\
    weight n s t + (Z.of_nat p - cur) mod n + 1 <= B.

(** The same during the scan of slot [p0], the loop standing at index [i]:
    the task is out of the loop's way (in another slot, or before [i]) and
    will leave within [B - 1] ticks after this one, or the loop will come
    to it. *)
Definition scanning (k : Key) (d n s cur : Z) (p0 : nat) (B : Z) (tw : TimeWheel)
    (i : nat) (r : Z) : Prop :=
  (timer tw !! k = None /\ r = 0) \/
  exists p j t, holds_task k d n s r tw p j t /\
    (((p <> p0 \/ (j < i)%nat) /\
      weight n s t + (Z.of_nat p - (cur + 1)) mod n + 1 <= B - 1) \/
     (p = p0 /\ (i <= j)%nat /\ weight n s t + 1 <= B)).

(** [tracked] at a state of the wheel, with the wheel's own constants. *)
Definition tracks (k : Key) (d B : Z) (tw : TimeWheel) (r : Z) : Prop :=
  tracked k d (slotNum tw) (stepsOf tw d) (currentPos tw) B tw r.

(** The task [t0], whatever its circle, has runs left and fires in the tick
    that comes [R] ticks after the one that scans the slot [cur]: a
    rotation for each circle, and the way of the cursor to its slot. *)
Definition waits (t0 : task) (n cur R : Z) (tw : TimeWheel) : Prop :=
  exists p j c, task_at tw p j (set_circle t0 c) /\ task_times t0 <> 0 /\ 0 <= c /\
    c * n + (Z.of_nat p - cur) mod n = R.

(** The same during the scan of slot [p0], the loop standing at index [i]:
    the loop is past the task or will not meet it, or it has yet to come
    to it. *)
Definition waits_scan (t0 : task) (n cur : Z) (p0 : nat) (R : Z) (tw : TimeWheel)
    (i : nat) : Prop :=
  exists p j c, task_at tw p j (set_circle t0 c) /\ task_times t0 <> 0 /\ 0 <= c /\
    (((p <> p0 \/ (j < i)%nat) /\ c * n + (Z.of_nat p - (cur + 1)) mod n = R - 1) \/
     (p = p0 /\ (i <= j)%nat /\ c * n = R)).

(** The first run of [t0] is in the log, and it was the only one, the key
    being out of the registry since, when [t0] is not armed again. *)
Definition ran (t0 : task) (tw : TimeWheel) (log : list task) : Prop :=
  head (with_key (task_key t0) log) = Some (set_circle t0 0) /\
  (periodic t0 = false ->
     timer tw !! task_key t0 = None /\ dispatches (task_key t0) log = 1%nat).

(** What is left of [t0] by the tick in which it ran: the task armed again
    in the slot [pos] with the circle [c], or nothing when it is not armed
    again. *)
Definition after_run (t0 : task) (pos : nat) (c : Z) (tw : TimeWheel) : Prop :=
  if periodic t0
  then exists j, task_at tw pos j (set_circle (rearmed t0) c)
  else timer tw !! task_key t0 = None.

(** The runs that are due by tick [m] when the first is due in tick
    [R + 1] and the following are [s] ticks apart. *)
Definition runs_by (s R : Z) (m : nat) : Z :=
  if Z.of_nat m <=? R then 0 else (Z.of_nat m - R - 1) / s + 1.

(** No more runs than [times] allows: any number for [-1]. *)
Definition cap (times c : Z) : Z := if times =? -1 then c else Z.min times c.

(** A wheel that holds one task: [t], in the slot [p]. *)
Definition lone_wheel (iv n cur : Z) (p : nat) (t : task) : TimeWheel :=
  mkTimeWheel iv (<[p := Some [t]]> (replicate (Z.to_nat n) (Some [])))
    {[task_key t := Z.of_nat p]} cur n.

(** A task after [updateTask] wrote to it. *)
Definition updated (u : uptask) (t : task) : task :=
  mkTask (up_interval u) (task_times t) (task_circle t) (task_key t) (task_job t)
    (up_taskData u).

(** The task of [k] is in the wheel with the delay [d], to run forever. *)
Definition forever (k : Key) (d : Z) (tw : TimeWheel) : Prop :=
  exists p j t, task_at tw p j t /\ task_key t = k /\ task_times t = -1 /\
    task_interval t = d.

(** A task whose delay is valid and at least as long, in whole seconds,
    as the wheel's interval: armed again, it waits a tick at least. *)
Definition tame (tw : TimeWheel) (t : task) : Prop :=
  0 < task_interval t <= maxDuration /\ 1 <= stepsOf tw (task_interval t).

Definition all_tame (tw : TimeWheel) : Prop :=
  forall p l t, slots tw !! p = Some (Some l) -> t ∈ l -> tame tw t.

(** A task the scan fires when it meets it: runs are left and no rotation
    is left to wait. *)
Definition due (t : task) : bool :=
  negb (task_times t =? 0) && negb (0 <? task_circle t).

(** The iterations the scan spends on a task: one, and one more when it
    fires and may come back into the scanned list. *)
Definition cost (t : task) : nat := if due t then 2%nat else 1%nat.

(** The tasks of a list the scan fires. *)
Definition fired (l : list task) : list task := filter (fun t => due t = true) l.

(** The iterations left to the scan standing at index [i] of [l]. *)
Definition scan_cost (l : list task) (i : nat) : nat :=
  sum_list_with cost (drop i l).

(** What keeps the handlers from panicking: the shape of the wheel, an
    interval of a second at least, delays that are no negative durations,
    and registry entries that are slots.  Keys may be armed twice. *)
Record sound (tw : TimeWheel) : Prop := {
  sound_shape : wheel_ok tw;
  sound_slotNum : slotNum tw <= 2 ^ 62;
  sound_interval : Second <= interval tw <= maxDuration;
  sound_delays : forall p l t,
    slots tw !! p = Some (Some l) -> t ∈ l -> 0 <= task_interval t <= maxDuration;
  sound_timer : forall k z, timer tw !! k = Some z -> 0 <= z < slotNum tw
}.

(** The delay an event carries is no negative duration. *)
Definition event_ok (ev : event) : Prop :=
  match ev with
  | Add t => 0 <= task_interval t <= maxDuration
  | Update u => 0 <= up_interval u <= maxDuration
  | _ => True
  end.

(** A handler that returned leaves a sound wheel; it did not panic. *)
Definition safely (r : result (TimeWheel * list task)) : Prop :=
  match r with
  | Ok (tw, _) => sound tw
  | Panic _ => False
  | OutOfFuel => True
  end.

(** The key an event is about. *)
Definition event_key (ev : event) : option Key :=
  match ev with
  | Add t => Some (task_key t)
  | Update u => Some (up_key u)
  | Remove k => Some k
  | Tick | Stop => None
  end.

(** The events [start] handles: those before the first [Stop]. *)
Fixpoint before_stop (evs : list event) : list event :=
  match evs with
  | [] => []
  | Stop :: _ => []
  | ev :: evs => ev :: before_stop evs
  end.

(** The ticks among a list of events. *)
Fixpoint ticks (evs : list event) : nat :=
  match evs with
  | [] => 0
  | Tick :: evs => S (ticks evs)
  | _ :: evs => ticks evs
  end.

(** *** The placement of section 4.1 of the specification, word for word:
    [steps = floor(d / interval)], [pos = (currentPos + steps) mod slotCount],
    [circle = floor(steps / slotCount)]. *)
Definition placement_spec (tw : TimeWheel) (d : Z) : Z * Z :=
  let steps := d / interval tw in
  ((currentPos tw + steps) mod slotNum tw, steps / slotNum tw).

(** A task sits at the back of slot [pos] with [circle] rotations to wait,
    and the registry points there. *)
Definition placed (tw : TimeWheel) (t : task) (pos circle : Z) : Prop :=
  timer tw !! task_key t = Some pos /\
  exists l, slots tw !! Z.to_nat pos = Some (Some l) /\
            last l = Some (set_circle t circle).

End Properties.

(** ** Concrete wheels

    Keys are strings, a callback is known by its name and a payload is a
    number. *)

(** The wheel [New] returns for a positive interval and slot count. *)
Definition wheel (interval slotNum : Z) : @TimeWheel string _ _ nat string :=
  mkTimeWheel interval (replicate (Z.to_nat slotNum) (Some [])) ∅ 0 slotNum.

(** The task [AddTask] sends for a delay [d], a number of runs and a key. *)
Definition arm (d times : Z) (k : string) : @task string nat string :=
  mkTask d times 0 k "job" 0%nat.

(** A wheel of ten slots of a second and a half. *)
Definition wheel_1500ms : @TimeWheel string _ _ nat string := wheel 1500000000 10.

(** A wheel of three slots of one second, with the task A armed for three
    runs one second apart. *)
Definition wheel_A3 : @TimeWheel string _ _ nat string :=
  mkTimeWheel 1000000000
    [Some []; Some [mkTask 1000000000 3 0 "A" "job" 0%nat]; Some []]
    {["A" := 1]} 0 3.

(** A wheel of three slots of two seconds in which A and B, both running
    forever with a delay of one second, sit in the slot under the cursor. *)
Definition wheel_AB : @TimeWheel string _ _ nat string :=
  mkTimeWheel 2000000000
    [Some [arm 1000000000 (-1) "A"; arm 1000000000 (-1) "B"]; Some []; Some []]
    {["A" := 0; "B" := 0]} 0 3.

(** The same wheel after A fired and went to the back of the list. *)
Definition wheel_BA : @TimeWheel string _ _ nat string :=
  mkTimeWheel 2000000000
    [Some [arm 1000000000 (-1) "B"; arm 1000000000 (-1) "A"]; Some []; Some []]
    {["A" := 0; "B" := 0]} 0 3.

(** A wheel of two slots of one second in which A and B, both running
    forever with a delay of two seconds, are due under the cursor. *)
Definition wheel_due2 : @TimeWheel string _ _ nat string :=
  mkTimeWheel 1000000000
    [Some [arm 2000000000 (-1) "A"; arm 2000000000 (-1) "B"]; Some []]
    {["A" := 0; "B" := 0]} 0 2.

(** [wheel_A3] one tick later: the cursor is on the slot of A, which is
    due. *)
Definition wheel_A3_due : @TimeWheel string _ _ nat string :=
  mkTimeWheel 1000000000
    [Some []; Some [mkTask 1000000000 3 0 "A" "job" 0%nat]; Some []]
    {["A" := 1]} 1 3.

(** A wheel of three slots of one second in which A, running forever, is
    due under the cursor with the delay of minus two seconds an update gave
    it. *)
Definition wheel_neg : @TimeWheel string _ _ nat string :=
  mkTimeWheel 1000000000
    [Some [mkTask (-2000000000) (-1) 0 "A" "job" 0%nat]; Some []; Some []]
    {["A" := 0]} 0 3.

(** ** Tactics for concrete runs *)

Ltac by_computing := vm_compute; reflexivity.

Ltac run_step :=
  first
    [ eapply (step_Tick 20); vm_compute; reflexivity
    | eapply step_Add; [vm_compute; reflexivity | vm_compute; reflexivity]
    | eapply step_Update; vm_compute; reflexivity
    | eapply step_Remove; vm_compute; reflexivity ].

Ltac run_steps :=
  repeat first [ apply steps_nil | eapply steps_cons; [run_step|] ].

(** ** Rounding in binary64

    What the development needs of [SpecFloat]'s rounding pipeline: a shift to
    the right divides the mantissa, rounding to nearest moves it by at most
    one unit, and so a result stays between two bounds that are on the grid
    of its exponent. *)


Lemma digits2_pos_bounds (p : positive) :
  2 ^ (Z.pos (digits2_pos p) - 1) <= Z.pos p < 2 ^ Z.pos (digits2_pos p).
Proof.
  induction p as [p IH|p IH|]; cbn [digits2_pos].
  - rewrite Pos2Z.inj_succ, (Pos2Z.inj_xI p).
    replace (Z.succ (Z.pos (digits2_pos p)) - 1) with (Z.succ (Z.pos (digits2_pos p) - 1)) by lia.
    rewrite !Z.pow_succ_r by lia. lia.
  - rewrite Pos2Z.inj_succ, (Pos2Z.inj_xO p).
    replace (Z.succ (Z.pos (digits2_pos p)) - 1) with (Z.succ (Z.pos (digits2_pos p) - 1)) by lia.
    rewrite !Z.pow_succ_r by lia. lia.
  - simpl. lia.
Qed.

Lemma Zdigits2_nonneg m : 0 <= Zdigits2 m.
Proof. destruct m; simpl; lia. Qed.

Lemma Zdigits2_le m k : 0 <= m < 2 ^ k -> 0 <= k -> Zdigits2 m <= k.
Proof.
  intros [Hm Hlt] Hk. destruct m as [|p|p]; simpl; [lia| |lia].
  pose proof (digits2_pos_bounds p) as [Hlo _].
  destruct (Z_le_gt_dec (Z.pos (digits2_pos p)) k) as [|Hgt]; [done|].
  assert (2 ^ k <= 2 ^ (Z.pos (digits2_pos p) - 1)) by (apply Z.pow_le_mono_r; lia).
  lia.
Qed.

Lemma shr_1_m mrs : 0 <= shr_m mrs -> shr_m (shr_1 mrs) = shr_m mrs / 2.
Proof.
  destruct mrs as [m r s]; simpl. intros Hm.
  destruct m as [|[p|p|]|p]; cbn [shr_m]; try lia;
    first [apply Z.div_unique with 0; lia | apply Z.div_unique with 1; lia].
Qed.

Lemma iter_pos_shr_1 p : forall mrs, 0 <= shr_m mrs ->
  shr_m (SpecFloat.iter_pos shr_1 p mrs) = shr_m mrs / 2 ^ Z.pos p.
Proof.
  induction p as [p IH|p IH|]; intros mrs Hm; cbn [SpecFloat.iter_pos].
  - assert (H1 : 0 <= shr_m (shr_1 mrs)) by (rewrite shr_1_m by done; apply Z.div_pos; lia).
    assert (H2 : 0 <= shr_m (SpecFloat.iter_pos shr_1 p (shr_1 mrs))).
    { rewrite IH by done. apply Z.div_pos; lia. }
    rewrite IH, IH, shr_1_m by done.
    rewrite !Z.div_div by lia. f_equal.
    rewrite (Pos2Z.inj_xI p). replace (2 * Z.pos p + 1) with (1 + Z.pos p + Z.pos p) by lia.
    rewrite !Z.pow_add_r by lia. lia.
  - assert (H2 : 0 <= shr_m (SpecFloat.iter_pos shr_1 p mrs)).
    { rewrite IH by done. apply Z.div_pos; lia. }
    rewrite IH, IH by done.
    rewrite !Z.div_div by lia. f_equal.
    rewrite (Pos2Z.inj_xO p). replace (2 * Z.pos p) with (Z.pos p + Z.pos p) by lia.
    rewrite !Z.pow_add_r by lia. lia.
  - rewrite shr_1_m by done. reflexivity.
Qed.

Lemma shr_spec mrs e n : 0 <= shr_m mrs ->
  shr mrs e n = (fst (shr mrs e n), e + Z.max 0 n) /\
  shr_m (fst (shr mrs e n)) = shr_m mrs / 2 ^ Z.max 0 n.
Proof.
  intros Hm. destruct n as [|p|p]; simpl.
  - rewrite Z.add_0_r, Z.div_1_r. done.
  - rewrite iter_pos_shr_1 by done. rewrite Z.max_r by lia. done.
  - rewrite Z.add_0_r, Z.div_1_r. done.
Qed.

Lemma round_nearest_even_bounds m l :
  m <= round_nearest_even m l <= m + 1.
Proof. destruct l as [|[]]; simpl; try lia. destruct (Z.even m); lia. Qed.


Lemma shr_record_of_loc_m m l : shr_m (shr_record_of_loc m l) = m.
Proof. by destruct l as [|[]]. Qed.

Lemma shr_fexp_spec m e l : 0 <= m ->
  snd (shr_fexp prec emax m e l) = Z.max e (fexp prec emax (Zdigits2 m + e)) /\
  shr_m (fst (shr_fexp prec emax m e l))
  = m / 2 ^ (Z.max e (fexp prec emax (Zdigits2 m + e)) - e).
Proof.
  intros Hm. unfold shr_fexp.
  destruct (shr_spec (shr_record_of_loc m l) e (fexp prec emax (Zdigits2 m + e) - e))
    as [Heq Hdiv]; [by rewrite shr_record_of_loc_m|].
  rewrite shr_record_of_loc_m in Hdiv. rewrite Hdiv, Heq. cbn [snd].
  split; [lia | f_equal; f_equal; lia].
Qed.

Lemma binary_round_aux_shape s mx ex lx : 0 <= mx ->
  exists m2 : Z,
    let e1 := Z.max ex (fexp prec emax (Zdigits2 mx + ex)) in
    let e2 := Z.max e1 (fexp prec emax (Zdigits2 m2 + e1)) in
    mx / 2 ^ (e1 - ex) <= m2 <= mx / 2 ^ (e1 - ex) + 1 /\
    binary_round_aux prec emax s mx ex lx = float_of_mant s (m2 / 2 ^ (e2 - e1)) e2.
Proof.
  intros Hmx. unfold binary_round_aux.
  destruct (shr_fexp_spec mx ex lx Hmx) as [He1 Hm1].
  destruct (shr_fexp prec emax mx ex lx) as [mrs1 e1'] eqn:E1. cbn [fst snd] in He1, Hm1.
  set (m2 := round_nearest_even (shr_m mrs1) (loc_of_shr_record mrs1)).
  assert (Hm2 : shr_m mrs1 <= m2 <= shr_m mrs1 + 1) by apply round_nearest_even_bounds.
  assert (H0 : 0 <= shr_m mrs1) by (rewrite Hm1; apply Z.div_pos; lia).
  destruct (shr_fexp_spec m2 e1' loc_Exact) as [He2 Hm3]; [lia|].
  destruct (shr_fexp prec emax m2 e1' loc_Exact) as [mrs2 e2'] eqn:E2. cbn [fst snd] in He2, Hm3.
  exists m2. cbn zeta. rewrite <- He1 in Hm1 |- *. rewrite <- Hm1. split; [done|].
  rewrite <- He2 in Hm3 |- *. rewrite <- Hm3. unfold float_of_mant. reflexivity.
Qed.

Lemma div_pow2_lower n m j k :
  0 <= j -> 0 <= k -> n * 2 ^ (j + k) <= m -> n * 2 ^ j <= m / 2 ^ k.
Proof.
  intros Hj Hk H. rewrite Z.pow_add_r in H by done.
  apply Z.div_le_lower_bound; lia.
Qed.

Lemma div_pow2_upper n m j k :
  0 <= j -> 0 <= k -> m <= n * 2 ^ (j + k) -> m / 2 ^ k <= n * 2 ^ j.
Proof.
  intros Hj Hk H. rewrite Z.pow_add_r in H by done.
  apply Z.div_le_upper_bound; lia.
Qed.

Lemma div_pow2_upper_strict n m j k :
  0 <= j -> 0 <= k -> m < n * 2 ^ (j + k) -> m / 2 ^ k < n * 2 ^ j.
Proof.
  intros Hj Hk H. rewrite Z.pow_add_r in H by done.
  apply Z.div_lt_upper_bound; lia.
Qed.

Lemma fexp_le_of_lt m e nu eb :
  0 <= m -> e <= eb -> -1074 <= eb -> nu <= 2 ^ 53 ->
  m < nu * 2 ^ (eb - e) -> fexp prec emax (Zdigits2 m + e) <= eb.
Proof.
  intros Hm He Heb Hnu Hlt. unfold fexp, emin, prec, emax.
  assert (Zdigits2 m <= 53 + (eb - e)); [|lia].
  apply Zdigits2_le; [|lia]. split; [done|].
  rewrite Z.pow_add_r by lia.
  assert (0 < 2 ^ (eb - e)) by (apply Z.pow_pos_nonneg; lia). nia.
Qed.

Lemma binary_round_aux_bounds s mx ex lx nl nu eb :
  0 <= mx -> ex <= eb -> -1074 <= eb -> 0 <= nl -> nu < 2 ^ 53 ->
  nl * 2 ^ (eb - ex) <= mx < nu * 2 ^ (eb - ex) ->
  exists m e, binary_round_aux prec emax s mx ex lx = float_of_mant s m e /\
    e <= eb /\ nl * 2 ^ (eb - e) <= m <= nu * 2 ^ (eb - e).
Proof.
  intros Hmx Hex Heb Hnl Hnu [Hlo Hhi].
  destruct (binary_round_aux_shape s mx ex lx Hmx) as (m2 & Hm2 & ->). cbn zeta in *.
  set (e1 := Z.max ex (fexp prec emax (Zdigits2 mx + ex))) in *.
  assert (He1 : ex <= e1 <= eb).
  { subst e1. pose proof (fexp_le_of_lt mx ex nu eb). lia. }
  assert (Hm1 : nl * 2 ^ (eb - e1) <= mx / 2 ^ (e1 - ex) < nu * 2 ^ (eb - e1)).
  { replace (eb - ex) with ((eb - e1) + (e1 - ex)) in Hlo, Hhi by lia.
    split; [apply div_pow2_lower | apply div_pow2_upper_strict]; lia. }
  assert (H0 : 0 <= mx / 2 ^ (e1 - ex)) by (apply Z.div_pos; lia).
  set (e2 := Z.max e1 (fexp prec emax (Zdigits2 m2 + e1))) in *.
  assert (He2 : e1 <= e2 <= eb).
  { subst e2. pose proof (fexp_le_of_lt m2 e1 (nu + 1) eb).
    assert (0 < 2 ^ (eb - e1)) by (apply Z.pow_pos_nonneg; lia).
    assert (m2 < (nu + 1) * 2 ^ (eb - e1)) by nia. lia. }
  exists (m2 / 2 ^ (e2 - e1)), e2. split; [done|]. split; [lia|].
  assert (nl * 2 ^ (eb - e1) <= m2 <= nu * 2 ^ (eb - e1)) as [Hl2 Hu2] by lia.
  replace (eb - e1) with ((eb - e2) + (e2 - e1)) in Hl2, Hu2 by lia.
  split; [apply div_pow2_lower | apply div_pow2_upper]; lia.
Qed.

Lemma Pos_iter_xO m d : Z.pos (Pos.iter xO m d) = Z.pos m * 2 ^ Z.pos d.
Proof.
  induction d as [|d IH] using Pos.peano_ind.
  - simpl. lia.
  - rewrite Pos.iter_succ, (Pos2Z.inj_xO (Pos.iter xO m d)), IH, Pos2Z.inj_succ, Z.pow_succ_r by lia.
    lia.
Qed.

Lemma shl_align_spec mx ex ex' :
  snd (shl_align mx ex ex') = Z.min ex ex' /\
  Z.pos (fst (shl_align mx ex ex')) = Z.pos mx * 2 ^ (ex - Z.min ex ex').
Proof.
  unfold shl_align. destruct (ex' - ex) as [|d|d] eqn:E; cbn [fst snd].
  - rewrite Z.min_l by lia. rewrite Z.sub_diag. lia.
  - rewrite Z.min_l by lia. rewrite Z.sub_diag. lia.
  - rewrite Z.min_r by lia. split; [done|].
    rewrite Pos_iter_xO. f_equal. f_equal. lia.
Qed.

Lemma Zdigits2_unique m k : 0 < k -> 2 ^ (k - 1) <= m < 2 ^ k -> Zdigits2 m = k.
Proof.
  intros Hk [Hlo Hhi].
  assert (0 < 2 ^ (k - 1)) by (apply Z.pow_pos_nonneg; lia).
  destruct m as [|p|p]; [lia| |lia]. simpl.
  pose proof (digits2_pos_bounds p) as [Hlo' Hhi'].
  destruct (Z.lt_trichotomy (Z.pos (digits2_pos p)) k) as [Hlt|[Heq|Hgt]]; [|done|].
  - assert (2 ^ Z.pos (digits2_pos p) <= 2 ^ (k - 1)) by (apply Z.pow_le_mono_r; lia). lia.
  - assert (2 ^ k <= 2 ^ (Z.pos (digits2_pos p) - 1)) by (apply Z.pow_le_mono_r; lia). lia.
Qed.

Lemma binary_round_aux_canonical s m e :
  fexp prec emax (Z.pos (digits2_pos m) + e) = e -> e <= emax - prec ->
  binary_round_aux prec emax s (Z.pos m) e loc_Exact = S754_finite s m e.
Proof.
  intros Hc He. unfold binary_round_aux, shr_fexp. cbn [Zdigits2 shr_record_of_loc].
  rewrite Hc, Z.sub_diag. cbn [shr shr_m loc_of_shr_record round_nearest_even Zdigits2].
  rewrite Hc, Z.sub_diag. cbn [shr shr_m].
  apply Z.leb_le in He. by rewrite He.
Qed.



Lemma float64_of_int_exact n :
  0 < n < 2 ^ 53 ->
  exists m e, float64_of_int n = S754_finite false m e /\
    -52 <= e <= 0 /\ Z.pos m = n * 2 ^ (- e) /\ e = Zdigits2 n - 53.
Proof.
  intros [Hn Hlt]. destruct n as [|p|p]; try lia.
  unfold float64_of_int, binary_normalize, binary_round.
  pose proof (digits2_pos_bounds p) as [Hlo Hhi].
  assert (Hd : 1 <= Z.pos (digits2_pos p) <= 53).
  { split; [lia|]. apply (Zdigits2_le (Z.pos p) 53); lia. }
  set (d := Z.pos (digits2_pos p)) in *.
  assert (Hf : fexp prec emax (d + 0) = d - 53) by (unfold fexp, emin, prec, emax; lia).
  rewrite Hf.
  destruct (shl_align_spec p 0 (d - 53)) as [Hs Hm].
  destruct (shl_align p 0 (d - 53)) as [mz ez]. cbn [fst snd] in Hs, Hm.
  rewrite Z.min_r in Hs, Hm by lia. subst ez.
  exists mz, (d - 53). split; [|split; [lia|split; [rewrite Hm; f_equal; f_equal; lia|done]]].
  apply binary_round_aux_canonical; [|unfold emax, prec; lia].
  assert (Hdz : Zdigits2 (Z.pos mz) = 53).
  { apply Zdigits2_unique; [lia|]. rewrite Hm.
    replace (0 - (d - 53)) with (53 - d) by lia.
    replace (2 ^ (53 - 1)) with (2 ^ (d - 1) * 2 ^ (53 - d)).
    2:{ rewrite <- Z.pow_add_r by lia. f_equal. lia. }
    replace (2 ^ 53) with (2 ^ d * 2 ^ (53 - d)).
    2:{ rewrite <- Z.pow_add_r by lia. f_equal. lia. }
    assert (0 < 2 ^ (53 - d)) by (apply Z.pow_pos_nonneg; lia). nia. }
  cbn [Zdigits2] in Hdz. rewrite Hdz. unfold fexp, emin, prec, emax. lia.
Qed.

(** The float64 of a negative integer below [2^53] is exact as well. *)
Lemma float64_of_int_opp_exact n :
  0 < n < 2 ^ 53 ->
  exists m e, float64_of_int (- n) = S754_finite true m e /\
    -52 <= e <= 0 /\ Z.pos m = n * 2 ^ (- e).
Proof.
  intros [Hn Hlt]. destruct n as [|p|p]; try lia.
  change (- Z.pos p) with (Z.neg p).
  unfold float64_of_int, binary_normalize, binary_round.
  pose proof (digits2_pos_bounds p) as [Hlo Hhi].
  assert (Hd : 1 <= Z.pos (digits2_pos p) <= 53).
  { split; [lia|]. apply (Zdigits2_le (Z.pos p) 53); lia. }
  set (d := Z.pos (digits2_pos p)) in *.
  assert (Hf : fexp prec emax (d + 0) = d - 53) by (unfold fexp, emin, prec, emax; lia).
  rewrite Hf.
  destruct (shl_align_spec p 0 (d - 53)) as [Hs Hm].
  destruct (shl_align p 0 (d - 53)) as [mz ez]. cbn [fst snd] in Hs, Hm.
  rewrite Z.min_r in Hs, Hm by lia. subst ez.
  exists mz, (d - 53). split; [|split; [lia|rewrite Hm; f_equal; f_equal; lia]].
  apply binary_round_aux_canonical; [|unfold emax, prec; lia].
  assert (Hdz : Zdigits2 (Z.pos mz) = 53).
  { apply Zdigits2_unique; [lia|]. rewrite Hm.
    replace (0 - (d - 53)) with (53 - d) by lia.
    replace (2 ^ (53 - 1)) with (2 ^ (d - 1) * 2 ^ (53 - d)).
    2:{ rewrite <- Z.pow_add_r by lia. f_equal. lia. }
    replace (2 ^ 53) with (2 ^ d * 2 ^ (53 - d)).
    2:{ rewrite <- Z.pow_add_r by lia. f_equal. lia. }
    assert (0 < 2 ^ (53 - d)) by (apply Z.pow_pos_nonneg; lia). nia. }
  cbn [Zdigits2] in Hdz. rewrite Hdz. unfold fexp, emin, prec, emax. lia.
Qed.

Lemma int_of_float_of_mant m e nl nu :
  e <= 0 -> 0 <= nl -> nu < 2 ^ 63 ->
  nl * 2 ^ (- e) <= m <= nu * 2 ^ (- e) ->
  nl <= int_of_float64 (float_of_mant false m e) <= nu.
Proof.
  intros He Hnl Hnu [Hlo Hhi].
  assert (Hp : 0 < 2 ^ (- e)) by (apply Z.pow_pos_nonneg; lia).
  unfold float_of_mant. destruct m as [|p|p]; [simpl; nia| |nia].
  assert (Hle : (e <=? emax - prec) = true) by (apply Z.leb_le; unfold emax, prec; lia).
  rewrite Hle. unfold int_of_float64, cond_Zopp.
  assert (Hv : nl <= match e with
                     | Z.neg k => Z.pos p / 2 ^ Z.pos k
                     | _ => Z.pos p * 2 ^ e
                     end <= nu).
  { destruct e as [|k|k]; [simpl in *; lia|lia|].
    change (- Z.neg k) with (Z.pos k) in *.
    split; [apply Z.div_le_lower_bound; lia | apply Z.div_le_upper_bound; lia]. }
  set (v := match e with Z.neg k => _ | _ => _ end) in *.
  assert (0 < 2 ^ 63) by done.
  destruct (Z.leb_spec (- 2 ^ 63) v); [destruct (Z.ltb_spec v (2 ^ 63))|]; cbn [andb]; lia.
Qed.

Lemma int_of_float_of_mant_lt m e nl nu :
  e <= 0 -> 0 <= nl -> nu < 2 ^ 63 ->
  nl * 2 ^ (- e) <= m < (nu + 1) * 2 ^ (- e) ->
  nl <= int_of_float64 (float_of_mant false m e) <= nu.
Proof.
  intros He Hnl Hnu [Hlo Hhi].
  assert (Hp : 0 < 2 ^ (- e)) by (apply Z.pow_pos_nonneg; lia).
  unfold float_of_mant. destruct m as [|p|p]; [simpl; nia| |nia].
  assert (Hle : (e <=? emax - prec) = true) by (apply Z.leb_le; unfold emax, prec; lia).
  rewrite Hle. unfold int_of_float64, cond_Zopp.
  assert (Hv : nl <= match e with
                     | Z.neg k => Z.pos p / 2 ^ Z.pos k
                     | _ => Z.pos p * 2 ^ e
                     end <= nu).
  { destruct e as [|k|k]; [simpl in *; lia|lia|].
    change (- Z.neg k) with (Z.pos k) in *.
    split; [apply Z.div_le_lower_bound; lia|].
    assert (Z.pos p / 2 ^ Z.pos k < nu + 1); [|lia].
    apply Z.div_lt_upper_bound; lia. }
  set (v := match e with Z.neg k => _ | _ => _ end) in *.
  assert (0 < 2 ^ 63) by done.
  destruct (Z.leb_spec (- 2 ^ 63) v); [destruct (Z.ltb_spec v (2 ^ 63))|]; cbn [andb]; lia.
Qed.

Lemma int_of_float_of_mant_lt_1 m e :
  e <= -53 -> 0 <= m <= (2 ^ 53 - 1) * 2 ^ (-53 - e) ->
  int_of_float64 (float_of_mant false m e) = 0.
Proof.
  intros He [Hlo Hhi].
  assert (Hp : 0 < 2 ^ (-53 - e)) by (apply Z.pow_pos_nonneg; lia).
  assert (Hlt : m < 2 ^ (- e)).
  { replace (- e) with (53 + (-53 - e)) by lia. rewrite Z.pow_add_r by lia. lia. }
  unfold float_of_mant. destruct m as [|p|p]; [done| |lia].
  assert (Hle : (e <=? emax - prec) = true) by (apply Z.leb_le; unfold emax, prec; lia).
  rewrite Hle. unfold int_of_float64, cond_Zopp.
  destruct e as [|k|k]; [lia|lia|].
  change (- Z.neg k) with (Z.pos k) in *.
  rewrite Z.div_small by lia. reflexivity.
Qed.

Lemma SFdiv_core_binary_spec m1 e1 m2 e2 :
  let e' := Z.min (fexp prec emax (Zdigits2 m1 + e1 - (Zdigits2 m2 + e2))) (e1 - e2) in
  0 < e1 - e2 - e' ->
  exists l, SFdiv_core_binary prec emax m1 e1 m2 e2 = (m1 * 2 ^ (e1 - e2 - e') / m2, e', l).
Proof.
  intros e' Hs. unfold SFdiv_core_binary. fold e'.
  destruct (e1 - e2 - e') as [|s|s] eqn:E; try lia.
  rewrite Z.shiftl_mul_pow2 by lia.
  unfold Z.div. destruct (Z.div_eucl _ _) as [q r]. eauto.
Qed.


Lemma float64_of_int_1e9 : float64_of_int 1000000000 = float64_1e9.
Proof. reflexivity. Qed.

(** The fractional part [float64(nsec)/1e9] of [Seconds] stays below
    [1 - 2^-30]: a nanosecond is more than [2^-30] seconds. *)
Lemma nsec_quotient_lt_1 nsec :
  0 < nsec < 1000000000 ->
  exists m e, SFdiv prec emax (float64_of_int nsec) float64_1e9 = float_of_mant false m e /\
    e <= -53 /\ 0 <= m <= (2 ^ 53 - 2 ^ 23 - 1) * 2 ^ (-53 - e).
Proof.
  intros Hn.
  destruct (float64_of_int_exact nsec) as (m1 & e1 & -> & He1 & Hm1 & Hd1); [lia|].
  assert (Hd : 1 <= Zdigits2 nsec <= 30).
  { split; [lia|]. apply Zdigits2_le; lia. }
  unfold float64_1e9, SFdiv.
  assert (Hdm1 : Zdigits2 (Z.pos m1) = 53).
  { apply Zdigits2_unique; [lia|]. rewrite Hm1.
    destruct nsec as [|p|p]; try lia. cbn [Zdigits2] in *.
    pose proof (digits2_pos_bounds p) as [Hlo Hhi].
    set (d := Z.pos (digits2_pos p)) in *.
    replace (- e1) with (53 - d) by lia.
    replace (2 ^ (53 - 1)) with (2 ^ (d - 1) * 2 ^ (53 - d)).
    2:{ rewrite <- Z.pow_add_r by lia. f_equal. lia. }
    replace (2 ^ 53) with (2 ^ d * 2 ^ (53 - d)).
    2:{ rewrite <- Z.pow_add_r by lia. f_equal. lia. }
    assert (0 < 2 ^ (53 - d)) by (apply Z.pow_pos_nonneg; lia). nia. }
  destruct (SFdiv_core_binary_spec (Z.pos m1) e1 8388608000000000 (-23)) as [l Hcore].
  { rewrite Hdm1. change (Zdigits2 8388608000000000) with 53.
    unfold fexp, emin, prec, emax. lia. }
  rewrite Hdm1 in Hcore. change (Zdigits2 8388608000000000) with 53 in Hcore.
  replace (Z.min (fexp prec emax (53 + e1 - (53 + -23))) (e1 - -23)) with (e1 - 30) in Hcore
    by (unfold fexp, emin, prec, emax; lia).
  replace (e1 - -23 - (e1 - 30)) with 53 in Hcore by lia.
  rewrite Hcore. cbn [xorb].
  assert (Hq0 : 0 <= Z.pos m1 * 2 ^ 53 / 8388608000000000) by (apply Z.div_pos; lia).
  destruct (binary_round_aux_bounds false (Z.pos m1 * 2 ^ 53 / 8388608000000000)
              (e1 - 30) l 0 (2 ^ 53 - 2 ^ 23 - 1) (-53)) as (m & e & Heq & He & Hm);
    try lia.
  { split; [lia|]. apply Z.div_lt_upper_bound; [lia|].
    rewrite Hm1.
    replace (-53 - (e1 - 30)) with (-23 - e1) by lia.
    replace (- e1) with (23 + (-23 - e1)) by lia.
    rewrite Z.pow_add_r by lia.
    assert (0 < 2 ^ (-23 - e1)) by (apply Z.pow_pos_nonneg; lia).
    change (2 ^ 53) with 9007199254740992. change (2 ^ 23) with 8388608. nia. }
  exists m, e. split; [done|]. split; [lia|]. lia.
Qed.

Lemma binary_round_bounds_at p e eb nl nu :
  e <= eb -> -1074 <= eb <= 0 -> 0 <= nl -> nu < 2 ^ 53 ->
  nl * 2 ^ (eb - e) <= Z.pos p < nu * 2 ^ (eb - e) ->
  exists m' e', binary_round prec emax false p e = float_of_mant false m' e' /\
    e' <= eb /\ nl * 2 ^ (eb - e') <= m' <= nu * 2 ^ (eb - e').
Proof.
  intros He Heb Hnl Hnu [Hlo Hhi]. unfold binary_round.
  destruct (shl_align_spec p e (fexp prec emax (Z.pos (digits2_pos p) + e))) as [Hs Hm].
  destruct (shl_align p e _) as [mz ez]. cbn [fst snd] in Hs, Hm.
  assert (Hez : ez <= e) by lia. rewrite <- Hs in Hm. clear Hs.
  assert (0 < 2 ^ (e - ez)) by (apply Z.pow_pos_nonneg; lia).
  destruct (binary_round_aux_bounds false (Z.pos mz) ez loc_Exact nl nu eb)
    as (m' & e' & Heq & He' & Hm'); try lia.
  { rewrite Hm. replace (eb - ez) with (eb - e + (e - ez)) by lia.
    rewrite Z.pow_add_r by lia. nia. }
  by exists m', e'.
Qed.

Lemma binary_round_bounds p e nl nu :
  e <= 0 -> 0 <= nl -> nu < 2 ^ 53 ->
  nl * 2 ^ (- e) <= Z.pos p < nu * 2 ^ (- e) ->
  exists m' e', binary_round prec emax false p e = float_of_mant false m' e' /\
    e' <= 0 /\ nl * 2 ^ (- e') <= m' <= nu * 2 ^ (- e').
Proof.
  intros He Hnl Hnu Hb.
  destruct (binary_round_bounds_at p e 0 nl nu) as (m' & e' & Heq & He' & Hm');
    [lia..|by rewrite Z.sub_0_l|].
  exists m', e'. by rewrite Z.sub_0_l in Hm'.
Qed.

(** The sum of a whole number of seconds and a fraction, before rounding:
    the mantissa of the sum at the exponent of the fraction. *)
Lemma SFadd_int_frac_aligned sec p ey :
  1 <= sec < 2 ^ 34 -> ey <= -53 ->
  exists ab,
    Z.pos ab = sec * 2 ^ (- ey) + Z.pos p /\
    SFadd prec emax (float64_of_int sec) (S754_finite false p ey)
    = binary_round prec emax false ab ey.
Proof.
  intros Hsec Hey.
  assert (2 ^ 34 < 2 ^ 53) by done.
  destruct (float64_of_int_exact sec) as (mx & ex & -> & Hex & Hmx & Hdx); [lia|].
  assert (Hds : Zdigits2 sec <= 34) by (apply Zdigits2_le; lia).
  cbn [SFadd]. rewrite Z.min_r by lia.
  destruct (shl_align_spec mx ex ey) as [_ Ha].
  destruct (shl_align_spec p ey ey) as [_ Hb].
  rewrite Z.min_r in Ha by lia. rewrite Z.min_r, Z.sub_diag, Z.mul_1_r in Hb by lia.
  set (a := fst (shl_align mx ex ey)) in *. set (b := fst (shl_align p ey ey)) in *.
  cbn [cond_Zopp]. exists (a + b)%positive. split.
  - rewrite Pos2Z.inj_add, Ha, Hb, Hmx, <- Z.mul_assoc, <- Z.pow_add_r by lia.
    f_equal. f_equal. f_equal. lia.
  - by rewrite <- Pos2Z.inj_add.
Qed.

Lemma int_of_float64_of_int sec :
  1 <= sec < 2 ^ 34 -> int_of_float64 (float64_of_int sec) = sec.
Proof.
  intros Hsec. assert (2 ^ 34 < 2 ^ 53) by done.
  destruct (float64_of_int_exact sec) as (mx & ex & -> & Hex & Hmx & Hdx); [lia|].
  pose proof (int_of_float_of_mant (Z.pos mx) ex sec sec) as Hi.
  unfold float_of_mant in Hi.
  replace (ex <=? emax - prec) with true in Hi
    by (symmetry; apply Z.leb_le; unfold emax, prec; lia).
  assert (2 ^ 34 < 2 ^ 63) by done. destruct Hi; lia.
Qed.

(** Adding a fraction below one to a whole number of seconds lands between
    that number and its successor. *)
Lemma SFadd_int_frac sec my ey :
  1 <= sec < 2 ^ 34 -> ey <= -53 -> 0 <= my <= (2 ^ 53 - 1) * 2 ^ (-53 - ey) ->
  sec <= int_of_float64
           (SFadd prec emax (float64_of_int sec) (float_of_mant false my ey)) <= sec + 1.
Proof.
  intros Hsec Hey [Hmy0 Hmy].
  assert (2 ^ 34 < 2 ^ 53) by done. assert (2 ^ 34 < 2 ^ 63) by done.
  pose proof (int_of_float64_of_int sec Hsec) as Hx.
  unfold float_of_mant. destruct my as [|p|p]; [|clear Hx|lia].
  { destruct (float64_of_int_exact sec) as (mx & ex & E & _); [lia|].
    rewrite E in Hx |- *. cbn [SFadd]. lia. }
  replace (ey <=? emax - prec) with true
    by (symmetry; apply Z.leb_le; unfold emax, prec; lia).
  destruct (SFadd_int_frac_aligned sec p ey Hsec Hey) as (ab & Hab & ->).
  assert (Hp : 0 < 2 ^ (-53 - ey)) by (apply Z.pow_pos_nonneg; lia).
  assert (Hpe : 2 ^ (- ey) = 2 ^ 53 * 2 ^ (-53 - ey)).
  { rewrite <- Z.pow_add_r by lia. f_equal. lia. }
  destruct (binary_round_bounds ab ey sec (sec + 1)) as (m' & e' & Heq & He' & Hm');
    try lia.
  rewrite Heq. apply int_of_float_of_mant; lia.
Qed.

(** Below [2^23] seconds the sum does not round up to the next second: the
    spacing of the floats there is finer than the nanosecond that is
    missing. *)
Lemma SFadd_int_frac_exact sec my ey :
  1 <= sec < 2 ^ 23 -> ey <= -53 ->
  0 <= my <= (2 ^ 53 - 2 ^ 23 - 1) * 2 ^ (-53 - ey) ->
  int_of_float64
    (SFadd prec emax (float64_of_int sec) (float_of_mant false my ey)) = sec.
Proof.
  intros Hsec Hey [Hmy0 Hmy].
  assert (H23 : 2 ^ 23 = 8388608) by done. assert (H30 : 2 ^ 30 = 1073741824) by done.
  assert (H34 : 2 ^ 34 = 17179869184) by done.
  assert (H53 : 2 ^ 53 = 9007199254740992) by done.
  assert (H63 : 2 ^ 63 = 9223372036854775808) by done.
  pose proof (int_of_float64_of_int sec ltac:(lia)) as Hx.
  unfold float_of_mant. destruct my as [|p|p]; [|clear Hx|lia].
  { destruct (float64_of_int_exact sec) as (mx & ex & E & _); [lia|].
    rewrite E in Hx |- *. cbn [SFadd]. lia. }
  replace (ey <=? emax - prec) with true
    by (symmetry; apply Z.leb_le; unfold emax, prec; lia).
  destruct (SFadd_int_frac_aligned sec p ey ltac:(lia) Hey) as (ab & Hab & ->).
  assert (Hp : 0 < 2 ^ (-53 - ey)) by (apply Z.pow_pos_nonneg; lia).
  assert (Hpe : 2 ^ (- ey) = 2 ^ 53 * 2 ^ (-53 - ey)).
  { rewrite <- Z.pow_add_r by lia. f_equal. lia. }
  destruct (binary_round_bounds_at ab ey (-30) (sec * 2 ^ 30) ((sec + 1) * 2 ^ 30 - 1))
    as (m' & e' & Heq & He' & Hm'); try lia.
  { replace (-30 - ey) with (23 + (-53 - ey)) by lia.
    rewrite Hab, Hpe, Z.pow_add_r by lia. rewrite H23, H30, H53. rewrite H23, H53 in Hmy.
    nia. }
  rewrite Heq.
  assert (Hq : 0 < 2 ^ (-30 - e')) by (apply Z.pow_pos_nonneg; lia).
  assert (Hqe : 2 ^ (- e') = 2 ^ 30 * 2 ^ (-30 - e')).
  { rewrite <- Z.pow_add_r by lia. f_equal. lia. }
  assert (sec <= int_of_float64 (float_of_mant false m' e') <= sec); [|lia].
  apply int_of_float_of_mant_lt; [lia..|]. rewrite Hqe, H30. rewrite H30 in Hm'. nia.
Qed.

Lemma float64_of_int_0 : float64_of_int 0 = S754_zero false.
Proof. reflexivity. Qed.

Lemma int_Seconds_bounds d :
  0 <= d < 2 ^ 63 ->
  d / 1000000000 <= int_of_float64 (Seconds d) <= d / 1000000000 + 1 /\
  (d < 1000000000 -> int_of_float64 (Seconds d) = 0) /\
  (d / 1000000000 < 2 ^ 23 -> int_of_float64 (Seconds d) = d / 1000000000).
Proof.
  intros Hd. unfold Seconds, Second. cbn zeta.
  rewrite Z.quot_div_nonneg, Z.rem_mod_nonneg, float64_of_int_1e9 by lia.
  pose proof (Z.mod_pos_bound d 1000000000 ltac:(lia)) as Hn.
  assert (Hs : 0 <= d / 1000000000 < 2 ^ 34).
  { split; [apply Z.div_pos; lia|]. apply Z.div_lt_upper_bound; [lia|].
    change (2 ^ 34) with 17179869184. change (2 ^ 63) with 9223372036854775808 in Hd. lia. }
  set (sec := d / 1000000000) in *. set (nsec := d mod 1000000000) in *.
  assert (Hsmall : d < 1000000000 -> sec = 0) by (intros; apply Z.div_small; lia).
  destruct (Z.eq_dec nsec 0) as [->|Hn0].
  - rewrite float64_of_int_0. cbn [SFdiv float64_1e9 xorb].
    destruct (Z.eq_dec sec 0) as [->|Hs0].
    + rewrite float64_of_int_0. simpl. lia.
    + assert (E : SFadd prec emax (float64_of_int sec) (S754_zero false)
                  = float64_of_int sec).
      { destruct (float64_of_int_exact sec) as (mx & ex & -> & _); [|done].
        assert (2 ^ 34 < 2 ^ 53) by done. lia. }
      rewrite E, int_of_float64_of_int by lia. lia.
  - destruct (nsec_quotient_lt_1 nsec) as (m & e & -> & He & Hm); [lia|].
    assert (Hp : 0 < 2 ^ (-53 - e)) by (apply Z.pow_pos_nonneg; lia).
    assert (Hm' : 0 <= m <= (2 ^ 53 - 1) * 2 ^ (-53 - e)).
    { assert (0 < 2 ^ 23) by done. nia. }
    destruct (Z.eq_dec sec 0) as [->|Hs0].
    + rewrite float64_of_int_0.
      assert (Hz : int_of_float64 (SFadd prec emax (S754_zero false) (float_of_mant false m e)) = 0).
      { pose proof (int_of_float_of_mant_lt_1 m e He Hm') as Hi.
        unfold float_of_mant in *. destruct m as [|p|p]; [done| |done].
        destruct (e <=? emax - prec); [done|]. done. }
      rewrite Hz. lia.
    + pose proof (SFadd_int_frac sec m e) as Ha. split; [apply Ha; lia|]. split; [lia|].
      intros H23. apply SFadd_int_frac_exact; lia.
Qed.

(** ** Whole seconds of a duration *)

Lemma wholeSeconds_bounds d :
  0 <= d <= maxDuration -> d / Second <= wholeSeconds d <= d / Second + 1.
Proof.
  intros Hd. unfold wholeSeconds, Second. apply int_Seconds_bounds.
  unfold maxDuration in Hd. lia.
Qed.

Lemma wholeSeconds_sub_second d : 0 <= d < Second -> wholeSeconds d = 0.
Proof.
  intros Hd. unfold wholeSeconds. apply int_Seconds_bounds; unfold Second in *; [|lia].
  assert (1000000000 < 2 ^ 63) by done. lia.
Qed.

(** Below [2^23] seconds (97 days) the whole seconds of a duration are its
    integer quotient by one second. *)
Lemma wholeSeconds_exact d :
  0 <= d < 2 ^ 23 * Second -> wholeSeconds d = d / Second.
Proof.
  intros Hd. unfold wholeSeconds, Second in *.
  assert (H23 : 2 ^ 23 = 8388608) by done. assert (H63 : 2 ^ 63 = 9223372036854775808) by done.
  apply int_Seconds_bounds; [lia|]. apply Z.div_lt_upper_bound; lia.
Qed.

(** Above, the float64 sum can round up to the next second. *)
Example wholeSeconds_rounds_up :
  wholeSeconds (16777216 * Second + 999999999) = 16777217.
Proof. vm_compute. reflexivity. Qed.

Lemma wholeSeconds_ge_1 d : Second <= d <= maxDuration -> 1 <= wholeSeconds d.
Proof.
  intros Hd. pose proof (wholeSeconds_bounds d) as Hb.
  assert (1 <= d / Second); [|unfold Second in *; lia].
  apply Z.div_le_lower_bound; unfold Second in *; lia.
Qed.

Lemma wholeSeconds_range d : 0 <= d <= maxDuration -> 0 <= wholeSeconds d <= 9223372037.
Proof.
  intros Hd. pose proof (wholeSeconds_bounds d Hd) as Hb.
  assert (0 <= d / Second) by (apply Z.div_pos; unfold Second; lia).
  assert (d / Second < 9223372037); [|lia].
  apply Z.div_lt_upper_bound; unfold Second, maxDuration in *; lia.
Qed.

Lemma wrap64_small z : - 2 ^ 63 <= z < 2 ^ 63 -> wrap64 z = z.
Proof.
  intros Hz. unfold wrap64.
  change (2 ^ 64) with (2 * 2 ^ 63). rewrite Z.mod_small; lia.
Qed.

(** A negative whole number of seconds: the float64 is exact. *)
Lemma wholeSeconds_opp c :
  1 <= c < 2 ^ 53 -> wholeSeconds (- c * Second) = - c.
Proof.
  intros Hc. unfold wholeSeconds, Seconds, Second.
  assert (Hq : Z.quot (- c * 1000000000) 1000000000 = - c) by (apply Z.quot_mul; lia).
  assert (Hr : Z.rem (- c * 1000000000) 1000000000 = 0) by (apply Z.rem_mul; lia).
  rewrite Hq, Hr.
  destruct (float64_of_int_opp_exact c) as (m & e & -> & He & Hm); [lia|].
  change (float64_of_int 0) with (S754_zero false).
  change (float64_of_int 1000000000) with float64_1e9.
  cbn [SFdiv float64_1e9 xorb SFadd int_of_float64 cond_Zopp].
  assert (H63 : 2 ^ 53 < 2 ^ 63) by done.
  assert (Hv : match e with
               | Z.neg k => Z.pos m / 2 ^ Z.pos k
               | _ => Z.pos m * 2 ^ e
               end = c).
  { destruct e as [|pe|pe]; [|lia|].
    - cbn in Hm. lia.
    - rewrite Hm. cbn [Z.opp]. apply Z.div_mul. apply Z.pow_nonzero; lia. }
  rewrite Hv.
  destruct (Z.leb_spec (- 2 ^ 63) (- c)); [|lia].
  destruct (Z.ltb_spec (- c) (2 ^ 63)); [|lia]. done.
Qed.

Section Proofs.

Context {Key : Type} `{Countable Key} {TaskData Job : Type}.

Local Abbreviation task := (@task Key TaskData Job).
Local Abbreviation uptask := (@uptask Key TaskData).
Local Abbreviation TimeWheel := (@TimeWheel Key _ _ TaskData Job).
Local Abbreviation event := (@event Key TaskData Job).

Implicit Types (tw : TimeWheel) (t : task) (u : uptask) (l : list task)
  (k : Key) (log : list task) (p q i j : nat).

(** *** Placement *)

Lemma stepsOf_range tw d :
  Second <= interval tw <= maxDuration -> 0 <= d <= maxDuration ->
  0 <= stepsOf tw d <= 9223372037.
Proof.
  intros Hi Hd. unfold stepsOf.
  pose proof (wholeSeconds_ge_1 _ Hi). pose proof (wholeSeconds_range d Hd).
  split; [apply Z.div_pos; lia|].
  apply Z.div_le_upper_bound; nia.
Qed.

Lemma getPositionAndCircle_ok tw d :
  0 < slotNum tw <= 2 ^ 62 -> 0 <= currentPos tw < slotNum tw ->
  Second <= interval tw <= maxDuration -> 0 <= d <= maxDuration ->
  getPositionAndCircle tw d
  = Ok ((currentPos tw + stepsOf tw d) mod slotNum tw, stepsOf tw d / slotNum tw).
Proof.
  intros Hn Hc Hi Hd.
  pose proof (stepsOf_range tw d Hi Hd) as Hs.
  pose proof (wholeSeconds_ge_1 _ Hi) as Hw. pose proof (wholeSeconds_range d Hd) as Hr.
  unfold getPositionAndCircle, go_div, go_rem.
  change (int_of_float64 (Seconds d)) with (wholeSeconds d).
  change (int_of_float64 (Seconds (interval tw))) with (wholeSeconds (interval tw)).
  assert (E1 : (wholeSeconds (interval tw) =? 0) = false) by (apply Z.eqb_neq; lia).
  assert (E2 : (slotNum tw =? 0) = false) by (apply Z.eqb_neq; lia).
  assert (H62 : 2 ^ 62 = 4611686018427387904) by done.
  assert (H63 : 2 ^ 63 = 9223372036854775808) by done.
  rewrite E1. cbn [mbind result_bind].
  rewrite Z.quot_div_nonneg by lia. fold (stepsOf tw d).
  rewrite (wrap64_small (stepsOf tw d)) by lia.
  rewrite E2. cbn [mbind result_bind].
  rewrite Z.quot_div_nonneg by lia.
  assert (0 <= stepsOf tw d / slotNum tw <= stepsOf tw d).
  { split; [apply Z.div_pos; lia|]. apply Z.div_le_upper_bound; nia. }
  rewrite (wrap64_small (currentPos tw + stepsOf tw d)) by lia.
  rewrite Z.rem_mod_nonneg by lia.
  rewrite (wrap64_small (stepsOf tw d / slotNum tw)) by lia.
  reflexivity.
Qed.

Lemma getPositionAndCircle_sub_second tw d :
  0 < interval tw < Second -> getPositionAndCircle tw d = Panic DivideByZero.
Proof.
  intros Hi. unfold getPositionAndCircle, go_div.
  change (int_of_float64 (Seconds (interval tw))) with (wholeSeconds (interval tw)).
  rewrite wholeSeconds_sub_second by lia. reflexivity.
Qed.

(** *** Slots and lists *)

Lemma index_slot_Ok tw pos s :
  index_slot tw pos = Ok s -> 0 <= pos /\ slots tw !! Z.to_nat pos = Some s.
Proof.
  unfold index_slot. destruct (Z.ltb_spec pos 0); [done|].
  destruct (slots tw !! Z.to_nat pos) eqn:E; [|done]. intros [= ->]. done.
Qed.

Lemma index_slot_in_range tw pos :
  wheel_ok tw -> 0 <= pos < slotNum tw ->
  exists l, index_slot tw pos = Ok (Some l) /\ slots tw !! Z.to_nat pos = Some (Some l).
Proof.
  intros Hok Hpos. unfold index_slot.
  destruct (Z.ltb_spec pos 0); [lia|].
  destruct (lookup_lt_is_Some_2 (slots tw) (Z.to_nat pos)) as [s Hs].
  { rewrite (ok_length tw Hok). lia. }
  rewrite Hs. destruct (ok_lists tw Hok _ _ Hs) as [l ->]. eauto.
Qed.

Lemma slots_lookup_set_slot tw p q l :
  (p < length (slots tw))%nat ->
  slots (set_slot tw p l) !! q = if decide (p = q) then Some (Some l) else slots tw !! q.
Proof.
  intros Hp. cbn. destruct (decide (p = q)) as [<-|Hne].
  - by rewrite list_lookup_insert_eq.
  - by rewrite list_lookup_insert_ne.
Qed.

Lemma wheel_ok_slots tw tw' :
  wheel_ok tw -> slotNum tw' = slotNum tw -> currentPos tw' = currentPos tw ->
  length (slots tw') = length (slots tw) ->
  (forall p s, slots tw' !! p = Some s -> is_Some s) ->
  wheel_ok tw'.
Proof.
  intros [H1 H2 H3 H4] En Ec El Hs.
  split; rewrite ?En, ?Ec, ?El; done.
Qed.

Lemma wheel_ok_set_slot tw p l : wheel_ok tw -> wheel_ok (set_slot tw p l).
Proof.
  intros Hok. apply (wheel_ok_slots tw); [done..| |].
  - cbn. by rewrite length_insert.
  - cbn. intros q s Hq. destruct (decide (p = q)) as [<-|Hne].
    + apply list_lookup_insert_Some in Hq as [(_ & <- & _)|(? & _)]; [eauto|done].
    + rewrite list_lookup_insert_ne in Hq by done. by eapply ok_lists.
Qed.

Lemma wheel_ok_set_timer tw m : wheel_ok tw -> wheel_ok (set_timer tw m).
Proof. intros Hok. apply (wheel_ok_slots tw); [done..|]. apply Hok. Qed.

Lemma wheel_ok_drop_item tw p i l t : wheel_ok tw -> wheel_ok (drop_item tw p i l t).
Proof. intros Hok. by apply wheel_ok_set_timer, wheel_ok_set_slot. Qed.

Lemma keys_delete l i t :
  NoDup (task_key <$> l) -> l !! i = Some t ->
  NoDup (task_key <$> delete i l) /\
  (forall t', t' ∈ delete i l -> task_key t' <> task_key t) /\
  (forall t', t' ∈ l -> task_key t' <> task_key t -> t' ∈ delete i l).
Proof.
  intros Hnd Hi. pose proof (delete_Permutation l i t Hi) as Hp.
  assert (Hnd' : NoDup (task_key t :: (task_key <$> delete i l))).
  { rewrite <- fmap_cons. by rewrite <- Hp. }
  apply NoDup_cons in Hnd' as [Hni Hnd']. split; [done|]. split.
  - intros t' Ht' Heq. apply Hni. rewrite <- Heq. by apply list_elem_of_fmap_2.
  - intros t' Ht' Hne. rewrite Hp in Ht'. apply elem_of_cons in Ht' as [->|]; done.
Qed.

(** *** The registry follows the slots *)

Lemma registry_ok_append tw p l t :
  registry_ok tw -> slots tw !! p = Some (Some l) ->
  timer tw !! task_key t = None ->
  registry_ok (set_timer (set_slot tw p (l ++ [t]))
                 (<[task_key t := Z.of_nat p]> (timer tw))).
Proof.
  intros [R1 R2 R3] Hp Hfresh.
  assert (Hlt : (p < length (slots tw))%nat) by (by eapply lookup_lt_Some).
  assert (Hnew : forall t', t' ∈ l -> task_key t' <> task_key t).
  { intros t' Ht' Heq. specialize (R1 p l t' Hp Ht'). congruence. }
  split; cbn [slots timer set_timer].
  - intros q l' t' Hq Ht'.
    rewrite slots_lookup_set_slot in Hq by done.
    destruct (decide (p = q)) as [<-|Hne].
    + injection Hq as <-. apply elem_of_app in Ht' as [Ht'|Ht'].
      * rewrite lookup_insert_ne by (intros E; by apply (Hnew t')). by eapply R1.
      * apply list_elem_of_singleton in Ht' as ->. by rewrite lookup_insert_eq.
    + rewrite lookup_insert_ne; [by eapply R1|].
      intros E. specialize (R1 q l' t' Hq Ht'). congruence.
  - intros k z Hk.
    destruct (decide (task_key t = k)) as [<-|Hne].
    + rewrite lookup_insert_eq in Hk. injection Hk as <-.
      exists p, (l ++ [t]), t. rewrite slots_lookup_set_slot by done.
      rewrite decide_True by done. split_and!; [done..| |done].
      apply elem_of_app. right. by apply list_elem_of_singleton.
    + rewrite lookup_insert_ne in Hk by done.
      destruct (R2 k z Hk) as (q & l' & t' & -> & Hq & Ht' & Hkey).
      destruct (decide (p = q)) as [<-|Hpq].
      * exists p, (l ++ [t]), t'. rewrite slots_lookup_set_slot by done.
        rewrite decide_True by done. split_and!; [done..| |done].
        apply elem_of_app. left. congruence.
      * exists q, l', t'. rewrite slots_lookup_set_slot by done.
        by rewrite decide_False by done.
  - intros q l' Hq. rewrite slots_lookup_set_slot in Hq by done.
    destruct (decide (p = q)) as [<-|Hne]; [|by eapply R3].
    injection Hq as <-. rewrite fmap_app. apply NoDup_app. split_and!.
    + by eapply R3.
    + intros k Hk Hk'. apply list_elem_of_fmap in Hk as (t' & -> & Ht').
      apply list_elem_of_singleton in Hk'. by apply (Hnew t').
    + apply NoDup_singleton.
Qed.

Lemma registry_ok_drop_item tw p i l t :
  registry_ok tw -> slots tw !! p = Some (Some l) -> l !! i = Some t ->
  registry_ok (drop_item tw p i l t).
Proof.
  intros [R1 R2 R3] Hp Hi.
  assert (Hlt : (p < length (slots tw))%nat) by (by eapply lookup_lt_Some).
  destruct (keys_delete l i t (R3 p l Hp) Hi) as (Hnd & Hne & Hin).
  assert (Ht : t ∈ l) by (by eapply list_elem_of_lookup_2).
  split; unfold drop_item; cbn [slots timer set_timer].
  - intros q l' t' Hq Ht'.
    rewrite slots_lookup_set_slot in Hq by done.
    destruct (decide (p = q)) as [<-|Hpq].
    + injection Hq as <-. rewrite lookup_delete_ne by (intros E; by apply (Hne t')).
      eapply R1; [done|]. by eapply list_elem_of_delete_inv.
    + rewrite lookup_delete_ne; [by eapply R1|].
      intros E. pose proof (R1 q l' t' Hq Ht') as E1.
      pose proof (R1 p l t Hp Ht) as E2. rewrite <- E, E2 in E1.
      injection E1 as E1. lia.
  - intros k z Hk.
    destruct (decide (task_key t = k)) as [<-|Hkn];
      [by rewrite lookup_delete_eq in Hk|].
    rewrite lookup_delete_ne in Hk by done.
    destruct (R2 k z Hk) as (q & l' & t' & -> & Hq & Ht' & Hkey).
    destruct (decide (p = q)) as [<-|Hpq].
    + exists p, (delete i l), t'. rewrite slots_lookup_set_slot by done.
      rewrite decide_True by done. split_and!; [done..| |done].
      apply Hin; congruence.
    + exists q, l', t'. rewrite slots_lookup_set_slot by done.
      by rewrite decide_False by done.
  - intros q l' Hq. rewrite slots_lookup_set_slot in Hq by done.
    destruct (decide (p = q)) as [<-|Hpq]; [|by eapply R3].
    by injection Hq as <-.
Qed.

Lemma timer_drop_item tw p i l t :
  timer (drop_item tw p i l t) !! task_key t = None.
Proof. unfold drop_item. cbn. apply lookup_delete_eq. Qed.

Lemma registry_ok_same_keys tw p l l' :
  registry_ok tw -> slots tw !! p = Some (Some l) ->
  task_key <$> l' = task_key <$> l ->
  registry_ok (set_slot tw p l').
Proof.
  intros [R1 R2 R3] Hp Hkeys.
  assert (Hlt : (p < length (slots tw))%nat) by (by eapply lookup_lt_Some).
  assert (Hto : forall t', t' ∈ l' -> exists t, t ∈ l /\ task_key t = task_key t').
  { intros t' Ht'. apply (list_elem_of_fmap_2 task_key) in Ht'.
    rewrite Hkeys in Ht'. apply list_elem_of_fmap in Ht' as (t & E & Ht). eauto. }
  assert (Hfrom : forall t, t ∈ l -> exists t', t' ∈ l' /\ task_key t' = task_key t).
  { intros t Ht. apply (list_elem_of_fmap_2 task_key) in Ht.
    rewrite <- Hkeys in Ht. apply list_elem_of_fmap in Ht as (t' & E & Ht'). eauto. }
  split.
  - intros q l0 t' Hq Ht'. rewrite slots_lookup_set_slot in Hq by done.
    destruct (decide (p = q)) as [<-|Hpq]; [|by eapply R1].
    injection Hq as <-. destruct (Hto t' Ht') as (t & Ht & <-). by eapply R1.
  - intros k z Hk. destruct (R2 k z Hk) as (q & l0 & t & -> & Hq & Ht & Hkey).
    destruct (decide (p = q)) as [<-|Hpq].
    + assert (l0 = l) as -> by congruence.
      destruct (Hfrom t Ht) as (t' & Ht' & E).
      exists p, l', t'. rewrite slots_lookup_set_slot by done.
      rewrite decide_True by done. split_and!; [done..|congruence].
    + exists q, l0, t. rewrite slots_lookup_set_slot by done.
      by rewrite decide_False by done.
  - intros q l0 Hq. rewrite slots_lookup_set_slot in Hq by done.
    destruct (decide (p = q)) as [<-|Hpq]; [|by eapply R3].
    injection Hq as <-. rewrite Hkeys. by eapply R3.
Qed.

(** *** What the handlers return *)

Lemma addTask_Ok tw t tw' :
  addTask tw t = Ok tw' ->
  exists pos circle l,
    getPositionAndCircle tw (task_interval t) = Ok (pos, circle) /\
    0 <= pos /\ slots tw !! Z.to_nat pos = Some (Some l) /\
    tw' = set_timer (set_slot tw (Z.to_nat pos) (l ++ [set_circle t circle]))
            (<[task_key t := pos]> (timer tw)).
Proof.
  unfold addTask. destruct (getPositionAndCircle tw (task_interval t)) as [[pos circle]| |];
    cbn [mbind result_bind]; [|done..].
  destruct (index_slot tw pos) as [s| |] eqn:Hs; cbn [mbind result_bind]; [|done..].
  apply index_slot_Ok in Hs as [Hpos Hs]. destruct s as [l|]; [|done].
  intros [= <-]. by exists pos, circle, l.
Qed.

Lemma remove_loop_Some k l l' :
  remove_loop k l = Some l' ->
  exists i t, l !! i = Some t /\ task_key t = k /\ l' = delete i l.
Proof.
  revert l'. induction l as [|t l IH]; intros l'; cbn [remove_loop]; [done|].
  destruct (decide (task_key t = k)) as [E|E].
  - intros [= <-]. by exists 0%nat, t.
  - destruct (remove_loop k l) as [l0|]; [|done]. cbn. intros [= <-].
    destruct (IH l0 eq_refl) as (i & t' & Hi & Hk & ->). by exists (S i), t'.
Qed.

Lemma remove_loop_None k l :
  remove_loop k l = None -> forall t, t ∈ l -> task_key t <> k.
Proof.
  induction l as [|t l IH]; cbn [remove_loop]; [intros _ t Ht; by apply elem_of_nil in Ht|].
  destruct (decide (task_key t = k)) as [E|E]; [done|].
  destruct (remove_loop k l) as [l0|]; [done|]. intros _ t' Ht'.
  apply elem_of_cons in Ht' as [->|Ht']; [done|]. by apply IH.
Qed.

Lemma removeTask_Ok tw k tw' :
  removeTask tw k = Ok tw' ->
  tw' = tw \/
  exists p l i t, timer tw !! k = Some (Z.of_nat p) /\ slots tw !! p = Some (Some l) /\
    l !! i = Some t /\ task_key t = k /\ tw' = drop_item tw p i l t.
Proof.
  unfold removeTask. destruct (timer tw !! k) as [pos|] eqn:Hk; [|intros [= <-]; by left].
  destruct (index_slot tw pos) as [s| |] eqn:Hs; cbn [mbind result_bind]; [|done..].
  apply index_slot_Ok in Hs as [Hpos Hs]. destruct s as [l|]; [|done].
  destruct (remove_loop k l) as [l'|] eqn:Hl; [|intros [= <-]; by left].
  intros [= <-]. right.
  destruct (remove_loop_Some k l l' Hl) as (i & t & Hi & Ht & ->).
  exists (Z.to_nat pos), l, i, t. rewrite Z2Nat.id by done. split_and!; [done..|].
  by subst k.
Qed.

Lemma updateTask_Ok tw u tw' :
  updateTask tw u = Ok tw' ->
  tw' = tw /\ timer tw !! up_key u = None \/
  exists p l, timer tw !! up_key u = Some (Z.of_nat p) /\
    slots tw !! p = Some (Some l) /\ tw' = set_slot tw p (update_loop u l).
Proof.
  unfold updateTask. destruct (timer tw !! up_key u) as [pos|] eqn:Hk;
    [|intros [= <-]; by left].
  destruct (index_slot tw pos) as [s| |] eqn:Hs; cbn [mbind result_bind]; [|done..].
  apply index_slot_Ok in Hs as [Hpos Hs]. destruct s as [l|]; [|done].
  intros [= <-]. right. exists (Z.to_nat pos), l. by rewrite Z2Nat.id.
Qed.

Lemma update_loop_keys u l : task_key <$> update_loop u l = task_key <$> l.
Proof.
  unfold update_loop. rewrite <- list_fmap_compose. apply list_fmap_ext.
  intros i t _. cbn. by destruct (decide _).
Qed.

Lemma scan_item_Ok tw p i log l t st :
  scan_item tw p i log l t = Ok st ->
  (task_times t = 0 /\ st = Continue (drop_item tw p i l t) i log) \/
  (task_times t <> 0 /\ 0 < task_circle t /\
   st = Continue (set_slot tw p (<[i := set_circle t (wrap64 (task_circle t - 1))]> l))
          (S i) log) \/
  (task_times t <> 0 /\ task_circle t <= 0 /\
   exists tw', rearm (drop_item tw p i l t) t = Ok tw' /\
     st = match l !! S i with
          | Some _ => Continue tw' i (log ++ [t])
          | None => Done tw' (log ++ [t])
          end).
Proof.
  unfold scan_item. destruct (Z.eqb_spec (task_times t) 0) as [E0|E0].
  { intros [= <-]. by left. }
  destruct (Z.ltb_spec 0 (task_circle t)) as [Ec|Ec].
  { intros [= <-]. right. by left. }
  intros Hst. right. right. split_and!; [done..|].
  unfold rearm, periodic, rearmed.
  destruct (if (0 <? task_times t) || (task_times t =? -1) then _ else _)
    as [tw'| |]; cbn [mbind result_bind] in Hst; [|done..].
  exists tw'. split; [done|]. destruct (l !! S i); by injection Hst as <-.
Qed.

Lemma rearm_Ok tw t tw' :
  rearm tw t = Ok tw' ->
  (periodic t = true /\ addTask tw (rearmed t) = Ok tw') \/
  (periodic t = false /\ tw' = tw).
Proof.
  unfold rearm. destruct (periodic t); [by left|]. intros [= <-]. by right.
Qed.

Lemma task_key_rearmed t : task_key (rearmed t) = task_key t.
Proof. unfold rearmed. by destruct (0 <? task_times t). Qed.

Lemma scan_loop_S fuel tw p i log l t :
  slots tw !! p = Some (Some l) -> l !! i = Some t ->
  scan_loop (S fuel) tw p i log
  = (st ← scan_item tw p i log l t;
     match st with
     | Continue tw i log => scan_loop fuel tw p i log
     | Done tw log => Ok (tw, log)
     end).
Proof. intros Hp Hi. cbn [scan_loop]. by rewrite Hp, Hi. Qed.

(** A rule for the loop of [scanAddRunTask]: [I] holds between the items,
    [Q] when the loop is left. *)
Lemma scan_loop_rule (I : TimeWheel -> nat -> list task -> Prop)
    (Q : TimeWheel -> list task -> Prop) p :
  (forall tw i log, I tw i log ->
     match slots tw !! p with
     | Some (Some l) => l !! i = None -> Q tw log
     | _ => Q tw log
     end) ->
  (forall tw i log l t st, I tw i log ->
     slots tw !! p = Some (Some l) -> l !! i = Some t ->
     scan_item tw p i log l t = Ok st ->
     match st with
     | Continue tw' i' log' => I tw' i' log'
     | Done tw' log' => Q tw' log'
     end) ->
  forall fuel tw i log tw' log',
    I tw i log -> scan_loop fuel tw p i log = Ok (tw', log') -> Q tw' log'.
Proof.
  intros Hend Hitem fuel. induction fuel as [|fuel IH]; intros tw i log tw' log' HI; [done|].
  cbn [scan_loop]. specialize (Hend tw i log HI).
  destruct (slots tw !! p) as [[l|]|] eqn:Hp; [|by intros [= <- <-]..].
  destruct (l !! i) as [t|] eqn:Hi; [|intros [= <- <-]; by apply Hend].
  destruct (scan_item tw p i log l t) as [st| |] eqn:Hst; cbn [mbind result_bind]; [|done..].
  specialize (Hitem tw i log l t st HI Hp Hi Hst).
  destruct st as [tw1 i1 log1|tw1 log1]; [by apply IH|]. by intros [= <- <-].
Qed.


(** *** The invariant is kept *)

Lemma same_frame_refl tw : same_frame tw tw.
Proof. done. Qed.

Lemma same_frame_trans tw1 tw2 tw3 :
  same_frame tw1 tw2 -> same_frame tw2 tw3 -> same_frame tw1 tw3.
Proof. intros (?&?&?) (?&?&?). split_and!; congruence. Qed.

Lemma inv_drop_item tw p i l t :
  inv tw -> slots tw !! p = Some (Some l) -> l !! i = Some t ->
  inv (drop_item tw p i l t).
Proof.
  intros [Hw Hr] Hp Hi. split; [by apply wheel_ok_drop_item|by apply registry_ok_drop_item].
Qed.

Lemma inv_addTask tw t tw' :
  inv tw -> timer tw !! task_key t = None -> addTask tw t = Ok tw' ->
  inv tw' /\ same_frame tw tw'.
Proof.
  intros [Hw Hr] Hfresh Hadd.
  destruct (addTask_Ok tw t tw' Hadd) as (pos & circle & l & _ & Hpos & Hl & ->).
  split; [|done]. split.
  - by apply wheel_ok_set_timer, wheel_ok_set_slot.
  - rewrite <- (Z2Nat.id pos) at 2 by done.
    by apply (registry_ok_append tw (Z.to_nat pos) l (set_circle t circle)).
Qed.

Lemma inv_rearm tw t tw' :
  inv tw -> timer tw !! task_key t = None -> rearm tw t = Ok tw' ->
  inv tw' /\ same_frame tw tw'.
Proof.
  intros Hinv Hfresh Hre. destruct (rearm_Ok tw t tw' Hre) as [[_ Hadd]|[_ ->]]; [|done].
  apply (inv_addTask tw (rearmed t)); [done| |done]. by rewrite task_key_rearmed.
Qed.

Lemma inv_same_keys tw p l l' :
  inv tw -> slots tw !! p = Some (Some l) -> task_key <$> l' = task_key <$> l ->
  inv (set_slot tw p l').
Proof.
  intros [Hw Hr] Hp Hk. split; [by apply wheel_ok_set_slot|by eapply registry_ok_same_keys].
Qed.

Lemma keys_insert_same l i t t' :
  l !! i = Some t -> task_key t' = task_key t ->
  task_key <$> <[i := t']> l = task_key <$> l.
Proof.
  intros Hi Hk. rewrite list_fmap_insert, Hk. apply list_insert_id.
  by rewrite list_lookup_fmap, Hi.
Qed.

Lemma inv_updateTask tw u tw' :
  inv tw -> updateTask tw u = Ok tw' -> inv tw' /\ same_frame tw tw'.
Proof.
  intros Hinv Hup.
  destruct (updateTask_Ok tw u tw' Hup) as [[-> _]|(p & l & _ & Hp & ->)]; [done|].
  split; [|done]. eapply inv_same_keys; [done..|]. apply update_loop_keys.
Qed.

Lemma inv_removeTask tw k tw' :
  inv tw -> removeTask tw k = Ok tw' -> inv tw' /\ same_frame tw tw'.
Proof.
  intros Hinv Hrm.
  destruct (removeTask_Ok tw k tw' Hrm) as [->|(p & l & i & t & _ & Hp & Hi & _ & ->)];
    [done|].
  split; [|done]. by apply inv_drop_item.
Qed.

Lemma inv_scan_item tw p i log l t st :
  inv tw -> slots tw !! p = Some (Some l) -> l !! i = Some t ->
  scan_item tw p i log l t = Ok st ->
  match st with
  | Continue tw' _ _ | Done tw' _ => inv tw' /\ same_frame tw tw'
  end.
Proof.
  intros Hinv Hp Hi Hst.
  destruct (scan_item_Ok _ _ _ _ _ _ _ Hst)
    as [[_ ->]|[(_ & _ & ->)|(_ & _ & tw' & Hre & ->)]].
  - split; [by apply inv_drop_item|done].
  - split; [|done]. eapply inv_same_keys; [done..|]. by eapply keys_insert_same.
  - assert (inv tw' /\ same_frame tw tw') as Hres.
    { destruct (inv_rearm (drop_item tw p i l t) t tw') as [? ?];
        [by apply inv_drop_item|apply timer_drop_item|done|]. done. }
    by destruct (l !! S i).
Qed.

Lemma inv_scan_loop fuel tw p i log tw' log' :
  inv tw -> scan_loop fuel tw p i log = Ok (tw', log') ->
  inv tw' /\ same_frame tw tw'.
Proof.
  intros Hinv.
  apply (scan_loop_rule (fun tw1 _ _ => inv tw1 /\ same_frame tw tw1)
           (fun tw1 _ => inv tw1 /\ same_frame tw tw1)); [| |done].
  - intros tw1 i1 log1 HI. by destruct (slots tw1 !! p) as [[?|]|].
  - intros tw1 i1 log1 l t st [Hinv1 Hf1] Hp Hi Hst.
    pose proof (inv_scan_item _ _ _ _ _ _ _ Hinv1 Hp Hi Hst) as Hres.
    destruct st; destruct Hres; split; eauto using same_frame_trans.
Qed.

Lemma inv_scanAddRunTask fuel tw p tw' log' :
  inv tw -> scanAddRunTask fuel tw p = Ok (tw', log') ->
  inv tw' /\ same_frame tw tw'.
Proof.
  intros Hinv. unfold scanAddRunTask.
  destruct (slots tw !! p) as [[l|]|]; [by apply inv_scan_loop| |by apply inv_scan_loop].
  by intros [= <- <-].
Qed.

Lemma tickHandler_Ok fuel tw tw' log :
  tickHandler fuel tw = Ok (tw', log) ->
  exists tw1, scanAddRunTask fuel tw (Z.to_nat (currentPos tw)) = Ok (tw1, log) /\
    tw' = set_currentPos tw1
            (if currentPos tw1 =? wrap64 (slotNum tw1 - 1) then 0
             else wrap64 (currentPos tw1 + 1)).
Proof.
  unfold tickHandler.
  destruct (index_slot tw (currentPos tw)); cbn [mbind result_bind]; [|done..].
  destruct (scanAddRunTask fuel tw (Z.to_nat (currentPos tw))) as [[tw1 log1]| |];
    cbn [mbind result_bind]; [|done..].
  intros Hres. exists tw1. destruct (currentPos tw1 =? wrap64 (slotNum tw1 - 1));
    by injection Hres as <- <-.
Qed.

(** The cursor after a tick: one slot further, around the wheel. *)
Lemma inv_tickHandler fuel tw tw' log :
  inv tw -> tickHandler fuel tw = Ok (tw', log) ->
  inv tw' /\ interval tw' = interval tw /\ slotNum tw' = slotNum tw /\
  currentPos tw' = (currentPos tw + 1) mod slotNum tw.
Proof.
  intros Hinv Htick. destruct (tickHandler_Ok _ _ _ _ Htick) as (tw1 & Hscan & ->).
  destruct (inv_scanAddRunTask _ _ _ _ _ Hinv Hscan) as [[Hw1 Hr1] (Ei & En & Ec)].
  pose proof (ok_slotNum tw1 Hw1) as Hn. pose proof (ok_pos tw1 Hw1) as Hc.
  rewrite (wrap64_small (slotNum tw1 - 1)), (wrap64_small (currentPos tw1 + 1)) by lia.
  assert (Hcur : (if currentPos tw1 =? slotNum tw1 - 1 then 0 else currentPos tw1 + 1)
                 = (currentPos tw + 1) mod slotNum tw).
  { rewrite <- Ec, <- En. destruct (Z.eqb_spec (currentPos tw1) (slotNum tw1 - 1)) as [E|E].
    - rewrite E. replace (slotNum tw1 - 1 + 1) with (slotNum tw1) by lia.
      by rewrite Z.mod_same by lia.
    - rewrite Z.mod_small; lia. }
  rewrite Hcur. split_and!; [|done..]. split.
  - destruct Hw1 as [W1 W2 W3 W4]. split; cbn; [done..|].
    rewrite <- En. apply Z.mod_pos_bound. lia.
  - destruct Hr1 as [R1 R2 R3]. split; cbn; eauto.
Qed.

Lemma init_slots_fold (n m : nat) :
  (m <= n)%nat ->
  foldl (fun (s : list (option (list task))) i => <[i := Some []]> s)
    (replicate n None) (seq 0 m)
  = replicate m (Some []) ++ replicate (n - m) None.
Proof.
  induction m as [|m IH]; intros Hm.
  - cbn. by rewrite Nat.sub_0_r.
  - rewrite seq_S, foldl_app, IH by lia. cbn [foldl Nat.add].
    replace (n - m)%nat with (S (n - S m)) by lia.
    rewrite insert_app_r_alt by (by rewrite length_replicate).
    rewrite length_replicate, Nat.sub_diag, (replicate_S_end m), <- app_assoc.
    reflexivity.
Qed.

Lemma New_Some interval slotNum tw :
  New interval slotNum = Some tw ->
  0 < interval /\ 0 < slotNum /\
  tw = mkTimeWheel interval (replicate (Z.to_nat slotNum) (Some [])) ∅ 0 slotNum.
Proof.
  unfold New. destruct (Z.leb_spec interval 0); [done|].
  destruct (Z.leb_spec slotNum 0); [done|]. cbn [orb]. intros [= <-].
  split_and!; [done..|]. unfold init, set_slots. cbn.
  rewrite init_slots_fold by done. by rewrite Nat.sub_diag, app_nil_r.
Qed.

Lemma inv_New interval slotNum tw :
  slotNum <= maxInt -> New interval slotNum = Some tw -> inv tw.
Proof.
  intros Hmax HNew. destruct (New_Some _ _ _ HNew) as (Hi & Hn & ->).
  unfold maxInt in Hmax. split; split; cbn.
  - lia.
  - by rewrite length_replicate.
  - intros p s Hp. apply lookup_replicate in Hp as [-> _]. eauto.
  - lia.
  - intros p l t Hp Ht. apply lookup_replicate in Hp as [Hl _].
    injection Hl as ->. by apply elem_of_nil in Ht.
  - intros k z Hk. by rewrite lookup_empty in Hk.
  - intros p l Hp. apply lookup_replicate in Hp as [Hl _].
    injection Hl as ->. cbn. apply NoDup_nil_2.
Qed.

Lemma inv_step tw ev tw' log :
  inv tw -> step tw ev tw' log ->
  inv tw' /\ interval tw' = interval tw /\ slotNum tw' = slotNum tw.
Proof.
  intros Hinv Hstep. destruct Hstep as [fuel tw tw' log Ht|tw t tw' Hf Ha|tw u tw' Hu|tw k tw' Hr].
  - destruct (inv_tickHandler _ _ _ _ Hinv Ht) as (? & ? & ? & _). done.
  - destruct (inv_addTask _ _ _ Hinv Hf Ha) as [? (? & ? & _)]. done.
  - destruct (inv_updateTask _ _ _ Hinv Hu) as [? (? & ? & _)]. done.
  - destruct (inv_removeTask _ _ _ Hinv Hr) as [? (? & ? & _)]. done.
Qed.

Lemma inv_steps tw evs tw' log :
  inv tw -> steps tw evs tw' log ->
  inv tw' /\ interval tw' = interval tw /\ slotNum tw' = slotNum tw.
Proof.
  intros Hinv Hsteps. induction Hsteps as [tw|tw ev tw1 log1 evs tw2 log2 Hstep _ IH]; [done|].
  destruct (inv_step _ _ _ _ Hinv Hstep) as (Hinv1 & Ei & En).
  destruct (IH Hinv1) as (? & ? & ?). split_and!; [done|congruence..].
Qed.

Lemma inv_reachable tw : reachable tw -> inv tw.
Proof.
  intros (interval & slotNum & tw0 & evs & log & _ & Hn & HNew & Hsteps).
  by apply (inv_steps tw0 evs tw log); [eapply inv_New|].
Qed.

Lemma with_key_none k l :
  (forall t, t ∈ l -> task_key t <> k) -> with_key k l = [].
Proof.
  unfold with_key. induction l as [|t l IH]; intros Hl; [done|].
  rewrite filter_cons, decide_False by (apply Hl; left).
  apply IH. intros t' Ht'. apply Hl. by right.
Qed.

Lemma with_key_unique l t :
  NoDup (task_key <$> l) -> t ∈ l -> with_key (task_key t) l = [t].
Proof.
  unfold with_key. induction l as [|t' l IH]; intros Hnd Ht; [by apply elem_of_nil in Ht|].
  rewrite fmap_cons in Hnd. apply NoDup_cons in Hnd as [Hni Hnd].
  rewrite filter_cons. apply elem_of_cons in Ht as [->|Ht].
  - rewrite decide_True by done. f_equal.
    apply with_key_none. intros t0 Ht0 E. apply Hni. rewrite <- E.
    by apply list_elem_of_fmap_2.
  - rewrite decide_False; [by apply IH|].
    intros E. apply Hni. rewrite E. by apply list_elem_of_fmap_2.
Qed.

(** *** A key that is not registered *)

Lemma dispatches_app k log log' :
  dispatches k (log ++ log') = (dispatches k log + dispatches k log')%nat.
Proof. unfold dispatches, with_key. by rewrite filter_app, length_app. Qed.

Lemma dispatches_other k log t :
  task_key t <> k -> dispatches k (log ++ [t]) = dispatches k log.
Proof.
  intros Hne. rewrite dispatches_app. unfold dispatches at 2, with_key.
  rewrite filter_cons, decide_False by done. cbn. lia.
Qed.

Lemma dispatches_same log t :
  dispatches (task_key t) (log ++ [t]) = S (dispatches (task_key t) log).
Proof.
  rewrite dispatches_app. unfold dispatches at 2, with_key.
  rewrite filter_cons, decide_True by done. cbn. lia.
Qed.

Lemma not_registered_absent tw k :
  registry_ok tw -> timer tw !! k = None -> absent k tw.
Proof.
  intros Hr Hk p l t Hp Ht E. pose proof (reg_of_task tw Hr p l t Hp Ht) as Ht'.
  congruence.
Qed.

Lemma timer_addTask tw t tw' k :
  addTask tw t = Ok tw' -> task_key t <> k -> timer tw' !! k = timer tw !! k.
Proof.
  intros Hadd Hne. destruct (addTask_Ok _ _ _ Hadd) as (pos & c & l & _ & _ & _ & ->).
  cbn. by rewrite lookup_insert_ne.
Qed.

Lemma timer_rearm tw t tw' k :
  rearm tw t = Ok tw' -> task_key t <> k -> timer tw' !! k = timer tw !! k.
Proof.
  intros Hre Hne. destruct (rearm_Ok _ _ _ Hre) as [[_ Hadd]|[_ ->]]; [|done].
  eapply timer_addTask; [done|]. by rewrite task_key_rearmed.
Qed.

Lemma scan_item_not_registered tw p i log l t st k :
  inv tw -> slots tw !! p = Some (Some l) -> l !! i = Some t ->
  timer tw !! k = None -> scan_item tw p i log l t = Ok st ->
  match st with
  | Continue tw' _ log' | Done tw' log' =>
      timer tw' !! k = None /\ dispatches k log' = dispatches k log
  end.
Proof.
  intros [Hw Hr] Hp Hi Hk Hst.
  assert (Hne : task_key t <> k).
  { intros E. pose proof (reg_of_task tw Hr p l t Hp) as Ht.
    rewrite E, Hk in Ht. by specialize (Ht (list_elem_of_lookup_2 _ _ _ Hi)). }
  assert (Hdrop : timer (drop_item tw p i l t) !! k = None).
  { unfold drop_item. cbn. by rewrite lookup_delete_ne. }
  destruct (scan_item_Ok _ _ _ _ _ _ _ Hst)
    as [[_ ->]|[(_ & _ & ->)|(_ & _ & tw' & Hre & ->)]]; [done..|].
  assert (timer tw' !! k = None /\ dispatches k (log ++ [t]) = dispatches k log).
  { split; [|by apply dispatches_other]. by rewrite (timer_rearm _ _ _ _ Hre Hne). }
  by destruct (l !! S i).
Qed.

Lemma scan_loop_not_registered fuel tw p i log tw' log' k :
  inv tw -> timer tw !! k = None -> scan_loop fuel tw p i log = Ok (tw', log') ->
  timer tw' !! k = None /\ dispatches k log' = dispatches k log.
Proof.
  intros Hinv Hk.
  apply (scan_loop_rule
           (fun tw1 _ log1 => inv tw1 /\ timer tw1 !! k = None /\
                              dispatches k log1 = dispatches k log)
           (fun tw1 log1 => timer tw1 !! k = None /\
                            dispatches k log1 = dispatches k log)); [| |done].
  - intros tw1 i1 log1 (_ & ? & ?). by destruct (slots tw1 !! p) as [[?|]|].
  - intros tw1 i1 log1 l t st (Hinv1 & Hk1 & Hd1) Hp Hi Hst.
    pose proof (inv_scan_item _ _ _ _ _ _ _ Hinv1 Hp Hi Hst) as Hres.
    pose proof (scan_item_not_registered _ _ _ _ _ _ _ k Hinv1 Hp Hi Hk1 Hst) as Hres'.
    destruct st; destruct Hres, Hres'; split_and?; congruence.
Qed.

Lemma tickHandler_not_registered fuel tw tw' log k :
  inv tw -> timer tw !! k = None -> tickHandler fuel tw = Ok (tw', log) ->
  timer tw' !! k = None /\ dispatches k log = 0%nat.
Proof.
  intros Hinv Hk Htick. destruct (tickHandler_Ok _ _ _ _ Htick) as (tw1 & Hscan & ->).
  cbn [timer set_currentPos]. unfold scanAddRunTask in Hscan.
  destruct (slots tw !! Z.to_nat (currentPos tw)) as [[l|]|] eqn:Hp.
  - by apply (scan_loop_not_registered _ _ _ _ _ _ _ k Hinv Hk Hscan).
  - by injection Hscan as <- <-.
  - by apply (scan_loop_not_registered _ _ _ _ _ _ _ k Hinv Hk Hscan).
Qed.

Lemma step_not_registered tw ev tw' log k :
  inv tw -> timer tw !! k = None -> event_key ev <> Some k -> step tw ev tw' log ->
  timer tw' !! k = None /\ dispatches k log = 0%nat.
Proof.
  intros Hinv Hk Hev Hstep.
  destruct Hstep as [fuel tw tw' log Ht|tw t tw' Hf Ha|tw u tw' Hu|tw k' tw' Hr].
  - by eapply tickHandler_not_registered.
  - split; [|done]. rewrite (timer_addTask _ _ _ k Ha); [done|]. cbn in Hev. congruence.
  - split; [|done].
    destruct (updateTask_Ok _ _ _ Hu) as [[-> _]|(p & l & _ & _ & ->)]; done.
  - split; [|done].
    destruct (removeTask_Ok _ _ _ Hr) as [->|(p & l & i & t & _ & _ & _ & E & ->)]; [done|].
    unfold drop_item. cbn. rewrite lookup_delete_ne; [done|]. cbn in Hev. congruence.
Qed.

Lemma steps_not_registered tw evs tw' log k :
  inv tw -> timer tw !! k = None ->
  (forall ev, ev ∈ evs -> event_key ev <> Some k) ->
  steps tw evs tw' log ->
  timer tw' !! k = None /\ dispatches k log = 0%nat.
Proof.
  intros Hinv Hk Hevs Hsteps.
  induction Hsteps as [tw|tw ev tw1 log1 evs tw2 log2 Hstep _ IH]; [done|].
  destruct (step_not_registered tw ev tw1 log1 k) as [Hk1 Hd1]; [done..|apply Hevs; left|done|].
  destruct (inv_step _ _ _ _ Hinv Hstep) as (Hinv1 & _).
  destruct IH as [Hk2 Hd2]; [done..| |].
  { intros ev' Hev'. apply Hevs. by right. }
  split; [done|]. rewrite dispatches_app. lia.
Qed.

Lemma removeTask_not_registered tw k tw' :
  inv tw -> removeTask tw k = Ok tw' -> timer tw' !! k = None.
Proof.
  intros [Hw Hr] Hrm. unfold removeTask in Hrm.
  destruct (timer tw !! k) as [pos|] eqn:Hk; [|by injection Hrm as <-].
  destruct (reg_has_task tw Hr k pos Hk) as (p & l & t & -> & Hp & Ht & Hkey).
  unfold index_slot in Hrm. destruct (Z.ltb_spec (Z.of_nat p) 0); [lia|].
  rewrite Nat2Z.id, Hp in Hrm. cbn [mbind result_bind] in Hrm.
  destruct (remove_loop k l) as [l'|] eqn:Hl.
  - injection Hrm as <-. cbn. apply lookup_delete_eq.
  - by destruct (remove_loop_None k l Hl t Ht).
Qed.

(** *** Where a task is *)

Lemma task_at_unique tw p j t p' j' t' :
  registry_ok tw -> task_at tw p j t -> task_at tw p' j' t' ->
  task_key t = task_key t' -> p = p' /\ j = j' /\ t = t'.
Proof.
  intros Hr (l & Hp & Hj) (l' & Hp' & Hj') Hk.
  pose proof (reg_of_task tw Hr p l t Hp (list_elem_of_lookup_2 _ _ _ Hj)) as E1.
  pose proof (reg_of_task tw Hr p' l' t' Hp' (list_elem_of_lookup_2 _ _ _ Hj')) as E2.
  rewrite Hk, E2 in E1. injection E1 as E1. apply Nat2Z.inj in E1 as ->.
  assert (l' = l) as -> by congruence.
  assert (j = j') as ->.
  { apply (NoDup_lookup (task_key <$> l) j j' (task_key t)).
    - by eapply reg_nodup.
    - by rewrite list_lookup_fmap, Hj.
    - by rewrite list_lookup_fmap, Hj', Hk. }
  split_and!; [done..|congruence].
Qed.

Lemma task_at_registered tw p j t :
  registry_ok tw -> task_at tw p j t -> timer tw !! task_key t = Some (Z.of_nat p).
Proof.
  intros Hr (l & Hp & Hj). eapply reg_of_task; [done..|]. by eapply list_elem_of_lookup_2.
Qed.

Lemma task_at_drop_item tw p i l t0 q j t :
  slots tw !! p = Some (Some l) -> task_at tw q j t -> (q <> p \/ j <> i) ->
  task_at (drop_item tw p i l t0) q (if decide (q = p /\ (i < j)%nat) then pred j else j) t.
Proof.
  intros Hp (l' & Hq & Hj) Hne.
  assert (Hlt : (p < length (slots tw))%nat) by (by eapply lookup_lt_Some).
  unfold task_at, drop_item. cbn [slots set_timer].
  rewrite slots_lookup_set_slot by done.
  destruct (decide (p = q)) as [<-|Hpq].
  - assert (l' = l) as -> by congruence. exists (delete i l). split; [done|].
    destruct (decide (p = p /\ (i < j)%nat)) as [[_ Hij]|Hn].
    + rewrite list_lookup_delete_ge by lia. by replace (S (pred j)) with j by lia.
    + rewrite list_lookup_delete_lt by (destruct Hne; [done|lia]). done.
  - exists l'. split; [done|]. rewrite decide_False by (intros [? _]; congruence). done.
Qed.

Lemma task_at_append tw p l t1 m q j t :
  slots tw !! p = Some (Some l) -> task_at tw q j t ->
  task_at (set_timer (set_slot tw p (l ++ [t1])) m) q j t.
Proof.
  intros Hp (l' & Hq & Hj).
  assert (Hlt : (p < length (slots tw))%nat) by (by eapply lookup_lt_Some).
  unfold task_at. cbn [slots set_timer]. rewrite slots_lookup_set_slot by done.
  destruct (decide (p = q)) as [<-|Hpq]; [|by exists l'].
  assert (l' = l) as -> by congruence. exists (l ++ [t1]). split; [done|].
  by apply lookup_app_l_Some.
Qed.

Lemma task_at_appended tw p l t1 m :
  slots tw !! p = Some (Some l) ->
  task_at (set_timer (set_slot tw p (l ++ [t1])) m) p (length l) t1.
Proof.
  intros Hp.
  assert (Hlt : (p < length (slots tw))%nat) by (by eapply lookup_lt_Some).
  exists (l ++ [t1]). cbn [slots set_timer]. rewrite slots_lookup_set_slot by done.
  rewrite decide_True by done. split; [done|].
  rewrite lookup_app_r by done. by rewrite Nat.sub_diag.
Qed.

Lemma task_at_insert tw p l i t1 q j t :
  slots tw !! p = Some (Some l) -> task_at tw q j t -> (q <> p \/ j <> i) ->
  task_at (set_slot tw p (<[i := t1]> l)) q j t.
Proof.
  intros Hp (l' & Hq & Hj) Hne.
  assert (Hlt : (p < length (slots tw))%nat) by (by eapply lookup_lt_Some).
  unfold task_at. rewrite slots_lookup_set_slot by done.
  destruct (decide (p = q)) as [<-|Hpq]; [|by exists l'].
  assert (l' = l) as -> by congruence. exists (<[i := t1]> l). split; [done|].
  rewrite list_lookup_insert_ne; [done|]. destruct Hne; [done|lia].
Qed.

Lemma task_at_inserted tw p l i t0 t1 :
  slots tw !! p = Some (Some l) -> l !! i = Some t0 ->
  task_at (set_slot tw p (<[i := t1]> l)) p i t1.
Proof.
  intros Hp Hi.
  assert (Hlt : (p < length (slots tw))%nat) by (by eapply lookup_lt_Some).
  exists (<[i := t1]> l). rewrite slots_lookup_set_slot by done.
  rewrite decide_True by done. split; [done|].
  apply list_lookup_insert_eq. by eapply lookup_lt_Some.
Qed.

(** *** Following one task through the wheel *)

Lemma mod_pred a m : 0 < m -> a mod m <> 0 -> (a - 1) mod m = a mod m - 1.
Proof.
  intros Hm Hne. pose proof (Z.mod_pos_bound a m Hm) as Hb.
  symmetry. apply (Z.mod_unique _ _ (a / m)); [lia|].
  pose proof (Z.div_mod a m ltac:(lia)). lia.
Qed.

Lemma mod_minus_one m : 0 < m -> (-1) mod m = m - 1.
Proof. intros Hm. symmetry. apply (Z.mod_unique _ _ (-1)); lia. Qed.

Section Tracking.

(** The key and the delay of the task that is followed, and the wheel at
    the beginning of a tick. *)
Variables (k : Key) (d : Z) (tw0 : TimeWheel).
Hypothesis Hslots : slotNum tw0 <= 2 ^ 62.
Hypothesis Hiv : Second <= interval tw0 <= maxDuration.
Hypothesis Hd : 0 <= d <= maxDuration.
Hypothesis Hw0 : wheel_ok tw0.

Local Abbreviation n := (slotNum tw0).
Local Abbreviation s := (stepsOf tw0 d).
Local Abbreviation cur := (currentPos tw0).
Local Abbreviation p0 := (Z.to_nat (currentPos tw0)).

Lemma tracking_facts : 0 < n <= 2 ^ 62 /\ 0 <= s <= 9223372037 /\ 0 <= cur < n /\
  Z.of_nat p0 = cur /\ 0 <= s / n <= s /\ s / n * n <= s.
Proof.
  pose proof (ok_slotNum tw0 Hw0). pose proof (ok_pos tw0 Hw0).
  pose proof (stepsOf_range tw0 d Hiv Hd).
  split_and!; try lia.
  - apply Z.div_pos; lia.
  - apply Z.div_le_upper_bound; nia.
  - pose proof (Z.mul_div_le (stepsOf tw0 d) (slotNum tw0)). lia.
Qed.

Lemma weight_nonneg t : 0 <= task_times t -> 0 <= task_circle t -> 0 <= weight n s t.
Proof.
  intros Ht Hc. destruct tracking_facts as (? & ? & _). unfold weight.
  destruct (task_times t =? 0); [done|]. nia.
Qed.

(** Where [addTask] puts a task with the delay [d] during the tick. *)
Lemma addTask_framed tw t tw' :
  wheel_ok tw -> same_frame tw0 tw -> task_interval t = d ->
  addTask tw t = Ok tw' ->
  exists l, slots tw !! Z.to_nat ((cur + s) mod n) = Some (Some l) /\
    tw' = set_timer (set_slot tw (Z.to_nat ((cur + s) mod n))
                       (l ++ [set_circle t (s / n)]))
            (<[task_key t := (cur + s) mod n]> (timer tw)).
Proof.
  intros Hw (Ei & En & Ec) Hint Hadd.
  destruct tracking_facts as (? & ? & ? & _).
  destruct (addTask_Ok _ _ _ Hadd) as (pos & c & l & Hgp & Hpos & Hl & ->).
  rewrite getPositionAndCircle_ok in Hgp by (rewrite ?Ei, ?En, ?Ec, ?Hint; done).
  unfold stepsOf in Hgp. rewrite Ei, En, Ec, Hint in Hgp.
  fold (stepsOf tw0 d) in Hgp. injection Hgp as <- <-. by exists l.
Qed.

Section Scan.

(** The bound before the tick and the runs left at its beginning. *)
Variables (B r0 : Z).
Hypothesis Hr0 : r0 <= maxInt.

Lemma scan_item_other tw i log l t0 st :
  inv tw -> same_frame tw0 tw ->
  slots tw !! p0 = Some (Some l) -> l !! i = Some t0 ->
  task_key t0 <> k ->
  scan_item tw p0 i log l t0 = Ok st ->
  scanning k d n s cur p0 B tw i (r0 - Z.of_nat (dispatches k log)) ->
  match st with
  | Continue tw' i' log' =>
      scanning k d n s cur p0 B tw' i' (r0 - Z.of_nat (dispatches k log'))
  | Done tw' log' =>
      tracked k d n s (cur + 1) (B - 1) tw' (r0 - Z.of_nat (dispatches k log'))
  end.
Proof.
  intros Hinv Hf Hp Hi Hne Hst Hsc.
  destruct Hsc as [[Hgone Hr]|(p & j & t & Hh & Hstat)].
  { assert (Hk : task_key t0 <> k) by done.
    pose proof (scan_item_not_registered _ _ _ _ _ _ _ k Hinv Hp Hi Hgone Hst) as Hres.
    destruct st as [tw' i' log'|tw' log']; destruct Hres as [Hk' Hd'];
      left; rewrite Hd'; done. }
  destruct Hh as (Hat & Hkey & Hint & Hr & Htimes & Hcirc1 & Hcirc2).
  assert (Hh : holds_task k d n s (r0 - Z.of_nat (dispatches k log)) tw p j t)
    by (unfold holds_task; done).
  assert (Hpj : p <> p0 \/ j <> i).
  { destruct (decide (p = p0)) as [->|]; [|by left]. right. intros ->.
    destruct Hat as (l' & Hp' & Hj'). assert (l' = l) as -> by congruence.
    congruence. }
  assert (Hdrop : task_at (drop_item tw p0 i l t0) p
                    (if decide (p = p0 /\ (i < j)%nat) then pred j else j) t).
  { by apply task_at_drop_item. }
  assert (Hstat' : forall tw' r,
    task_at tw' p (if decide (p = p0 /\ (i < j)%nat) then pred j else j) t ->
    0 <= r -> task_times t = r ->
    scanning k d n s cur p0 B tw' i r).
  { intros tw' r Hat' Hr' Ht'. right.
    exists p, (if decide (p = p0 /\ (i < j)%nat) then pred j else j), t.
    split; [unfold holds_task; done|].
    destruct Hstat as [[Hset Hb]|(-> & Hij & Hb)].
    - left. split; [|done]. destruct Hset as [?|?]; [by left|right].
      destruct (decide _); lia.
    - right. split_and!; [done| |done].
      rewrite decide_True by (split; [done|]; destruct Hpj; [done|lia]). lia. }
  destruct (scan_item_Ok _ _ _ _ _ _ _ Hst)
    as [[_ ->]|[(_ & _ & ->)|(_ & _ & tw' & Hre & ->)]].
  - by apply Hstat'.
  - right. exists p, j, t. split.
    { unfold holds_task. split_and!; [|done..]. by eapply task_at_insert. }
    destruct Hstat as [[Hset Hb]|(-> & Hij & Hb)].
    + left. split; [|done]. destruct Hset; [by left|right; lia].
    + right. split_and!; [done| |done]. destruct Hpj; [done|lia].
  - assert (Hat' : task_at tw' p
                     (if decide (p = p0 /\ (i < j)%nat) then pred j else j) t).
    { destruct (rearm_Ok _ _ _ Hre) as [[_ Hadd]|[_ ->]]; [|done].
      destruct (addTask_Ok _ _ _ Hadd) as (pos & c & l1 & _ & _ & Hl1 & ->).
      by apply task_at_append. }
    destruct (l !! S i) eqn:Hnext; rewrite (dispatches_other k log t0) by done;
      [by apply Hstat'|].
    right. exists p, (if decide (p = p0 /\ (i < j)%nat) then pred j else j), t.
    split; [unfold holds_task; done|].
    destruct Hstat as [[_ Hb]|(-> & Hij & _)]; [done|].
    destruct Hat as (l' & Hp' & Hj'). assert (l' = l) as -> by congruence.
    apply lookup_ge_None in Hnext. apply lookup_lt_Some in Hj'.
    destruct Hpj; [done|lia].
Qed.

Lemma scan_item_self tw i log l t0 st :
  inv tw -> same_frame tw0 tw ->
  slots tw !! p0 = Some (Some l) -> l !! i = Some t0 ->
  task_key t0 = k ->
  scan_item tw p0 i log l t0 = Ok st ->
  scanning k d n s cur p0 B tw i (r0 - Z.of_nat (dispatches k log)) ->
  match st with
  | Continue tw' i' log' =>
      scanning k d n s cur p0 B tw' i' (r0 - Z.of_nat (dispatches k log'))
  | Done tw' log' =>
      tracked k d n s (cur + 1) (B - 1) tw' (r0 - Z.of_nat (dispatches k log'))
  end.
Proof.
  intros [Hw Hr] Hf Hp Hi Hkey Hst Hsc.
  destruct tracking_facts as (Hn & Hs & Hcur & Hp0 & Hsn & Hsn').
  assert (Hat0 : task_at tw p0 i t0) by (by exists l).
  pose proof (task_at_registered tw p0 i t0 Hr Hat0) as Hreg.
  destruct Hsc as [[Hgone _]|(p & j & t & Hh & Hstat)]; [congruence|].
  destruct Hh as (Hat & Hkey' & Hint & Hr' & Htimes & Hcirc).
  destruct (task_at_unique tw p j t p0 i t0 Hr Hat Hat0) as (-> & -> & ->);
    [congruence|].
  destruct Hstat as [[[?|?] _]|(_ & _ & Hb)]; [done|lia|].
  set (r := r0 - Z.of_nat (dispatches k log)) in *.
  assert (Hrmax : r <= maxInt) by lia.
  destruct (scan_item_Ok _ _ _ _ _ _ _ Hst)
    as [[Ht0 ->]|[(Ht0 & Hc0 & ->)|(Ht0 & Hc0 & tw' & Hre & ->)]].
  - left. split; [|lia]. rewrite <- Hkey. apply timer_drop_item.
  - assert (Hwrap : wrap64 (task_circle t0 - 1) = task_circle t0 - 1).
    { apply wrap64_small. assert (0 < 2 ^ 63) by done. lia. }
    rewrite Hwrap. right. exists p0, i, (set_circle t0 (task_circle t0 - 1)).
    split.
    + unfold holds_task. split_and!; [by eapply task_at_inserted|done..|cbn; lia|cbn; lia].
    + left. split; [right; lia|].
      rewrite Hp0. replace (cur - (cur + 1)) with (-1) by lia.
      rewrite mod_minus_one by lia. unfold weight in *. cbn [task_times task_circle set_circle].
      destruct (Z.eqb_spec (task_times t0) 0); [done|]. lia.
  - assert (Hc : task_circle t0 = 0) by lia.
    assert (Hpos : 0 < task_times t0) by lia.
    assert (Hper : periodic t0 = true).
    { unfold periodic. destruct (Z.ltb_spec 0 (task_times t0)); [done|lia]. }
    assert (Hrearmed : rearmed t0 = set_times t0 (task_times t0 - 1)).
    { unfold rearmed. destruct (Z.ltb_spec 0 (task_times t0)); [|lia].
      rewrite wrap64_small; [done|]. unfold maxInt in *. lia. }
    destruct (rearm_Ok _ _ _ Hre) as [[_ Hadd]|[Hper' _]]; [|congruence].
    rewrite Hrearmed in Hadd.
    destruct (addTask_framed (drop_item tw p0 i l t0)
                (set_times t0 (task_times t0 - 1)) tw') as (l1 & Hl1 & ->);
      [by apply wheel_ok_drop_item|done|done|done|].
    set (t1 := set_circle (set_times t0 (task_times t0 - 1)) (s / n)).
    set (pos := (cur + s) mod n) in *.
    assert (Hposr : 0 <= pos < n) by (apply Z.mod_pos_bound; lia).
    assert (Hat1 : task_at
              (set_timer (set_slot (drop_item tw p0 i l t0) (Z.to_nat pos) (l1 ++ [t1]))
                 (<[task_key (set_times t0 (task_times t0 - 1)) := pos]>
                    (timer (drop_item tw p0 i l t0))))
              (Z.to_nat pos) (length l1) t1).
    { by apply task_at_appended. }
    assert (Hdisp : dispatches k (log ++ [t0]) = S (dispatches k log)).
    { rewrite <- Hkey. apply dispatches_same. }
    assert (Hh1 : holds_task k d n s (r0 - Z.of_nat (S (dispatches k log)))
              (set_timer (set_slot (drop_item tw p0 i l t0) (Z.to_nat pos) (l1 ++ [t1]))
                 (<[task_key (set_times t0 (task_times t0 - 1)) := pos]>
                    (timer (drop_item tw p0 i l t0))))
              (Z.to_nat pos) (length l1) t1).
    { unfold holds_task. split_and!; [done|done|done|lia|cbn; lia|cbn; lia|cbn; lia]. }
    assert (Hw1 : weight n s t1 + n <= weight n s t0).
    { unfold weight. cbn [task_times task_circle set_circle set_times t1].
      destruct (Z.eqb_spec (task_times t0) 0); [lia|].
      destruct (Z.eqb_spec (task_times t0 - 1) 0); [nia|]. rewrite Hc. nia. }
    assert (Hmod : (Z.of_nat (Z.to_nat pos) - (cur + 1)) mod n <= n - 1).
    { pose proof (Z.mod_pos_bound (Z.of_nat (Z.to_nat pos) - (cur + 1)) n). lia. }
    destruct (l !! S i) eqn:Hnext; rewrite Hdisp.
    + right. exists (Z.to_nat pos), (length l1), t1. split; [done|].
      destruct (decide (Z.to_nat pos = p0)) as [E|E].
      * right. split_and!; [done| |lia].
        rewrite E in Hl1. unfold drop_item in Hl1. cbn [slots set_timer] in Hl1.
        rewrite slots_lookup_set_slot, decide_True in Hl1
          by (done || by eapply lookup_lt_Some).
        injection Hl1 as <-. rewrite length_delete by done.
        apply lookup_lt_Some in Hnext. lia.
      * left. split; [by left|lia].
    + right. exists (Z.to_nat pos), (length l1), t1. split; [done|].
      pose proof (Z.mod_pos_bound (Z.of_nat (Z.to_nat pos) - (cur + 1)) n). lia.
Qed.

Lemma scan_loop_tracked fuel tw' log' :
  inv tw0 ->
  scanning k d n s cur p0 B tw0 0 r0 ->
  scan_loop fuel tw0 p0 0 [] = Ok (tw', log') ->
  tracked k d n s (cur + 1) (B - 1) tw' (r0 - Z.of_nat (dispatches k log')).
Proof.
  intros Hinv Hsc.
  apply (scan_loop_rule
           (fun tw i log => inv tw /\ same_frame tw0 tw /\
              scanning k d n s cur p0 B tw i (r0 - Z.of_nat (dispatches k log)))
           (fun tw log =>
              tracked k d n s (cur + 1) (B - 1) tw (r0 - Z.of_nat (dispatches k log)))).
  - intros tw i log (_ & _ & [Hg|(p & j & t & Hh & Hstat)]).
    { destruct (slots tw !! p0) as [[l|]|]; by left. }
    assert (Hset : ~ (p = p0 /\ (i <= j)%nat /\ weight n s t + 1 <= B) ->
            tracked k d n s (cur + 1) (B - 1) tw (r0 - Z.of_nat (dispatches k log))).
    { intros Hnp. right. exists p, j, t. split; [done|].
      by destruct Hstat as [[_ ?]|?]. }
    destruct Hh as ((l' & Hp' & Hj') & _).
    destruct (slots tw !! p0) as [[l|]|] eqn:Hp.
    + intros Hend. apply Hset. intros (-> & Hij & _).
      assert (l' = l) as -> by congruence.
      apply lookup_ge_None in Hend. apply lookup_lt_Some in Hj'. lia.
    + apply Hset. intros (-> & _). congruence.
    + apply Hset. intros (-> & _). congruence.
  - intros tw i log l t0 st (Hinv1 & Hf1 & Hsc1) Hp Hi Hst.
    pose proof (inv_scan_item _ _ _ _ _ _ _ Hinv1 Hp Hi Hst) as Hres.
    assert (Hgoal : match st with
      | Continue tw' i' log' =>
          scanning k d n s cur p0 B tw' i' (r0 - Z.of_nat (dispatches k log'))
      | Done tw' log' =>
          tracked k d n s (cur + 1) (B - 1) tw' (r0 - Z.of_nat (dispatches k log'))
      end).
    { destruct (decide (task_key t0 = k)).
      - by eapply scan_item_self.
      - by eapply scan_item_other. }
    destruct st as [tw1 i1 log1|tw1 log1]; [|done].
    destruct Hres. split_and!; eauto using same_frame_trans.
  - split_and!; [done..|]. by rewrite Z.sub_0_r.
Qed.

End Scan.

(** A tick brings the task of [k] one tick closer to the end of its
    runs. *)
Lemma tickHandler_tracked fuel B r tw' log :
  inv tw0 -> r <= maxInt ->
  tracked k d n s cur B tw0 r ->
  tickHandler fuel tw0 = Ok (tw', log) ->
  tracked k d n s (currentPos tw') (B - 1) tw' (r - Z.of_nat (dispatches k log)).
Proof.
  intros Hinv Hr Htr Htick.
  destruct tracking_facts as (Hn & Hs & Hcur & Hp0 & Hsn & Hsn').
  destruct (tickHandler_Ok _ _ _ _ Htick) as (tw1 & Hscan & Htw').
  destruct (inv_tickHandler _ _ _ _ Hinv Htick) as (_ & _ & _ & Hc').
  assert (Hres : tracked k d n s (cur + 1) (B - 1) tw1 (r - Z.of_nat (dispatches k log))).
  { assert (Hsc : scanning k d n s cur p0 B tw0 0 r).
    { destruct Htr as [?|(p & j & t & Hh & Hb)]; [by left|].
      right. exists p, j, t. split; [done|].
      pose proof (Z.mod_pos_bound (Z.of_nat p - cur) n ltac:(lia)).
      destruct (decide (p = p0)) as [->|Hne].
      - right. split_and!; [done|lia|lia].
      - left. split; [by left|].
        replace (Z.of_nat p - (cur + 1)) with (Z.of_nat p - cur - 1) by lia.
        rewrite mod_pred; [lia|lia|].
        destruct Hh as ((l & Hp & _) & _).
        apply lookup_lt_Some in Hp. rewrite (ok_length tw0 Hw0) in Hp.
        intros E. apply Z.mod_divide in E; [|lia]. destruct E as [q E].
        assert (q = 0) by nia. lia. }
    unfold scanAddRunTask in Hscan.
    destruct (slots tw0 !! p0) as [[l|]|] eqn:Hp.
    - by eapply scan_loop_tracked.
    - injection Hscan as <- <-. cbn. rewrite Z.sub_0_r.
      destruct Hsc as [?|(p & j & t & Hh & [[_ Hb]|(-> & _)])]; [by left| |].
      + right. by exists p, j, t.
      + destruct Hh as ((l & Hp' & _) & _). congruence.
    - by eapply scan_loop_tracked. }
  rewrite Hc'.
  destruct Hres as [[Hg ?]|(p & j & t & Hh & Hb)].
  - left. by rewrite Htw'.
  - right. exists p, j, t. split.
    + destruct Hh as ((l & Hp & Hj) & Hrest). split; [|done]. exists l. by rewrite Htw'.
    + by rewrite Zminus_mod_idemp_r.
Qed.

End Tracking.

(** *** The runs of a task *)

Lemma tracks_frame k d B tw tw' r :
  interval tw' = interval tw -> slotNum tw' = slotNum tw ->
  currentPos tw' = currentPos tw ->
  tracked k d (slotNum tw) (stepsOf tw d) (currentPos tw) B tw' r ->
  tracks k d B tw' r.
Proof. intros Ei En Ec Ht. unfold tracks, stepsOf. by rewrite Ei, En, Ec. Qed.

Lemma tracks_tick k d B tw r fuel tw' log :
  inv tw -> slotNum tw <= 2 ^ 62 -> Second <= interval tw <= maxDuration ->
  0 <= d <= maxDuration -> r <= maxInt ->
  tracks k d B tw r -> tickHandler fuel tw = Ok (tw', log) ->
  tracks k d (B - 1) tw' (r - Z.of_nat (dispatches k log)).
Proof.
  intros Hinv Hn Hiv Hd Hr Htr Htick.
  destruct (inv_tickHandler _ _ _ _ Hinv Htick) as (_ & Ei & En & _).
  pose proof (tickHandler_tracked k d tw Hn Hiv Hd (proj1 Hinv) fuel B r tw' log
                Hinv Hr Htr Htick) as Hres.
  unfold tracks, stepsOf. by rewrite Ei, En.
Qed.

Lemma update_loop_other u l j t :
  l !! j = Some t -> task_key t <> up_key u -> update_loop u l !! j = Some t.
Proof.
  intros Hj Hne. unfold update_loop. rewrite list_lookup_fmap, Hj. cbn.
  by rewrite decide_False.
Qed.

Lemma tracks_step_other k d B tw r ev tw' log :
  inv tw -> tracks k d B tw r ->
  event_key ev <> Some k -> ev <> Tick -> step tw ev tw' log ->
  tracks k d B tw' (r - Z.of_nat (dispatches k log)).
Proof.
  intros Hinv Htr Hev Hnt Hstep.
  assert (inv tw' /\ same_frame tw tw' /\ log = []) as (Hinv' & (Ei & En & Ec) & ->).
  { destruct Hstep as [fuel tw tw' log Ht|tw t tw' Hf Ha|tw u tw' Hu|tw k' tw' Hr]; [done|..].
    - destruct (inv_addTask _ _ _ Hinv Hf Ha); done.
    - destruct (inv_updateTask _ _ _ Hinv Hu); done.
    - destruct (inv_removeTask _ _ _ Hinv Hr); done. }
  cbn. rewrite Z.sub_0_r. apply (tracks_frame k d B tw); [done..|].
  destruct Htr as [[Hg Hr]|(p & j & t & Hh & Hb)].
  { left. split; [|done].
    by destruct (step_not_registered tw ev tw' [] k Hinv Hg Hev Hstep). }
  right. destruct Hh as (Hat & Hk & Hrest).
  assert (exists j', task_at tw' p j' t) as [j' Hat'].
  { destruct Hat as (l & Hp & Hj).
    inversion Hstep as [| ? t' ? Hf Ha | ? u ? Hu | ? k' ? Hr ]; subst; [done|..].
    - destruct (addTask_Ok _ _ _ Ha) as (pos & c & l1 & _ & _ & Hl1 & ->).
      exists j. apply task_at_append; [done|]. by exists l.
    - destruct (updateTask_Ok _ _ _ Hu) as [[-> _]|(p' & l' & _ & Hp' & ->)];
        [by exists j, l|].
      exists j. unfold task_at. rewrite slots_lookup_set_slot by (by eapply lookup_lt_Some).
      destruct (decide (p' = p)) as [->|]; [|by exists l].
      assert (l' = l) as -> by congruence. exists (update_loop u l). split; [done|].
      apply update_loop_other; [done|]. cbn in Hev. congruence.
    - destruct (removeTask_Ok _ _ _ Hr) as [->|(p' & l' & i' & t' & _ & Hp' & Hi' & Hk' & ->)];
        [by exists j, l|].
      eexists. apply task_at_drop_item; [done|by exists l|].
      destruct (decide (p = p')) as [->|]; [|by left]. right. intros ->.
      assert (l' = l) as -> by congruence. cbn in Hev. congruence. }
  exists p, j', t. split; [|done]. unfold holds_task. done.
Qed.

Lemma tracks_steps k d B tw r evs tw' log :
  inv tw -> slotNum tw <= 2 ^ 62 -> Second <= interval tw <= maxDuration ->
  0 <= d <= maxDuration -> r <= maxInt ->
  tracks k d B tw r ->
  (forall ev, ev ∈ evs -> event_key ev <> Some k) ->
  steps tw evs tw' log ->
  tracks k d (B - Z.of_nat (ticks evs)) tw' (r - Z.of_nat (dispatches k log)).
Proof.
  intros Hinv Hn Hiv Hd Hr Htr Hevs Hsteps. revert B r Hr Htr.
  induction Hsteps as [tw|tw ev tw1 log1 evs tw2 log2 Hstep _ IH]; intros B r Hr Htr.
  { cbn. by rewrite !Z.sub_0_r. }
  destruct (inv_step _ _ _ _ Hinv Hstep) as (Hinv1 & Ei & En).
  assert (Hev : event_key ev <> Some k) by (apply Hevs; left).
  assert (Hevs' : forall ev', ev' ∈ evs -> event_key ev' <> Some k).
  { intros ev' Hev'. apply Hevs. by right. }
  rewrite dispatches_app, Nat2Z.inj_add.
  replace (r - (Z.of_nat (dispatches k log1) + Z.of_nat (dispatches k log2)))
    with (r - Z.of_nat (dispatches k log1) - Z.of_nat (dispatches k log2)) by lia.
  assert (Hother : ev <> Tick ->
            tracks k d (B - Z.of_nat (ticks (ev :: evs))) tw2
              (r - Z.of_nat (dispatches k log1) - Z.of_nat (dispatches k log2))).
  { intros Hnt. replace (ticks (ev :: evs)) with (ticks evs) by (by destruct ev).
    apply IH.
    - done.
    - by rewrite En.
    - by rewrite Ei.
    - done.
    - lia.
    - by apply (tracks_step_other k d B tw r ev tw1 log1). }
  pose proof Hstep as Hstep'.
  destruct Hstep' as [fuel tw tw1 log1 Ht| | |]; [|by apply Hother..].
  cbn [ticks]. rewrite Nat2Z.inj_succ.
  replace (B - Z.succ (Z.of_nat (ticks evs))) with (B - 1 - Z.of_nat (ticks evs)) by lia.
  apply IH; [done|by rewrite En|by rewrite Ei|done|lia|].
  by apply (tracks_tick k d B tw r fuel tw1 log1).
Qed.

Lemma tracks_armed k d tw t tw' :
  inv tw -> slotNum tw <= 2 ^ 62 -> Second <= interval tw <= maxDuration ->
  0 <= d <= maxDuration ->
  task_key t = k -> task_interval t = d -> 0 <= task_times t ->
  addTask tw t = Ok tw' ->
  tracks k d (task_times t * (stepsOf tw d + slotNum tw) + stepsOf tw d + 1) tw'
    (task_times t).
Proof.
  intros [Hw Hr] Hn Hiv Hd Hk Hint Ht Hadd.
  destruct (tracking_facts d tw Hn Hiv Hd Hw) as (Hn' & Hs & Hcur & _ & Hsn & Hsn').
  destruct (addTask_framed d tw Hn Hiv Hd Hw tw t tw') as (l & Hl & ->); [done..|].
  apply (tracks_frame k d _ tw); [done..|].
  set (n := slotNum tw) in *. set (s := stepsOf tw d) in *. set (cur := currentPos tw) in *.
  set (pos := (cur + s) mod n) in *.
  assert (Hpos : 0 <= pos < n) by (apply Z.mod_pos_bound; lia).
  right. exists (Z.to_nat pos), (length l), (set_circle t (s / n)). split.
  - unfold holds_task. split_and!; [by apply task_at_appended|done..|cbn; lia|cbn; lia].
  - rewrite Z2Nat.id by lia. unfold weight. cbn [task_times task_circle set_circle].
    assert (Hmod : (pos - cur) mod n = s mod n).
    { unfold pos. rewrite Zminus_mod_idemp_l. f_equal. lia. }
    rewrite Hmod. pose proof (Z.div_mod s n ltac:(lia)) as Hdm.
    pose proof (Z.mod_pos_bound s n ltac:(lia)).
    destruct (Z.eqb_spec (task_times t) 0) as [->|]; lia.
Qed.

Lemma tracks_nonneg k d B tw r : tracks k d B tw r -> 0 <= r.
Proof. intros [[_ ->]|(p & j & t & (_ & _ & _ & ? & _) & _)]; lia. Qed.

Lemma tracks_registered k d B tw r z :
  registry_ok tw -> tracks k d B tw r -> timer tw !! k = Some z ->
  exists p l t, z = Z.of_nat p /\ slots tw !! p = Some (Some l) /\ t ∈ l /\
    task_key t = k /\ task_times t = r.
Proof.
  intros Hr [[Hg _]|(p & j & t & (Hat & Hk & _ & _ & Ht & _) & _)] Hz; [congruence|].
  pose proof (task_at_registered tw p j t Hr Hat) as Hreg. rewrite Hk, Hz in Hreg.
  injection Hreg as ->. destruct Hat as (l & Hp & Hj).
  exists p, l, t. split_and!; [done..| |done|done]. by eapply list_elem_of_lookup_2.
Qed.

Lemma tracks_not_registered k d B tw r :
  registry_ok tw -> tracks k d B tw r -> timer tw !! k = None -> r = 0.
Proof.
  intros Hr [[_ ->]|(p & j & t & (Hat & Hk & _) & _)] Hz; [done|].
  pose proof (task_at_registered tw p j t Hr Hat) as Hreg. congruence.
Qed.

Lemma tracks_expired k d B tw r :
  wheel_ok tw -> slotNum tw <= 2 ^ 62 ->
  Second <= interval tw <= maxDuration -> 0 <= d <= maxDuration ->
  tracks k d B tw r -> B <= 0 -> timer tw !! k = None.
Proof.
  intros Hw Hn Hiv Hd [[Hg _]|(p & j & t & (_ & _ & _ & Hr & Ht & Hc) & Hb)] HB; [done|].
  pose proof (weight_nonneg d tw Hn Hiv Hd Hw t ltac:(lia) ltac:(lia)).
  pose proof (ok_slotNum tw Hw).
  pose proof (Z.mod_pos_bound (Z.of_nat p - currentPos tw) (slotNum tw) ltac:(lia)). lia.
Qed.

(** *** The scan returns *)

Lemma drop_delete_eq {A} (l : list A) i : drop i (delete i l) = drop (S i) l.
Proof.
  revert i. induction l as [|x l IH]; intros [|i]; cbn; try done; apply IH.
Qed.

Lemma scan_cost_lookup l i t :
  l !! i = Some t -> scan_cost l i = (cost t + scan_cost l (S i))%nat.
Proof. intros Hi. unfold scan_cost. by rewrite (drop_S l t i Hi). Qed.

Lemma scan_cost_delete l i : scan_cost (delete i l) i = scan_cost l (S i).
Proof. unfold scan_cost. by rewrite drop_delete_eq. Qed.

Lemma scan_cost_insert l i t : scan_cost (<[i := t]> l) (S i) = scan_cost l (S i).
Proof. unfold scan_cost. by rewrite drop_insert_lt by lia. Qed.

Lemma scan_cost_snoc l i t :
  (i <= length l)%nat -> scan_cost (l ++ [t]) i = (scan_cost l i + cost t)%nat.
Proof.
  intros Hi. unfold scan_cost. rewrite drop_app_le by done.
  rewrite sum_list_with_app. cbn. lia.
Qed.

Lemma scan_cost_bound l i : (scan_cost l i <= 2 * length l)%nat.
Proof.
  unfold scan_cost. revert i. induction l as [|t l IH]; intros i.
  - by rewrite drop_nil.
  - destruct i as [|i]; cbn [drop].
    + specialize (IH 0%nat). rewrite drop_0 in IH. cbn. unfold cost at 1.
      destruct (due t); lia.
    + specialize (IH i). cbn [length]. lia.
Qed.

Lemma fired_cons t l : fired (t :: l) = if due t then t :: fired l else fired l.
Proof.
  unfold fired. rewrite filter_cons. destruct (due t); by destruct (decide _).
Qed.

Lemma all_tame_frame tw tw' :
  interval tw' = interval tw ->
  (forall p l t, slots tw' !! p = Some (Some l) -> t ∈ l ->
     exists q l0 t0, slots tw !! q = Some (Some l0) /\ t0 ∈ l0 /\
                     task_interval t = task_interval t0) ->
  all_tame tw -> all_tame tw'.
Proof.
  intros Ei Hsub Htame p l t Hp Ht.
  destruct (Hsub p l t Hp Ht) as (q & l0 & t0 & Hq & Ht0 & E).
  specialize (Htame q l0 t0 Hq Ht0). unfold tame, stepsOf in *. by rewrite Ei, E.
Qed.

Lemma all_tame_drop_item tw p i l t :
  slots tw !! p = Some (Some l) -> all_tame tw -> all_tame (drop_item tw p i l t).
Proof.
  intros Hp. apply all_tame_frame; [done|]. intros q l' t' Hq Ht'.
  unfold drop_item in Hq. cbn [slots set_timer] in Hq.
  rewrite slots_lookup_set_slot in Hq by (by eapply lookup_lt_Some).
  destruct (decide (p = q)) as [<-|]; [|by exists q, l', t'].
  injection Hq as <-. exists p, l, t'. split_and!; [done| |done].
  by eapply list_elem_of_delete_inv.
Qed.

Lemma all_tame_insert tw p i l t t' :
  slots tw !! p = Some (Some l) -> l !! i = Some t ->
  task_interval t' = task_interval t ->
  all_tame tw -> all_tame (set_slot tw p (<[i := t']> l)).
Proof.
  intros Hp Hi Hint. apply all_tame_frame; [done|]. intros q l' t1 Hq Ht1.
  rewrite slots_lookup_set_slot in Hq by (by eapply lookup_lt_Some).
  destruct (decide (p = q)) as [<-|]; [|by exists q, l', t1].
  injection Hq as <-. apply list_elem_of_lookup in Ht1 as [j Hj].
  destruct (decide (i = j)) as [<-|Hne].
  - rewrite list_lookup_insert_eq in Hj by (by eapply lookup_lt_Some).
    injection Hj as <-. exists p, l, t. split_and!; [done| |done].
    by eapply list_elem_of_lookup_2.
  - rewrite list_lookup_insert_ne in Hj by done. exists p, l, t1.
    split_and!; [done| |done]. by eapply list_elem_of_lookup_2.
Qed.

Lemma all_tame_append tw p l t m :
  slots tw !! p = Some (Some l) -> tame tw t ->
  all_tame tw -> all_tame (set_timer (set_slot tw p (l ++ [t])) m).
Proof.
  intros Hp Ht Htame q l' t' Hq Ht'. cbn [slots set_timer] in Hq.
  rewrite slots_lookup_set_slot in Hq by (by eapply lookup_lt_Some).
  assert (Hsame : forall t0, tame tw t0 ->
            tame (set_timer (set_slot tw p (l ++ [t])) m) t0) by done.
  destruct (decide (p = q)) as [<-|]; [|by apply Hsame, (Htame q l')].
  injection Hq as <-. apply elem_of_app in Ht' as [Ht'|Ht'].
  - by apply Hsame, (Htame p l).
  - apply list_elem_of_singleton in Ht' as ->. by apply Hsame.
Qed.

Lemma scan_item_due tw p i log l t :
  task_times t <> 0 -> task_circle t <= 0 ->
  scan_item tw p i log l t
  = (tw' ← rearm (drop_item tw p i l t) t;
     Ok (match l !! S i with
         | Some _ => Continue tw' i (log ++ [t])
         | None => Done tw' (log ++ [t])
         end)).
Proof.
  intros E0 Ec. unfold scan_item, rearm, periodic, rearmed.
  destruct (Z.eqb_spec (task_times t) 0); [done|].
  destruct (Z.ltb_spec 0 (task_circle t)); [lia|].
  destruct (if (0 <? task_times t) || (task_times t =? -1) then _ else _);
    cbn [mbind result_bind]; [|done..].
  by destruct (l !! S i).
Qed.

Section Returns.

(** The wheel at the beginning of the tick. *)
Variable tw0 : TimeWheel.
Hypothesis Hslots : slotNum tw0 <= 2 ^ 62.
Hypothesis Hiv : Second <= interval tw0 <= maxDuration.

Local Abbreviation p0 := (Z.to_nat (currentPos tw0)).

(** A tame task that fired is armed again, and waits a rotation at
    least when it comes back into the scanned list. *)
Lemma rearm_tame tw t :
  inv tw -> same_frame tw0 tw -> timer tw !! task_key t = None -> tame tw t ->
  exists tw', rearm tw t = Ok tw' /\ inv tw' /\ same_frame tw tw' /\
    (all_tame tw -> all_tame tw') /\
    forall l, slots tw !! p0 = Some (Some l) ->
      exists l', slots tw' !! p0 = Some (Some l') /\
        (l' = l \/ exists t1, l' = l ++ [t1] /\ due t1 = false).
Proof.
  intros Hinv (Ei & En & Ec) Hfresh [Hd Hs].
  assert (Hinv' := Hinv). destruct Hinv' as [Hw Hr].
  pose proof (ok_slotNum tw Hw) as Hn. pose proof (ok_pos tw Hw) as Hc.
  assert (exists tw', rearm tw t = Ok tw' /\ (all_tame tw -> all_tame tw') /\
    forall l, slots tw !! p0 = Some (Some l) ->
      exists l', slots tw' !! p0 = Some (Some l') /\
        (l' = l \/ exists t1, l' = l ++ [t1] /\ due t1 = false))
    as (tw' & Hre & Htame & Hlist).
  2:{ exists tw'. destruct (inv_rearm tw t tw' Hinv Hfresh Hre). by split_and!. }
  unfold rearm. destruct (periodic t) eqn:Hper.
  2:{ exists tw. split_and!; [done..|]. intros l Hl. exists l. by split; [|left]. }
  assert (Hint : task_interval (rearmed t) = task_interval t).
  { unfold rearmed. by destruct (0 <? task_times t). }
  set (st := stepsOf tw (task_interval t)) in *.
  assert (Hst : 0 <= st <= 9223372037).
  { apply stepsOf_range; [rewrite Ei; lia|lia]. }
  set (pos := (currentPos tw + st) mod slotNum tw).
  assert (Hpos : 0 <= pos < slotNum tw) by (apply Z.mod_pos_bound; lia).
  destruct (index_slot_in_range tw pos Hw Hpos) as (l1 & Hidx & Hl1).
  assert (Hadd : addTask tw (rearmed t)
    = Ok (set_timer (set_slot tw (Z.to_nat pos)
                       (l1 ++ [set_circle (rearmed t) (st / slotNum tw)]))
            (<[task_key (rearmed t) := pos]> (timer tw)))).
  { unfold addTask. rewrite getPositionAndCircle_ok, Hint
      by (rewrite ?Hint, ?Ei, ?En; lia).
    cbn [mbind result_bind]. fold st. fold pos. by rewrite Hidx. }
  eexists. split; [exact Hadd|]. split.
  - apply all_tame_append; [done|]. unfold tame, stepsOf in *. cbn. by rewrite Hint.
  - intros l Hl. cbn [slots set_timer].
    rewrite slots_lookup_set_slot by (by eapply lookup_lt_Some).
    destruct (decide (Z.to_nat pos = p0)) as [E|E]; [|exists l; by split; [|left]].
    rewrite E in Hl1. assert (l1 = l) as -> by congruence.
    eexists. split; [done|]. right. eexists. split; [done|].
    assert (Hdiv : 1 <= st / slotNum tw).
    { assert (Hpc : pos = currentPos tw) by lia.
      unfold pos in Hpc.
      pose proof (Z.div_mod st (slotNum tw) ltac:(lia)) as Hdm.
      pose proof (Z.mod_pos_bound st (slotNum tw) ltac:(lia)) as Hmb.
      assert (0 <= st / slotNum tw) by (apply Z.div_pos; lia).
      assert (Hm : st mod slotNum tw = 0).
      { replace (currentPos tw + st)
          with (currentPos tw + st mod slotNum tw + st / slotNum tw * slotNum tw)
          in Hpc by lia.
        rewrite Z.mod_add in Hpc by lia.
        destruct (Z_lt_ge_dec (currentPos tw + st mod slotNum tw) (slotNum tw)).
        - rewrite Z.mod_small in Hpc by lia. lia.
        - replace (currentPos tw + st mod slotNum tw)
            with (currentPos tw + st mod slotNum tw - slotNum tw + 1 * slotNum tw)
            in Hpc by lia.
          rewrite Z.mod_add, Z.mod_small in Hpc by lia. lia. }
      nia. }
    unfold due. cbn [task_circle set_circle].
    destruct (Z.ltb_spec 0 (st / slotNum tw)); [|lia]. by rewrite andb_false_r.
Qed.

(** With tame tasks only, the scan of the due slot returns within the
    iterations counted by [scan_cost], and it fires the due tasks that
    were in the list, in their order, once each. *)
Lemma scan_loop_returns fuel : forall tw i log l,
  inv tw -> same_frame tw0 tw -> all_tame tw ->
  slots tw !! p0 = Some (Some l) -> (scan_cost l i < fuel)%nat ->
  exists tw', scan_loop fuel tw p0 i log = Ok (tw', log ++ fired (drop i l)) /\
    all_tame tw'.
Proof.
  induction fuel as [|fuel IH]; intros tw i log l Hinv Hframe Htame Hp Hfuel; [lia|].
  destruct (l !! i) as [t|] eqn:Hi.
  2:{ exists tw. cbn [scan_loop]. rewrite Hp, Hi.
      rewrite drop_ge by (by apply lookup_ge_None). by rewrite app_nil_r. }
  rewrite (scan_loop_S fuel tw p0 i log l t Hp Hi).
  rewrite (scan_cost_lookup l i t Hi) in Hfuel.
  rewrite (drop_S l t i Hi), fired_cons.
  assert (Hlen : (p0 < length (slots tw))%nat) by (by eapply lookup_lt_Some).
  unfold cost in Hfuel.
  destruct (Z.eq_dec (task_times t) 0) as [E0|E0].
  { unfold scan_item, due in *. rewrite (proj2 (Z.eqb_eq _ _) E0) in *.
    cbn [mbind result_bind negb andb] in *.
    rewrite <- (drop_delete_eq l i). apply (IH _ _ _ (delete i l)).
    - by apply inv_drop_item.
    - done.
    - by apply all_tame_drop_item.
    - unfold drop_item. cbn [slots set_timer]. rewrite slots_lookup_set_slot by done.
      by rewrite decide_True.
    - rewrite scan_cost_delete. lia. }
  destruct (Z_lt_ge_dec 0 (task_circle t)) as [Ec|Ec].
  { unfold scan_item, due in *.
    rewrite (proj2 (Z.eqb_neq _ _) E0), (proj2 (Z.ltb_lt _ _) Ec) in *.
    cbn [mbind result_bind negb andb] in *.
    rewrite <- (drop_insert_lt l (S i) i (set_circle t (wrap64 (task_circle t - 1))))
      by lia.
    apply (IH _ _ _ (<[i := set_circle t (wrap64 (task_circle t - 1))]> l)).
    - eapply inv_same_keys; [done..|]. by eapply keys_insert_same.
    - done.
    - by eapply all_tame_insert.
    - rewrite slots_lookup_set_slot by done. by rewrite decide_True.
    - rewrite scan_cost_insert. lia. }
  rewrite scan_item_due by (done || lia).
  assert (Hdue : due t = true).
  { unfold due. rewrite (proj2 (Z.eqb_neq _ _) E0).
    by destruct (Z.ltb_spec 0 (task_circle t)); [lia|]. }
  rewrite Hdue in *.
  destruct (rearm_tame (drop_item tw p0 i l t) t) as (tw' & Hre & Hinv' & Hf' & Ht' & Hl').
  { by apply inv_drop_item. }
  { done. }
  { apply timer_drop_item. }
  { assert (Hin : t ∈ l) by (by eapply list_elem_of_lookup_2).
    by specialize (Htame _ _ _ Hp Hin). }
  rewrite Hre. cbn [mbind result_bind].
  specialize (Ht' (all_tame_drop_item _ _ i _ t Hp Htame)).
  destruct (l !! S i) as [t2|] eqn:Hnext.
  2:{ exists tw'. rewrite (drop_ge l (S i)) by (by apply lookup_ge_None). done. }
  destruct (Hl' (delete i l)) as (l' & Hp' & Hcase).
  { unfold drop_item. cbn [slots set_timer]. rewrite slots_lookup_set_slot by done.
    by rewrite decide_True. }
  assert (fired (drop i l') = fired (drop (S i) l)
                   /\ (scan_cost l' i <= scan_cost l (S i) + 1)%nat) as [Hfl Hcl].
  { destruct Hcase as [->|(t1 & -> & Hd1)].
    - rewrite drop_delete_eq, scan_cost_delete. split; [done|lia].
    - assert (Hil : (i <= length (delete i l))%nat).
      { rewrite length_delete by done. apply lookup_lt_Some in Hi. lia. }
      rewrite scan_cost_snoc, scan_cost_delete by done.
      rewrite drop_app_le, drop_delete_eq by done.
      unfold fired, cost. rewrite filter_app, filter_cons, Hd1.
      rewrite decide_False by done. rewrite filter_nil, app_nil_r. split; [done|lia]. }
  replace (log ++ t :: fired (drop (S i) l))
    with ((log ++ [t]) ++ fired (drop i l'))
    by (by rewrite Hfl, <- app_assoc).
  apply (IH _ _ _ l'); [done| |done..|lia].
  eapply same_frame_trans; [|exact Hf']. done.
Qed.

End Returns.

(** With tame tasks only a tick returns, whatever the fuel above twice the
    length of the scanned list; it fires the due tasks of that list, in
    their order, once each, and leaves tame tasks only. *)
Lemma tickHandler_returns tw fuel l :
  inv tw -> slotNum tw <= 2 ^ 62 -> Second <= interval tw <= maxDuration ->
  all_tame tw ->
  slots tw !! Z.to_nat (currentPos tw) = Some (Some l) ->
  (2 * length l < fuel)%nat ->
  exists tw', tickHandler fuel tw = Ok (tw', fired l) /\ all_tame tw'.
Proof.
  intros Hinv Hn Hiv Htame Hl Hfuel. assert (Hinv' := Hinv). destruct Hinv' as [Hw Hr].
  destruct (index_slot_in_range tw (currentPos tw) Hw (ok_pos tw Hw)) as (l' & Hidx & Hl').
  destruct (scan_loop_returns tw Hn Hiv fuel tw 0%nat [] l) as (tw1 & Hscan & Ht1);
    [done..| |].
  { pose proof (scan_cost_bound l 0). lia. }
  unfold tickHandler. rewrite Hidx. cbn [mbind result_bind].
  unfold scanAddRunTask. rewrite Hl, Hscan. cbn [mbind result_bind app drop].
  destruct (currentPos tw1 =? _); (eexists; split; [done|]);
    intros p l1 t Hp Ht; by apply (Ht1 p l1 t).
Qed.

(** *** The shape of the wheel, whatever the commands *)

Lemma wheel_ok_addTask tw t tw' :
  wheel_ok tw -> addTask tw t = Ok tw' -> wheel_ok tw' /\ same_frame tw tw'.
Proof.
  intros Hw Hadd.
  destruct (addTask_Ok tw t tw' Hadd) as (pos & circle & l & _ & _ & _ & ->).
  split; [|done]. by apply wheel_ok_set_timer, wheel_ok_set_slot.
Qed.

Lemma wheel_ok_updateTask tw u tw' :
  wheel_ok tw -> updateTask tw u = Ok tw' -> wheel_ok tw' /\ same_frame tw tw'.
Proof.
  intros Hw Hup.
  destruct (updateTask_Ok tw u tw' Hup) as [[-> _]|(p & l & _ & _ & ->)]; [done|].
  split; [|done]. by apply wheel_ok_set_slot.
Qed.

Lemma wheel_ok_removeTask tw k tw' :
  wheel_ok tw -> removeTask tw k = Ok tw' -> wheel_ok tw' /\ same_frame tw tw'.
Proof.
  intros Hw Hrm.
  destruct (removeTask_Ok tw k tw' Hrm) as [->|(p & l & i & t & _ & _ & _ & _ & ->)];
    [done|].
  split; [|done]. by apply wheel_ok_drop_item.
Qed.

Lemma wheel_ok_scan_item tw p i log l t st :
  wheel_ok tw -> scan_item tw p i log l t = Ok st ->
  match st with
  | Continue tw' _ _ | Done tw' _ => wheel_ok tw' /\ same_frame tw tw'
  end.
Proof.
  intros Hw Hst.
  destruct (scan_item_Ok _ _ _ _ _ _ _ Hst)
    as [[_ ->]|[(_ & _ & ->)|(_ & _ & tw' & Hre & ->)]].
  - split; [by apply wheel_ok_drop_item|done].
  - split; [by apply wheel_ok_set_slot|done].
  - assert (wheel_ok tw' /\ same_frame tw tw') as Hres.
    { pose proof (wheel_ok_drop_item tw p i l t Hw) as Hw1.
      destruct (rearm_Ok _ _ _ Hre) as [[_ Hadd]|[_ ->]]; [|done].
      destruct (wheel_ok_addTask _ _ _ Hw1 Hadd) as [? ?]. done. }
    by destruct (l !! S i).
Qed.

Lemma wheel_ok_scan_loop fuel tw p i log tw' log' :
  wheel_ok tw -> scan_loop fuel tw p i log = Ok (tw', log') ->
  wheel_ok tw' /\ same_frame tw tw'.
Proof.
  intros Hw.
  apply (scan_loop_rule (fun tw1 _ _ => wheel_ok tw1 /\ same_frame tw tw1)
           (fun tw1 _ => wheel_ok tw1 /\ same_frame tw tw1)); [| |done].
  - intros tw1 i1 log1 HI. by destruct (slots tw1 !! p) as [[?|]|].
  - intros tw1 i1 log1 l t st [Hw1 Hf1] Hp Hi Hst.
    pose proof (wheel_ok_scan_item _ _ _ _ _ _ _ Hw1 Hst) as Hres.
    destruct st; destruct Hres; split; eauto using same_frame_trans.
Qed.

(** The cursor after a tick: the next slot, the first after the last. *)
Lemma wheel_ok_tickHandler fuel tw tw' log :
  wheel_ok tw -> tickHandler fuel tw = Ok (tw', log) ->
  wheel_ok tw' /\ interval tw' = interval tw /\ slotNum tw' = slotNum tw /\
  currentPos tw' = (currentPos tw + 1) mod slotNum tw.
Proof.
  intros Hw Htick. destruct (tickHandler_Ok _ _ _ _ Htick) as (tw1 & Hscan & ->).
  assert (wheel_ok tw1 /\ same_frame tw tw1) as [Hw1 (Ei & En & Ec)].
  { unfold scanAddRunTask in Hscan.
    destruct (slots tw !! Z.to_nat (currentPos tw)) as [[l|]|];
      [by eapply wheel_ok_scan_loop| |by eapply wheel_ok_scan_loop].
    by injection Hscan as <- <-. }
  pose proof (ok_slotNum tw1 Hw1) as Hn. pose proof (ok_pos tw1 Hw1) as Hc.
  rewrite (wrap64_small (slotNum tw1 - 1)), (wrap64_small (currentPos tw1 + 1)) by lia.
  assert (Hcur : (if currentPos tw1 =? slotNum tw1 - 1 then 0 else currentPos tw1 + 1)
                 = (currentPos tw + 1) mod slotNum tw).
  { rewrite <- Ec, <- En. destruct (Z.eqb_spec (currentPos tw1) (slotNum tw1 - 1)) as [E|E].
    - rewrite E. replace (slotNum tw1 - 1 + 1) with (slotNum tw1) by lia.
      by rewrite Z.mod_same by lia.
    - rewrite Z.mod_small; lia. }
  split_and!; [|done..].
  split; cbn; rewrite ?Hcur; try apply Hw1.
  rewrite <- En. apply Z.mod_pos_bound. lia.
Qed.

Lemma wheel_ok_handle fuel tw ev tw' log :
  wheel_ok tw -> handle fuel tw ev = Ok (tw', log) ->
  wheel_ok tw' /\ interval tw' = interval tw /\ slotNum tw' = slotNum tw /\
  currentPos tw'
  = (currentPos tw + match ev with Tick => 1 | _ => 0 end) mod slotNum tw.
Proof.
  intros Hw. pose proof (ok_slotNum tw Hw) as Hn. pose proof (ok_pos tw Hw) as Hc.
  assert (Hstay : forall tw1, wheel_ok tw1 /\ same_frame tw tw1 ->
    wheel_ok tw1 /\ interval tw1 = interval tw /\ slotNum tw1 = slotNum tw /\
    currentPos tw1 = (currentPos tw + 0) mod slotNum tw).
  { intros tw1 [Hw1 (Ei & En & Ec)]. rewrite Z.add_0_r, Z.mod_small by lia. done. }
  destruct ev as [|t|u|k|]; cbn [handle].
  - apply wheel_ok_tickHandler. done.
  - destruct (addTask tw t) as [tw1| |] eqn:Hadd; cbn [mbind result_bind]; [|done..].
    intros [= <- <-]. by apply Hstay, (wheel_ok_addTask tw t).
  - destruct (updateTask tw u) as [tw1| |] eqn:Hup; cbn [mbind result_bind]; [|done..].
    intros [= <- <-]. by apply Hstay, (wheel_ok_updateTask tw u).
  - destruct (removeTask tw k) as [tw1| |] eqn:Hrm; cbn [mbind result_bind]; [|done..].
    intros [= <- <-]. by apply Hstay, (wheel_ok_removeTask tw k).
  - intros [= <- <-]. by apply Hstay.
Qed.

Lemma start_before_stop fuel tw evs :
  start fuel tw evs = start fuel tw (before_stop evs).
Proof.
  revert tw. induction evs as [|ev evs IH]; intros tw; [done|].
  destruct ev; cbn [start before_stop]; try done;
    (destruct (handle fuel tw _) as [[tw1 log1]| |]; cbn [mbind result_bind]; [|done..]);
    by rewrite IH.
Qed.

Lemma start_cursor fuel tw evs tw' log :
  wheel_ok tw -> start fuel tw evs = Ok (tw', log) ->
  wheel_ok tw' /\ interval tw' = interval tw /\ slotNum tw' = slotNum tw /\
  currentPos tw' = (currentPos tw + Z.of_nat (ticks (before_stop evs))) mod slotNum tw.
Proof.
  revert tw log. induction evs as [|ev evs IH]; intros tw log Hw Hst.
  { injection Hst as <- <-. pose proof (ok_slotNum tw Hw). pose proof (ok_pos tw Hw).
    cbn. rewrite Z.add_0_r, Z.mod_small by lia. done. }
  pose proof (ok_slotNum tw Hw) as Hn. pose proof (ok_pos tw Hw) as Hc.
  assert (Hcons : forall tw1 log1 c,
    wheel_ok tw1 /\ interval tw1 = interval tw /\ slotNum tw1 = slotNum tw /\
      currentPos tw1 = (currentPos tw + c) mod slotNum tw ->
    ('(tw2, log2) ← start fuel tw1 evs; Ok (tw2, log1 ++ log2)) = Ok (tw', log) ->
    wheel_ok tw' /\ interval tw' = interval tw /\ slotNum tw' = slotNum tw /\
    currentPos tw' = (currentPos tw + (c + Z.of_nat (ticks (before_stop evs))))
                     mod slotNum tw).
  { intros tw1 log1 c (Hw1 & Ei & En & Ec) Hrest.
    destruct (start fuel tw1 evs) as [[tw2 log2]| |] eqn:Hst2;
      cbn [mbind result_bind] in Hrest; [|done..].
    injection Hrest as <- <-.
    destruct (IH tw1 log2 Hw1 Hst2) as (Hw2 & Ei2 & En2 & Ec2).
    split_and!; [done|congruence..|].
    rewrite Ec2, Ec, En, Zplus_mod_idemp_l. f_equal. lia. }
  destruct ev as [|t|u|k|]; cbn [start before_stop ticks] in *.
  - destruct (handle fuel tw Tick) as [[tw1 log1]| |] eqn:Hh;
      cbn [mbind result_bind] in Hst; [|done..].
    rewrite Nat2Z.inj_succ, <- Z.add_1_l.
    apply (Hcons tw1 log1 1); [|done]. by apply (wheel_ok_handle fuel tw Tick _ log1).
  - destruct (handle fuel tw (Add t)) as [[tw1 log1]| |] eqn:Hh;
      cbn [mbind result_bind] in Hst; [|done..].
    rewrite <- (Z.add_0_l (Z.of_nat _)).
    apply (Hcons tw1 log1 0); [|done]. by apply (wheel_ok_handle fuel tw (Add t) _ log1).
  - destruct (handle fuel tw (Update u)) as [[tw1 log1]| |] eqn:Hh;
      cbn [mbind result_bind] in Hst; [|done..].
    rewrite <- (Z.add_0_l (Z.of_nat _)).
    apply (Hcons tw1 log1 0); [|done]. by apply (wheel_ok_handle fuel tw (Update u) _ log1).
  - destruct (handle fuel tw (Remove k)) as [[tw1 log1]| |] eqn:Hh;
      cbn [mbind result_bind] in Hst; [|done..].
    rewrite <- (Z.add_0_l (Z.of_nat _)).
    apply (Hcons tw1 log1 0); [|done]. by apply (wheel_ok_handle fuel tw (Remove k) _ log1).
  - injection Hst as <- <-. cbn. rewrite Z.add_0_r, Z.mod_small by lia. done.
Qed.

(** *** Removal *)

Lemma filter_all {A} (P : A -> Prop) `{forall x, Decision (P x)} (l : list A) :
  (forall x, x ∈ l -> P x) -> filter P l = l.
Proof.
  induction l as [|x l IH]; intros Hl; [done|].
  rewrite filter_cons, decide_True by (apply Hl; left).
  f_equal. apply IH. intros y Hy. apply Hl. by right.
Qed.

(** Where no two tasks share a key, the loop of [removeTask] leaves the
    tasks of the other keys. *)
Lemma remove_loop_filter k l t :
  NoDup (task_key <$> l) -> t ∈ l -> task_key t = k ->
  remove_loop k l = Some (filter (fun t' => task_key t' <> k) l).
Proof.
  induction l as [|t0 l IH]; intros Hnd Ht Hk; [by apply elem_of_nil in Ht|].
  rewrite fmap_cons in Hnd. apply NoDup_cons in Hnd as [Hni Hnd].
  cbn [remove_loop]. rewrite filter_cons.
  destruct (decide (task_key t0 = k)) as [E|E].
  - rewrite decide_False by (intros Hne; by apply Hne).
    f_equal. symmetry. apply filter_all. intros t' Ht' E'.
    apply Hni. rewrite E, <- E'. by apply list_elem_of_fmap_2.
  - rewrite decide_True by done.
    apply elem_of_cons in Ht as [->|Ht]; [done|].
    by rewrite (IH Hnd Ht Hk).
Qed.

Lemma removeTask_post tw k :
  inv tw ->
  exists tw', removeTask tw k = Ok tw' /\ inv tw' /\ same_frame tw tw' /\
    timer tw' = delete k (timer tw) /\
    forall p l, slots tw !! p = Some (Some l) ->
      slots tw' !! p = Some (Some (filter (fun t => task_key t <> k) l)).
Proof.
  intros Hinv. assert (Hinv' := Hinv). destruct Hinv' as [Hw Hr].
  unfold removeTask. destruct (timer tw !! k) as [z|] eqn:Hk.
  - destruct (reg_has_task tw Hr k z Hk) as (p & l & t & -> & Hp & Ht & Hkt).
    assert (Hidx : index_slot tw (Z.of_nat p) = Ok (Some l)).
    { unfold index_slot. destruct (Z.ltb_spec (Z.of_nat p) 0); [lia|].
      by rewrite Nat2Z.id, Hp. }
    rewrite Hidx. cbn [mbind result_bind].
    rewrite (remove_loop_filter k l t (reg_nodup tw Hr p l Hp) Ht Hkt).
    rewrite Nat2Z.id. eexists. split; [done|].
    assert (Hrm : removeTask tw k
      = Ok (set_slot (set_timer tw (delete k (timer tw))) p
              (filter (fun t' => task_key t' <> k) l))).
    { unfold removeTask. rewrite Hk, Hidx. cbn [mbind result_bind].
      by rewrite (remove_loop_filter k l t (reg_nodup tw Hr p l Hp) Ht Hkt), Nat2Z.id. }
    destruct (inv_removeTask _ _ _ Hinv Hrm) as [Hinv1 Hf1].
    split_and!; [done..|].
    intros q l' Hq. cbn [slots set_slot set_slots set_timer].
    assert (Hlt : (p < length (slots tw))%nat) by (by eapply lookup_lt_Some).
    destruct (decide (p = q)) as [<-|Hne].
    + rewrite list_lookup_insert_eq by done. congruence.
    + rewrite list_lookup_insert_ne by done. rewrite Hq. do 2 f_equal.
      symmetry. apply filter_all. intros t' Ht' E.
      pose proof (reg_of_task tw Hr q l' t' Hq Ht') as Hreg.
      rewrite E, Hk in Hreg. injection Hreg as Hpq. lia.
  - exists tw. split_and!; [done..| |].
    + destruct tw as [iv sl tm cp sn]. cbn in *. by rewrite delete_id.
    + intros p l Hp. rewrite Hp. do 2 f_equal. symmetry. apply filter_all.
      intros t Ht E. pose proof (reg_of_task tw Hr p l t Hp Ht) as Hreg.
      rewrite E, Hk in Hreg. done.
Qed.

(** *** A key that is armed twice *)

Lemma remove_loop_is_Some k l t :
  t ∈ l -> task_key t = k -> is_Some (remove_loop k l).
Proof.
  induction l as [|t0 l IH]; intros Ht Hk; [by apply elem_of_nil in Ht|].
  cbn [remove_loop]. destruct (decide (task_key t0 = k)); [eauto|].
  apply elem_of_cons in Ht as [->|Ht]; [done|].
  destruct (IH Ht Hk) as [l' ->]. cbn. eauto.
Qed.

Lemma lookup_delete_other {A} (l : list A) i j x :
  l !! j = Some x -> i <> j -> x ∈ delete i l.
Proof.
  intros Hj Hne. destruct (decide (j < i)%nat).
  - apply (list_elem_of_lookup_2 _ j). by rewrite list_lookup_delete_lt.
  - apply (list_elem_of_lookup_2 _ (pred j)).
    rewrite list_lookup_delete_ge by lia. by replace (S (pred j)) with j by lia.
Qed.

Lemma addTask_registered_key tw t tw' z :
  inv tw -> timer tw !! task_key t = Some z -> addTask tw t = Ok tw' ->
  exists tw'', removeTask tw' (task_key t) = Ok tw'' /\
    timer tw'' !! task_key t = None /\
    exists p l t', slots tw'' !! p = Some (Some l) /\ t' ∈ l /\
                   task_key t' = task_key t.
Proof.
  intros [Hw Hr] Hz Hadd.
  destruct (addTask_Ok tw t tw' Hadd) as (pos & circle & l1 & _ & Hpos & Hl1 & ->).
  destruct (reg_has_task tw Hr _ z Hz) as (p0 & l0 & t0 & -> & Hp0 & Ht0 & Hk0).
  assert (Hlt : (Z.to_nat pos < length (slots tw))%nat) by (by eapply lookup_lt_Some).
  set (t1 := set_circle t circle).
  assert (Hin1 : t1 ∈ l1 ++ [t1]) by (apply elem_of_app; right; by left).
  destruct (remove_loop_is_Some (task_key t) (l1 ++ [t1]) t1 Hin1 eq_refl) as [l' Hl'].
  destruct (remove_loop_Some _ _ _ Hl') as (i & ti & Hi & Hki & ->).
  unfold removeTask. cbn [timer set_timer set_slot set_slots task_key set_circle].
  rewrite lookup_insert_eq. unfold index_slot.
  destruct (Z.ltb_spec pos 0); [lia|].
  cbn [slots set_timer set_slot set_slots]. rewrite list_lookup_insert_eq by done.
  cbn [mbind result_bind]. fold t1. rewrite Hl'.
  eexists. split; [done|]. cbn [timer set_timer set_slot set_slots slots].
  split; [by rewrite lookup_delete_eq|].
  rewrite list_insert_insert_eq.
  destruct (decide (Z.to_nat pos = p0)) as [E|E].
  - exists p0. rewrite <- E, list_lookup_insert_eq by done.
    rewrite <- E in Hp0. assert (l0 = l1) as -> by congruence.
    apply list_elem_of_lookup in Ht0 as [j0 Hj0].
    destruct (decide (i = j0)) as [->|Hne].
    + exists (delete j0 (l1 ++ [t1])), t1. split_and!; [done| |done].
      apply (lookup_delete_other _ _ (length l1)).
      * by rewrite lookup_app_r, Nat.sub_diag by lia.
      * apply lookup_lt_Some in Hj0. lia.
    + exists (delete i (l1 ++ [t1])), t0. split_and!; [done| |done].
      apply (lookup_delete_other _ _ j0); [|done].
      by rewrite lookup_app_l by (by eapply lookup_lt_Some).
  - exists p0, l0, t0. by rewrite list_lookup_insert_ne by done.
Qed.

(** *** The first run of a task *)

Lemma scan_item_log tw p i log l t st :
  scan_item tw p i log l t = Ok st ->
  match st with
  | Continue _ _ log' | Done _ log' => log' = log \/ log' = log ++ [t]
  end.
Proof.
  intros Hst.
  destruct (scan_item_Ok _ _ _ _ _ _ _ Hst)
    as [[_ ->]|[(_ & _ & ->)|(_ & _ & tw' & _ & ->)]]; [by left..|].
  destruct (l !! S i); by right.
Qed.

(** What an iteration of the scan on the item at [i] leaves of a task at
    another place: the task, on the same side of the loop. *)
Lemma scan_item_other_place tw p0 i log l t0 st p j t :
  slots tw !! p0 = Some (Some l) -> l !! i = Some t0 ->
  task_at tw p j t -> (p <> p0 \/ j <> i) ->
  scan_item tw p0 i log l t0 = Ok st ->
  match st with
  | Continue tw' i' _ =>
      exists j', task_at tw' p j' t /\
        (p = p0 -> ((j < i)%nat -> (j' < i')%nat) /\ ((i <= j)%nat -> (i' <= j')%nat))
  | Done tw' _ => (exists j', task_at tw' p j' t) /\ (p = p0 -> (j < i)%nat)
  end.
Proof.
  intros Hp Hi Hat Hne Hst.
  set (j1 := if decide (p = p0 /\ (i < j)%nat) then pred j else j).
  assert (Hdrop : task_at (drop_item tw p0 i l t0) p j1 t)
    by (by apply task_at_drop_item).
  assert (Hside : p = p0 ->
            ((j < i)%nat -> (j1 < i)%nat) /\ ((i <= j)%nat -> (i <= j1)%nat)).
  { intros ->. unfold j1. destruct (decide _) as [[_ ?]|Hn]; [lia|].
    split; [lia|]. intros Hij. destruct Hne; [done|]. exfalso. apply Hn. split; [done|lia]. }
  destruct (scan_item_Ok _ _ _ _ _ _ _ Hst)
    as [[_ ->]|[(_ & _ & ->)|(_ & _ & tw' & Hre & ->)]].
  - by exists j1.
  - exists j. split; [by eapply task_at_insert|].
    intros ->. split; [lia|]. intros Hij. destruct Hne; [done|lia].
  - assert (Hat' : task_at tw' p j1 t).
    { destruct (rearm_Ok _ _ _ Hre) as [[_ Hadd]|[_ ->]]; [|done].
      destruct (addTask_Ok _ _ _ Hadd) as (pos & c & l1 & _ & _ & Hl1 & ->).
      by apply task_at_append. }
    destruct (l !! S i) eqn:Hnext; [by exists j1|].
    split; [by exists j1|]. intros ->.
    destruct Hat as (l' & Hp' & Hj'). assert (l' = l) as -> by congruence.
    apply lookup_ge_None in Hnext. apply lookup_lt_Some in Hj'.
    destruct Hne; [done|lia].
Qed.

(** What a command on another key leaves of a task: the task in its slot. *)
Lemma task_at_step_other tw ev tw' log p j t :
  inv tw -> task_at tw p j t -> event_key ev <> Some (task_key t) -> ev <> Tick ->
  step tw ev tw' log ->
  inv tw' /\ same_frame tw tw' /\ log = [] /\ exists j', task_at tw' p j' t.
Proof.
  intros Hinv Hat Hev Hnt Hstep.
  assert (inv tw' /\ same_frame tw tw' /\ log = []) as (Hinv' & Hf & ->).
  { destruct Hstep as [fuel tw tw' log Ht|tw t' tw' Hf Ha|tw u tw' Hu|tw k' tw' Hr]; [done|..].
    - destruct (inv_addTask _ _ _ Hinv Hf Ha); done.
    - destruct (inv_updateTask _ _ _ Hinv Hu); done.
    - destruct (inv_removeTask _ _ _ Hinv Hr); done. }
  split_and!; [done..|].
  destruct Hat as (l & Hp & Hj).
  inversion Hstep as [| ? t' ? Hf' Ha | ? u ? Hu | ? k' ? Hr ]; subst; [done|..].
  - destruct (addTask_Ok _ _ _ Ha) as (pos & c & l1 & _ & _ & Hl1 & ->).
    exists j. apply task_at_append; [done|]. by exists l.
  - destruct (updateTask_Ok _ _ _ Hu) as [[-> _]|(p' & l' & _ & Hp' & ->)];
      [by exists j, l|].
    exists j. unfold task_at. rewrite slots_lookup_set_slot by (by eapply lookup_lt_Some).
    destruct (decide (p' = p)) as [->|]; [|by exists l].
    assert (l' = l) as -> by congruence. exists (update_loop u l). split; [done|].
    apply update_loop_other; [done|]. cbn in Hev. congruence.
  - destruct (removeTask_Ok _ _ _ Hr) as [->|(p' & l' & i' & t' & _ & Hp' & Hi' & Hk' & ->)];
      [by exists j, l|].
    eexists. apply task_at_drop_item; [done|by exists l|].
    destruct (decide (p = p')) as [->|]; [|by left]. right. intros ->.
    assert (l' = l) as -> by congruence. cbn in Hev. congruence.
Qed.

Lemma with_key_app k log log' :
  with_key k (log ++ log') = with_key k log ++ with_key k log'.
Proof. unfold with_key. by rewrite filter_app. Qed.

Lemma with_key_nil k log : dispatches k log = 0%nat -> with_key k log = [].
Proof. unfold dispatches. by destruct (with_key k log). Qed.

Lemma head_app_Some {A} (l l' : list A) x : head l = Some x -> head (l ++ l') = Some x.
Proof. by destruct l. Qed.

Lemma periodic_set_circle t c : periodic (set_circle t c) = periodic t.
Proof. done. Qed.

(** Once a task ran, what the scan does to the items of other keys leaves
    that as it is. *)
Lemma ran_scan_item t0 tw p i log l t st :
  inv tw -> slots tw !! p = Some (Some l) -> l !! i = Some t ->
  ran t0 tw log ->
  scan_item tw p i log l t = Ok st ->
  match st with
  | Continue tw' _ log' | Done tw' log' => ran t0 tw' log'
  end.
Proof.
  intros Hinv Hp Hi [Hhead Hone] Hst.
  pose proof (scan_item_log _ _ _ _ _ _ _ Hst) as Hlog.
  assert (Hh : forall log1, log1 = log \/ log1 = log ++ [t] ->
            head (with_key (task_key t0) log1) = Some (set_circle t0 0)).
  { intros log1 [->| ->]; [done|]. rewrite with_key_app. by apply head_app_Some. }
  assert (Hgone : periodic t0 = false ->
            match st with
            | Continue tw' _ log' | Done tw' log' =>
                timer tw' !! task_key t0 = None /\ dispatches (task_key t0) log' = 1%nat
            end).
  { intros Hper. destruct (Hone Hper) as [Hk Hd].
    pose proof (scan_item_not_registered _ _ _ _ _ _ _ _ Hinv Hp Hi Hk Hst) as Hres.
    destruct st; destruct Hres; split; congruence. }
  destruct st; (split; [by apply Hh|done]).
Qed.

Section Waiting.

(** The task that is followed, and the wheel at the beginning of a
    tick. *)
Variables (t0 : task) (tw0 : TimeWheel).
Hypothesis Hw0 : wheel_ok tw0.

Local Abbreviation k := (task_key t0).
Local Abbreviation n := (slotNum tw0).
Local Abbreviation cur := (currentPos tw0).
Local Abbreviation p0 := (Z.to_nat (currentPos tw0)).

Lemma scan_loop_waits R fuel tw' log' :
  inv tw0 -> 0 < R <= maxInt ->
  waits_scan t0 n cur p0 R tw0 0 ->
  scan_loop fuel tw0 p0 0 [] = Ok (tw', log') ->
  dispatches k log' = 0%nat /\ waits t0 n (cur + 1) (R - 1) tw'.
Proof.
  intros Hinv HR Hsc.
  pose proof (ok_slotNum tw0 Hw0) as Hn. pose proof (ok_pos tw0 Hw0) as Hc.
  assert (Hp0 : Z.of_nat p0 = cur) by lia.
  apply (scan_loop_rule
           (fun tw i log => inv tw /\ dispatches k log = 0%nat /\
              waits_scan t0 n cur p0 R tw i)
           (fun tw log => dispatches k log = 0%nat /\ waits t0 n (cur + 1) (R - 1) tw)).
  - intros tw i log (_ & Hd & (p & j & c & Hat & Ht & Hc0 & Hcase)).
    assert (Hleft : ~ (p = p0 /\ (i <= j)%nat) ->
              dispatches k log = 0%nat /\ waits t0 n (cur + 1) (R - 1) tw).
    { intros Hno. split; [done|]. exists p, j, c.
      destruct Hcase as [[_ He]|(? & ? & _)]; [done|]. exfalso. by apply Hno. }
    destruct Hat as (l' & Hp' & Hj').
    destruct (slots tw !! p0) as [[l|]|] eqn:Hp.
    + intros Hend. apply Hleft. intros [-> Hij].
      assert (l' = l) as -> by congruence.
      apply lookup_ge_None in Hend. apply lookup_lt_Some in Hj'. lia.
    + apply Hleft. intros [-> _]. congruence.
    + apply Hleft. intros [-> _]. congruence.
  - intros tw i log l t1 st (Hinv1 & Hd & (p & j & c & Hat & Ht & Hc0 & Hcase))
      Hp Hi Hst.
    pose proof (inv_scan_item _ _ _ _ _ _ _ Hinv1 Hp Hi Hst) as Hres.
    assert (Hat1 : task_at tw p0 i t1) by (by exists l).
    destruct (decide (task_key t1 = k)) as [Hk1|Hk1].
    + destruct (task_at_unique tw p j (set_circle t0 c) p0 i t1 (proj2 Hinv1) Hat Hat1)
        as (-> & -> & <-); [by rewrite Hk1|].
      destruct Hcase as [[[?|?] _]|(_ & _ & HcR)]; [done|lia|].
      assert (Hpos : 0 < c) by nia.
      assert (Hle : c <= R) by nia.
      destruct (scan_item_Ok _ _ _ _ _ _ _ Hst)
        as [[? _]|[(_ & _ & ->)|(_ & Hc1 & _)]]; [done| |cbn in Hc1; lia].
      split_and!; [by destruct Hres|done|]. cbn [task_circle set_circle].
      rewrite wrap64_small by (unfold maxInt in HR; assert (0 < 2 ^ 63) by done; lia).
      exists p0, i, (c - 1).
      split_and!; [by eapply task_at_inserted|done|lia|].
      left. split; [right; lia|].
      rewrite Hp0. replace (cur - (cur + 1)) with (-1) by lia.
      rewrite mod_minus_one by lia. lia.
    + assert (Hne : p <> p0 \/ j <> i).
      { destruct (decide (p = p0)) as [->|]; [|by left]. right. intros ->.
        destruct Hat as (l' & Hp' & Hj'). assert (l' = l) as -> by congruence.
        assert (t1 = set_circle t0 c) as -> by congruence. done. }
      pose proof (scan_item_other_place _ _ _ _ _ _ _ _ _ _ Hp Hi Hat Hne Hst) as Hpl.
      pose proof (scan_item_log _ _ _ _ _ _ _ Hst) as Hlog.
      assert (Hd' : forall log1, log1 = log \/ log1 = log ++ [t1] ->
                dispatches k log1 = 0%nat).
      { intros log1 [->| ->]; [done|]. by rewrite dispatches_other. }
      destruct st as [tw1 i1 log1|tw1 log1].
      * destruct Hpl as (j' & Hat' & Hside).
        split_and!; [by destruct Hres|by apply Hd'|].
        exists p, j', c. split_and!; [done..|].
        destruct Hcase as [[Hset He]|(-> & Hij & HcR)].
        -- left. split; [|done]. destruct Hset as [?|Hji]; [by left|].
           destruct (decide (p = p0)) as [E|]; [|by left].
           right. by apply (Hside E).
        -- right. split_and!; [done| |done]. by apply (Hside eq_refl).
      * destruct Hpl as [(j' & Hat') Hside].
        split; [by apply Hd'|]. exists p, j', c. split_and!; [done..|].
        destruct Hcase as [[_ He]|(-> & Hij & _)]; [done|].
        specialize (Hside eq_refl). lia.
  - done.
Qed.

Lemma scan_loop_fires fuel tw' log' j0 :
  inv tw0 ->
  task_at tw0 p0 j0 (set_circle t0 0) -> task_times t0 <> 0 ->
  scan_loop fuel tw0 p0 0 [] = Ok (tw', log') ->
  ran t0 tw' log'.
Proof.
  intros Hinv Hat0 Ht0.
  apply (scan_loop_rule
           (fun tw i log => inv tw /\
              (ran t0 tw log \/
               (dispatches k log = 0%nat /\
                exists j, task_at tw p0 j (set_circle t0 0) /\ (i <= j)%nat)))
           (fun tw log => ran t0 tw log)).
  - intros tw i log (_ & [Hd|(_ & j & (l' & Hp' & Hj') & Hij)]).
    { by destruct (slots tw !! p0) as [[l|]|]. }
    rewrite Hp'. intros Hend.
    apply lookup_ge_None in Hend. apply lookup_lt_Some in Hj'. lia.
  - intros tw i log l t1 st (Hinv1 & Hcase) Hp Hi Hst.
    pose proof (inv_scan_item _ _ _ _ _ _ _ Hinv1 Hp Hi Hst) as Hres.
    destruct Hcase as [Hran|(Hd & j & Hat & Hij)].
    { pose proof (ran_scan_item t0 _ _ _ _ _ _ _ Hinv1 Hp Hi Hran Hst) as Hr.
      destruct st as [tw1 i1 log1|tw1 log1]; [split; [by destruct Hres|by left]|done]. }
    assert (Hat1 : task_at tw p0 i t1) by (by exists l).
    destruct (decide (task_key t1 = k)) as [Hk1|Hk1].
    + destruct (task_at_unique tw p0 j (set_circle t0 0) p0 i t1 (proj2 Hinv1) Hat Hat1)
        as (_ & -> & <-); [by rewrite Hk1|].
      destruct (scan_item_Ok _ _ _ _ _ _ _ Hst)
        as [[? _]|[(_ & Hc1 & _)|(_ & _ & tw1 & Hre & ->)]];
        [done|cbn in Hc1; lia|].
      assert (Hran : ran t0 tw1 (log ++ [set_circle t0 0])).
      { split.
        - rewrite with_key_app, (with_key_nil _ _ Hd). cbn [app]. unfold with_key.
          by rewrite filter_cons, decide_True by done.
        - intros Hper.
          destruct (rearm_Ok _ _ _ Hre) as [[Hper' _]|[_ ->]];
            [rewrite periodic_set_circle in Hper'; congruence|].
          split; [apply (timer_drop_item tw p0 i l (set_circle t0 0))|].
          change k with (task_key (set_circle t0 0)).
          rewrite dispatches_same. cbn [task_key set_circle]. by rewrite Hd. }
      destruct (l !! S i); [split; [by destruct Hres|by left]|done].
    + assert (Hne : p0 <> p0 \/ j <> i).
      { right. intros ->. destruct Hat as (l' & Hp' & Hj').
        assert (l' = l) as -> by congruence.
        assert (t1 = set_circle t0 0) as -> by congruence. done. }
      pose proof (scan_item_other_place _ _ _ _ _ _ _ _ _ _ Hp Hi Hat Hne Hst) as Hpl.
      pose proof (scan_item_log _ _ _ _ _ _ _ Hst) as Hlog.
      assert (Hd' : forall log1, log1 = log \/ log1 = log ++ [t1] ->
                dispatches k log1 = 0%nat).
      { intros log1 [->| ->]; [done|]. by rewrite dispatches_other. }
      destruct st as [tw1 i1 log1|tw1 log1].
      * destruct Hpl as (j' & Hat' & Hside).
        split; [by destruct Hres|]. right. split; [by apply Hd'|]. exists j'.
        split; [done|]. by apply (Hside eq_refl).
      * destruct Hpl as [_ Hside]. specialize (Hside eq_refl). lia.
  - split; [done|]. right. split; [done|]. exists j0. split; [done|lia].
Qed.

(** The scan of a tick, when the wheel is well formed. *)
Lemma tickHandler_scan fuel tw' log :
  tickHandler fuel tw0 = Ok (tw', log) ->
  exists tw1, scan_loop fuel tw0 p0 0 [] = Ok (tw1, log) /\
    slots tw' = slots tw1 /\ timer tw' = timer tw1.
Proof.
  intros Htick. destruct (tickHandler_Ok _ _ _ _ Htick) as (tw1 & Hscan & ->).
  exists tw1. split; [|done]. unfold scanAddRunTask in Hscan.
  destruct (slots tw0 !! p0) as [[l|]|] eqn:Hp; [done| |done].
  pose proof (ok_lists tw0 Hw0 _ _ Hp) as [? ?]. done.
Qed.

(** A tick before the one in which the task fires. *)
Lemma tickHandler_waits R fuel tw' log :
  inv tw0 -> 0 < R <= maxInt ->
  waits t0 n cur R tw0 ->
  tickHandler fuel tw0 = Ok (tw', log) ->
  dispatches k log = 0%nat /\ waits t0 (slotNum tw') (currentPos tw') (R - 1) tw'.
Proof.
  intros Hinv HR (p & j & c & Hat & Ht & Hc0 & He) Htick.
  pose proof (ok_slotNum tw0 Hw0) as Hn. pose proof (ok_pos tw0 Hw0) as Hc.
  destruct (tickHandler_scan _ _ _ Htick) as (tw1 & Hscan & Hs & _).
  destruct (inv_tickHandler _ _ _ _ Hinv Htick) as (_ & _ & En & Ec).
  destruct (scan_loop_waits R fuel tw1 log Hinv HR) as [Hd Hw1]; [|done|].
  { exists p, j, c. split_and!; [done..|].
    pose proof (Z.mod_pos_bound (Z.of_nat p - cur) n ltac:(lia)).
    destruct (decide (p = p0)) as [->|Hne].
    - right. split_and!; [done|lia|].
      replace (Z.of_nat p0 - cur) with 0 in He by lia. rewrite Z.mod_0_l in He by lia. lia.
    - left. split; [by left|].
      replace (Z.of_nat p - (cur + 1)) with (Z.of_nat p - cur - 1) by lia.
      rewrite mod_pred; [lia|lia|].
      destruct Hat as (l & Hp & _).
      apply lookup_lt_Some in Hp. rewrite (ok_length tw0 Hw0) in Hp.
      intros E. apply Z.mod_divide in E; [|lia]. destruct E as [q E].
      assert (q = 0) by nia. lia. }
  split; [done|]. destruct Hw1 as (p1 & j1 & c1 & (l1 & Hp1 & Hj1) & Hrest).
  exists p1, j1, c1. split; [exists l1; by rewrite Hs|].
  rewrite En, Ec, Zminus_mod_idemp_r. done.
Qed.

(** The tick in which the task fires. *)
Lemma tickHandler_fires fuel tw' log :
  inv tw0 -> waits t0 n cur 0 tw0 ->
  tickHandler fuel tw0 = Ok (tw', log) ->
  ran t0 tw' log.
Proof.
  intros Hinv (p & j & c & Hat & Ht & Hc0 & He) Htick.
  pose proof (ok_slotNum tw0 Hw0) as Hn. pose proof (ok_pos tw0 Hw0) as Hc.
  destruct (tickHandler_scan _ _ _ Htick) as (tw1 & Hscan & _ & Htm).
  pose proof (Z.mod_pos_bound (Z.of_nat p - cur) n ltac:(lia)) as Hm.
  assert (c = 0) as -> by nia.
  assert (Hmz : (Z.of_nat p - cur) mod n = 0) by nia.
  assert (p = p0) as ->.
  { destruct Hat as (l & Hp & _).
    apply lookup_lt_Some in Hp. rewrite (ok_length tw0 Hw0) in Hp.
    apply Z.mod_divide in Hmz; [|lia]. destruct Hmz as [q E].
    assert (q = 0) by nia. lia. }
  destruct (scan_loop_fires fuel tw1 log j Hinv Hat Ht Hscan) as [Hh Hone].
  split; [done|]. by rewrite Htm.
Qed.

End Waiting.

Lemma waits_steps t0 R tw evs tw' log :
  inv tw -> 0 <= R <= maxInt ->
  waits t0 (slotNum tw) (currentPos tw) R tw ->
  (forall ev, ev ∈ evs -> event_key ev <> Some (task_key t0)) ->
  steps tw evs tw' log ->
  (Z.of_nat (ticks evs) <= R ->
     dispatches (task_key t0) log = 0%nat /\
     waits t0 (slotNum tw') (currentPos tw') (R - Z.of_nat (ticks evs)) tw') /\
  (R < Z.of_nat (ticks evs) -> ran t0 tw' log).
Proof.
  intros Hinv HR Hw Hevs Hsteps. revert R HR Hw.
  induction Hsteps as [tw|tw ev tw1 log1 evs tw2 log2 Hstep Hrest IH]; intros R HR Hw.
  { cbn. rewrite Z.sub_0_r. split; [done|lia]. }
  destruct (inv_step _ _ _ _ Hinv Hstep) as (Hinv1 & Ei & En).
  assert (Hev : event_key ev <> Some (task_key t0)) by (apply Hevs; left).
  assert (Hevs' : forall ev', ev' ∈ evs -> event_key ev' <> Some (task_key t0)).
  { intros ev' Hev'. apply Hevs. by right. }
  specialize (IH Hinv1 Hevs').
  assert (Hother : ev <> Tick ->
    (Z.of_nat (ticks (ev :: evs)) <= R ->
       dispatches (task_key t0) (log1 ++ log2) = 0%nat /\
       waits t0 (slotNum tw2) (currentPos tw2) (R - Z.of_nat (ticks (ev :: evs))) tw2) /\
    (R < Z.of_nat (ticks (ev :: evs)) -> ran t0 tw2 (log1 ++ log2))).
  { intros Hnt. replace (ticks (ev :: evs)) with (ticks evs) by (by destruct ev).
    destruct Hw as (p & j & c & Hat & Hrest').
    destruct (task_at_step_other tw ev tw1 log1 p j _ Hinv Hat Hev Hnt Hstep)
      as (_ & (_ & En1 & Ec1) & -> & j' & Hat').
    apply (IH R HR). rewrite En1, Ec1. by exists p, j', c. }
  pose proof Hstep as Hstep'.
  destruct Hstep' as [fuel tw tw1 log1 Ht| | |]; [|by apply Hother..].
  cbn [ticks]. rewrite Nat2Z.inj_succ.
  destruct (Z.eq_dec R 0) as [->|HR0].
  - pose proof (tickHandler_fires t0 tw (proj1 Hinv) fuel tw1 log1 Hinv Hw Ht)
      as [Hh Hone].
    split; [lia|]. intros _. split.
    + rewrite with_key_app. by apply head_app_Some.
    + intros Hper. destruct (Hone Hper) as [Hk1 Hd1].
      destruct (steps_not_registered tw1 evs tw2 log2 _ Hinv1 Hk1 Hevs' Hrest)
        as [Hk2 Hd2].
      split; [done|]. rewrite dispatches_app. lia.
  - destruct (tickHandler_waits t0 tw (proj1 Hinv) R fuel tw1 log1 Hinv ltac:(lia) Hw Ht)
      as [Hd1 Hw1].
    destruct (IH (R - 1) ltac:(lia) Hw1) as [IH1 IH2].
    split.
    + intros Hle. destruct (IH1 ltac:(lia)) as [Hd2 Hw2].
      split; [rewrite dispatches_app; lia|].
      by replace (R - Z.succ (Z.of_nat (ticks evs))) with (R - 1 - Z.of_nat (ticks evs))
        by lia.
    + intros Hlt. destruct (IH2 ltac:(lia)) as [Hh Hone]. split.
      * by rewrite with_key_app, (with_key_nil _ _ Hd1).
      * intros Hper. destruct (Hone Hper). split; [done|].
        rewrite dispatches_app. lia.
Qed.

Lemma waits_armed tw t tw' :
  wheel_ok tw -> slotNum tw <= 2 ^ 62 -> Second <= interval tw <= maxDuration ->
  0 <= task_interval t <= maxDuration -> task_times t <> 0 ->
  addTask tw t = Ok tw' ->
  waits t (slotNum tw') (currentPos tw') (stepsOf tw (task_interval t)) tw'.
Proof.
  intros Hw Hn Hiv Hd Ht Hadd.
  destruct (tracking_facts (task_interval t) tw Hn Hiv Hd Hw)
    as (Hn' & Hs & Hcur & _ & Hsn & Hsn').
  destruct (addTask_framed (task_interval t) tw Hn Hiv Hd Hw tw t tw') as (l & Hl & ->);
    [done..|].
  cbn [slotNum currentPos set_timer set_slot set_slots].
  set (n := slotNum tw) in *. set (s := stepsOf tw (task_interval t)) in *.
  set (cur := currentPos tw) in *. set (pos := (cur + s) mod n) in *.
  assert (Hpos : 0 <= pos < n) by (apply Z.mod_pos_bound; lia).
  exists (Z.to_nat pos), (length l), (s / n).
  split_and!; [by apply task_at_appended|done|lia|].
  rewrite Z2Nat.id by lia.
  assert (Hmod : (pos - cur) mod n = s mod n).
  { unfold pos. rewrite Zminus_mod_idemp_l. f_equal. lia. }
  rewrite Hmod. pose proof (Z.div_mod s n ltac:(lia)). lia.
Qed.

(** [updateTask] writes to the task where it is. *)
Lemma waits_updateTask t0 n cur R tw u tw' :
  inv tw -> waits t0 n cur R tw -> up_key u = task_key t0 ->
  updateTask tw u = Ok tw' ->
  waits (updated u t0) n cur R tw'.
Proof.
  intros [Hw Hr] (p & j & c & Hat & Ht & Hc & He) Hk Hup.
  pose proof (task_at_registered tw p j _ Hr Hat) as Hreg. cbn in Hreg.
  destruct Hat as (l & Hp & Hj).
  destruct (updateTask_Ok _ _ _ Hup) as [[_ Hno]|(p' & l' & Hk' & Hp' & ->)];
    [congruence|].
  rewrite Hk, Hreg in Hk'. injection Hk' as Hpp. apply Nat2Z.inj in Hpp. subst p'.
  assert (l' = l) as -> by congruence.
  exists p, j, c. split_and!; [|done..].
  exists (update_loop u l). split.
  - rewrite slots_lookup_set_slot by (by eapply lookup_lt_Some). by rewrite decide_True.
  - unfold update_loop. rewrite list_lookup_fmap, Hj. cbn.
    by rewrite decide_True.
Qed.

Lemma steps_app_inv tw evs1 evs2 tw' log :
  steps tw (evs1 ++ evs2) tw' log ->
  exists tw1 log1 log2, steps tw evs1 tw1 log1 /\ steps tw1 evs2 tw' log2 /\
    log = log1 ++ log2.
Proof.
  revert tw log. induction evs1 as [|ev evs1 IH]; intros tw log Hsteps.
  { exists tw, [], log. split_and!; [constructor|done..]. }
  cbn in Hsteps.
  inversion Hsteps as [|? ? twa loga ? ? logb Hstep Hrest]; subst.
  destruct (IH _ _ Hrest) as (tw1 & log1 & log2 & H1 & H2 & ->).
  exists tw1, (loga ++ log1), log2. split_and!; [by econstructor|done|by rewrite app_assoc].
Qed.

(** *** A task that runs forever *)

Lemma scan_loop_forever k d fuel tw p0 tw' log' :
  inv tw -> forever k d tw ->
  scan_loop fuel tw p0 0 [] = Ok (tw', log') -> forever k d tw'.
Proof.
  intros Hinv Hfor.
  apply (scan_loop_rule (fun tw1 _ _ => inv tw1 /\ forever k d tw1)
           (fun tw1 _ => forever k d tw1)); [| |done].
  - intros tw1 i log [_ Hf]. by destruct (slots tw1 !! p0) as [[?|]|].
  - intros tw1 i log l t0 st (Hinv1 & (p & j & t & Hat & Hk & Ht & Hd)) Hp Hi Hst.
    pose proof (inv_scan_item _ _ _ _ _ _ _ Hinv1 Hp Hi Hst) as Hres.
    assert (Hat0 : task_at tw1 p0 i t0) by (by exists l).
    assert (Hgoal : match st with
                    | Continue tw2 _ _ | Done tw2 _ => forever k d tw2
                    end).
    { destruct (decide (task_key t0 = k)) as [Hk0|Hk0].
      - destruct (task_at_unique tw1 p j t p0 i t0 (proj2 Hinv1) Hat Hat0)
          as (-> & -> & ->); [congruence|].
        destruct (scan_item_Ok _ _ _ _ _ _ _ Hst)
          as [[? _]|[(_ & _ & ->)|(_ & _ & tw2 & Hre & ->)]]; [lia| |].
        + exists p0, i, (set_circle t0 (wrap64 (task_circle t0 - 1))).
          split_and!; [by eapply task_at_inserted|done..].
        + assert (forever k d tw2).
          { destruct (rearm_Ok _ _ _ Hre) as [[_ Hadd]|[Hper _]].
            - destruct (addTask_Ok _ _ _ Hadd) as (pos & c & l1 & _ & _ & Hl1 & ->).
              assert (Hrt : rearmed t0 = t0).
              { unfold rearmed. rewrite Ht. done. }
              rewrite Hrt. exists (Z.to_nat pos), (length l1), (set_circle t0 c).
              split_and!; [by apply task_at_appended|done..].
            - unfold periodic in Hper. rewrite Ht in Hper. done. }
          by destruct (l !! S i).
      - assert (Hne : p <> p0 \/ j <> i).
        { destruct (decide (p = p0)) as [->|]; [|by left]. right. intros ->.
          destruct Hat as (l' & Hp' & Hj'). assert (l' = l) as -> by congruence.
          congruence. }
        pose proof (scan_item_other_place _ _ _ _ _ _ _ _ _ _ Hp Hi Hat Hne Hst) as Hpl.
        destruct st as [tw2 i2 log2|tw2 log2].
        + destruct Hpl as (j' & Hat' & _). by exists p, j', t.
        + destruct Hpl as [(j' & Hat') _]. by exists p, j', t. }
    destruct st as [tw2 i2 log2|tw2 log2]; [|done]. split; [by destruct Hres|done].
Qed.

Lemma forever_steps k d tw evs tw' log :
  inv tw -> forever k d tw ->
  (forall ev, ev ∈ evs -> event_key ev <> Some k) ->
  steps tw evs tw' log -> forever k d tw'.
Proof.
  intros Hinv Hfor Hevs Hsteps.
  induction Hsteps as [tw|tw ev tw1 log1 evs tw2 log2 Hstep _ IH]; [done|].
  destruct (inv_step _ _ _ _ Hinv Hstep) as (Hinv1 & _).
  assert (Hev : event_key ev <> Some k) by (apply Hevs; left).
  apply IH; [done| |intros ev' Hev'; apply Hevs; by right].
  destruct Hfor as (p & j & t & Hat & Hk & Ht & Hd).
  assert (ev = Tick \/ ev <> Tick) as [->|Hnt] by (destruct ev; (by left) || (by right)).
  - inversion Hstep as [fuel ? ? ? Htick| | |]; subst.
    destruct (tickHandler_scan tw (proj1 Hinv) _ _ _ Htick) as (tw3 & Hscan & Hs & _).
    destruct (scan_loop_forever (task_key t) (task_interval t) fuel tw
                (Z.to_nat (currentPos tw)) tw3 log1 Hinv) as
      (p' & j' & t' & (l' & Hp' & Hj') & Hrest); [by exists p, j, t|done|].
    exists p', j', t'. split; [exists l'; by rewrite Hs|done].
  - destruct (task_at_step_other tw ev tw1 log1 p j t Hinv Hat
                ltac:(by rewrite Hk) Hnt Hstep) as (_ & _ & _ & j' & Hat').
    by exists p, j', t.
Qed.

(** *** No panic *)

Lemma sound_set_slot tw p l l' :
  sound tw -> slots tw !! p = Some (Some l) ->
  (forall t, t ∈ l' -> 0 <= task_interval t <= maxDuration) ->
  sound (set_slot tw p l').
Proof.
  intros [Hw Hn Hiv Hd Ht] Hp Hl'. split; [by apply wheel_ok_set_slot|done..| |done].
  intros q l1 t Hq Ht1.
  rewrite slots_lookup_set_slot in Hq by (by eapply lookup_lt_Some).
  destruct (decide (p = q)) as [<-|]; [|by eapply Hd].
  injection Hq as <-. by apply Hl'.
Qed.

Lemma sound_set_timer tw m :
  sound tw -> (forall k z, m !! k = Some z -> 0 <= z < slotNum tw) ->
  sound (set_timer tw m).
Proof. intros [Hw Hn Hiv Hd Ht] Hm. split; [by apply wheel_ok_set_timer|done..]. Qed.

Lemma sound_drop_item tw p i l t :
  sound tw -> slots tw !! p = Some (Some l) -> sound (drop_item tw p i l t).
Proof.
  intros Hs Hp. unfold drop_item. apply sound_set_timer.
  - apply (sound_set_slot tw p l); [done..|]. intros t' Ht'.
    apply (sound_delays tw Hs p l); [done|]. by eapply list_elem_of_delete_inv.
  - intros k z Hk. apply lookup_delete_Some in Hk as [_ Hk].
    by apply (sound_timer tw Hs k).
Qed.

Lemma sound_addTask tw t :
  sound tw -> 0 <= task_interval t <= maxDuration ->
  exists tw', addTask tw t = Ok tw' /\ sound tw' /\ same_frame tw tw'.
Proof.
  intros Hs Hd. assert (Hs' := Hs). destruct Hs' as [Hw Hn Hiv Hdel Htm].
  pose proof (ok_slotNum tw Hw) as Hn'. pose proof (ok_pos tw Hw) as Hc.
  set (st := stepsOf tw (task_interval t)).
  set (pos := (currentPos tw + st) mod slotNum tw).
  assert (Hpos : 0 <= pos < slotNum tw) by (apply Z.mod_pos_bound; lia).
  destruct (index_slot_in_range tw pos Hw Hpos) as (l & Hidx & Hl).
  unfold addTask. rewrite getPositionAndCircle_ok by lia.
  cbn [mbind result_bind]. fold st. fold pos. rewrite Hidx.
  eexists. split; [done|]. split; [|done].
  apply sound_set_timer.
  - apply (sound_set_slot tw _ l); [done..|]. intros t' Ht'.
    apply elem_of_app in Ht' as [Ht'|Ht']; [by apply (Hdel (Z.to_nat pos) l)|].
    by apply list_elem_of_singleton in Ht' as ->.
  - intros k z Hk. cbn [timer set_slot set_slots] in Hk.
    apply lookup_insert_Some in Hk as [[_ <-]|[_ Hk]]; [done|by apply (Htm k)].
Qed.

Lemma sound_updateTask tw u :
  sound tw -> 0 <= up_interval u <= maxDuration ->
  exists tw', updateTask tw u = Ok tw' /\ sound tw' /\ same_frame tw tw'.
Proof.
  intros Hs Hd. assert (Hs' := Hs). destruct Hs' as [Hw Hn Hiv Hdel Htm].
  unfold updateTask. destruct (timer tw !! up_key u) as [z|] eqn:Hk; [|by exists tw].
  destruct (index_slot_in_range tw z Hw (Htm _ _ Hk)) as (l & Hidx & Hl).
  rewrite Hidx. cbn [mbind result_bind]. eexists. split; [done|]. split; [|done].
  apply (sound_set_slot tw _ l); [done..|]. intros t Ht.
  unfold update_loop in Ht. apply list_elem_of_fmap in Ht as (t0 & -> & Ht0).
  destruct (decide _); [done|]. by apply (Hdel (Z.to_nat z) l).
Qed.

Lemma sound_removeTask tw k :
  sound tw -> exists tw', removeTask tw k = Ok tw' /\ sound tw' /\ same_frame tw tw'.
Proof.
  intros Hs. assert (Hs' := Hs). destruct Hs' as [Hw Hn Hiv Hdel Htm].
  unfold removeTask. destruct (timer tw !! k) as [z|] eqn:Hk; [|by exists tw].
  destruct (index_slot_in_range tw z Hw (Htm _ _ Hk)) as (l & Hidx & Hl).
  rewrite Hidx. cbn [mbind result_bind].
  destruct (remove_loop k l) as [l'|] eqn:Hrl; [|by exists tw].
  destruct (remove_loop_Some _ _ _ Hrl) as (i & t & Hi & _ & ->).
  eexists. split; [done|]. split; [|done].
  apply (sound_set_slot _ _ l).
  - apply sound_set_timer; [done|]. intros k' z' Hk'.
    apply lookup_delete_Some in Hk' as [_ Hk']. by apply (Htm k').
  - done.
  - intros t' Ht'. apply (Hdel (Z.to_nat z) l); [done|]. by eapply list_elem_of_delete_inv.
Qed.

Lemma sound_scan_item tw p i log l t :
  sound tw -> slots tw !! p = Some (Some l) -> l !! i = Some t ->
  exists st, scan_item tw p i log l t = Ok st /\
    match st with
    | Continue tw' _ _ | Done tw' _ => sound tw' /\ same_frame tw tw'
    end.
Proof.
  intros Hs Hp Hi.
  assert (Hd : 0 <= task_interval t <= maxDuration).
  { apply (sound_delays tw Hs p l); [done|]. by eapply list_elem_of_lookup_2. }
  pose proof (sound_drop_item tw p i l t Hs Hp) as Hs1.
  unfold scan_item. destruct (task_times t =? 0); [by eexists|].
  destruct (0 <? task_circle t).
  { eexists. split; [done|]. split; [|done].
    apply (sound_set_slot tw p l); [done..|]. intros t' Ht'.
    apply list_elem_of_lookup in Ht' as [j Hj].
    destruct (decide (i = j)) as [<-|Hne].
    - rewrite list_lookup_insert_eq in Hj by (by eapply lookup_lt_Some).
      by injection Hj as <-.
    - rewrite list_lookup_insert_ne in Hj by done.
      apply (sound_delays tw Hs p l); [done|]. by eapply list_elem_of_lookup_2. }
  destruct ((0 <? task_times t) || (task_times t =? -1)).
  - destruct (sound_addTask (drop_item tw p i l t)
                (if 0 <? task_times t then set_times t (wrap64 (task_times t - 1)) else t))
      as (tw' & Hadd & Hs' & Hf'); [done|by destruct (0 <? task_times t)|].
    rewrite Hadd. cbn [mbind result_bind].
    destruct (l !! S i); eexists; (split; [done|]); split; done.
  - cbn [mbind result_bind]. destruct (l !! S i); eexists; (split; [done|]); split; done.
Qed.

Lemma sound_scan_loop fuel p : forall tw i log,
  sound tw ->
  match scan_loop fuel tw p i log with
  | Ok (tw', _) => sound tw' /\ same_frame tw tw'
  | Panic _ => False
  | OutOfFuel => True
  end.
Proof.
  induction fuel as [|fuel IH]; intros tw i log Hs; [done|].
  cbn [scan_loop]. destruct (slots tw !! p) as [[l|]|] eqn:Hp; [|done..].
  destruct (l !! i) as [t|] eqn:Hi; [|done].
  destruct (sound_scan_item tw p i log l t Hs Hp Hi) as (st & -> & Hst).
  cbn [mbind result_bind]. destruct st as [tw1 i1 log1|tw1 log1]; [|done].
  destruct Hst as [Hs1 Hf1]. specialize (IH tw1 i1 log1 Hs1).
  destruct (scan_loop fuel tw1 p i1 log1) as [[tw2 log2]| |]; [|done..].
  destruct IH. split; [done|]. by eapply same_frame_trans.
Qed.

Lemma sound_tickHandler fuel tw : sound tw -> safely (tickHandler fuel tw).
Proof.
  intros Hs. assert (Hs' := Hs). destruct Hs' as [Hw Hn Hiv Hdel Htm].
  destruct (index_slot_in_range tw (currentPos tw) Hw (ok_pos tw Hw)) as (l & Hidx & Hl).
  destruct (tickHandler fuel tw) as [[tw' log]| |] eqn:Htick; [| |done].
  - destruct (tickHandler_Ok _ _ _ _ Htick) as (tw1 & Hscan & ->).
    destruct (wheel_ok_tickHandler _ _ _ _ Hw Htick) as (Hw' & Ei & En & _).
    unfold scanAddRunTask in Hscan. rewrite Hl in Hscan.
    pose proof (sound_scan_loop fuel (Z.to_nat (currentPos tw)) tw 0%nat [] Hs) as Hsl.
    rewrite Hscan in Hsl. destruct Hsl as [[_ Hn1 Hiv1 Hdel1 Htm1] _].
    cbn. split; [done|by rewrite En in *|by rewrite Ei in *|done|done].
  - unfold tickHandler in Htick. rewrite Hidx in Htick. cbn [mbind result_bind] in Htick.
    unfold scanAddRunTask in Htick. rewrite Hl in Htick.
    pose proof (sound_scan_loop fuel (Z.to_nat (currentPos tw)) tw 0%nat [] Hs) as Hsl.
    destruct (scan_loop fuel tw (Z.to_nat (currentPos tw)) 0 []) as [[tw1 log1]| |];
      [|done..].
    cbn [mbind result_bind] in Htick. by destruct (currentPos tw1 =? _).
Qed.

Lemma sound_handle fuel tw ev : sound tw -> event_ok ev -> safely (handle fuel tw ev).
Proof.
  intros Hs Hev. destruct ev as [|t|u|k|]; cbn [handle].
  - by apply sound_tickHandler.
  - destruct (sound_addTask tw t Hs Hev) as (tw' & -> & Hs' & _). done.
  - destruct (sound_updateTask tw u Hs Hev) as (tw' & -> & Hs' & _). done.
  - destruct (sound_removeTask tw k Hs) as (tw' & -> & Hs' & _). done.
  - done.
Qed.

Lemma sound_New interval slotNum tw :
  Second <= interval <= maxDuration -> slotNum <= 2 ^ 62 ->
  New interval slotNum = Some tw -> sound tw.
Proof.
  intros Hiv Hn HNew.
  assert (Hmax : slotNum <= maxInt) by (unfold maxInt; lia).
  destruct (inv_New _ _ _ Hmax HNew) as [Hw Hr].
  destruct (New_Some _ _ _ HNew) as (_ & Hpos & ->).
  split; [done..| |].
  - intros p l t Hp Ht. cbn in Hp. apply lookup_replicate in Hp as [Hl _].
    assert (l = []) as -> by congruence. by apply elem_of_nil in Ht.
  - intros k z Hk. cbn in Hk. by rewrite lookup_empty in Hk.
Qed.

(** *** A negative delay *)

Lemma getPositionAndCircle_negative tw c :
  0 < slotNum tw <= 2 ^ 62 -> 0 <= currentPos tw < slotNum tw ->
  Second <= interval tw <= maxDuration -> 1 <= c <= 9223372036 ->
  exists circle,
    getPositionAndCircle tw (- c * Second)
    = Ok (Z.rem (currentPos tw - c / wholeSeconds (interval tw)) (slotNum tw), circle).
Proof.
  intros Hn Hc Hiv Hcc.
  pose proof (wholeSeconds_ge_1 _ Hiv) as Hi1.
  pose proof (wholeSeconds_range (interval tw) ltac:(unfold Second in *; lia)) as Hi2.
  assert (H53 : 9223372036 < 2 ^ 53) by done.
  unfold getPositionAndCircle, go_div, go_rem.
  change (int_of_float64 (Seconds (- c * Second))) with (wholeSeconds (- c * Second)).
  change (int_of_float64 (Seconds (interval tw))) with (wholeSeconds (interval tw)).
  rewrite wholeSeconds_opp by lia.
  set (ivs := wholeSeconds (interval tw)) in *.
  destruct (Z.eqb_spec ivs 0); [lia|]. cbn [mbind result_bind].
  assert (Hq : Z.quot (- c) ivs = - (c / ivs)).
  { rewrite Z.quot_opp_l by lia. f_equal. apply Z.quot_div_nonneg; lia. }
  assert (Hqr : 0 <= c / ivs <= c).
  { split; [apply Z.div_pos; lia|]. apply Z.div_le_upper_bound; nia. }
  rewrite Hq, (wrap64_small (- (c / ivs))) by lia.
  destruct (Z.eqb_spec (slotNum tw) 0); [lia|]. cbn [mbind result_bind].
  rewrite wrap64_small by lia. eexists. do 3 f_equal; lia.
Qed.

Lemma addTask_negative_delay tw t c :
  wheel_ok tw -> slotNum tw <= 2 ^ 62 -> Second <= interval tw <= maxDuration ->
  task_interval t = - c * Second -> 1 <= c <= 9223372036 ->
  currentPos tw < c / wholeSeconds (interval tw) ->
  (c / wholeSeconds (interval tw) - currentPos tw) mod slotNum tw <> 0 ->
  addTask tw t = Panic IndexOutOfRange.
Proof.
  intros Hw Hn Hiv Hd Hc Hlt Hmod.
  pose proof (ok_slotNum tw Hw) as Hn'. pose proof (ok_pos tw Hw) as Hcur.
  destruct (getPositionAndCircle_negative tw c) as (circle & Hgp); [lia..|].
  unfold addTask. rewrite Hd, Hgp. cbn [mbind result_bind].
  set (q := c / wholeSeconds (interval tw)) in *.
  assert (Hneg : Z.rem (currentPos tw - q) (slotNum tw) < 0).
  { replace (currentPos tw - q) with (- (q - currentPos tw)) by lia.
    rewrite Z.rem_opp_l by lia. rewrite Z.rem_mod_nonneg by lia.
    pose proof (Z.mod_pos_bound (q - currentPos tw) (slotNum tw) ltac:(lia)). lia. }
  unfold index_slot. destruct (Z.ltb_spec (Z.rem (currentPos tw - q) (slotNum tw)) 0);
    [done|lia].
Qed.

(** *** The schedule of a task *)

Lemma rearmed_set_circle t c c' :
  set_circle (rearmed (set_circle t c)) c' = set_circle (rearmed t) c'.
Proof. unfold rearmed. cbn [task_times set_circle]. by destruct (0 <? task_times t). Qed.

Lemma task_key_set_circle t c : task_key (set_circle t c) = task_key t.
Proof. done. Qed.

Section Schedule.

(** The task that is followed, and the wheel at the beginning of the
    tick in which it runs. *)
Variables (t0 : task) (tw0 : TimeWheel).
Hypothesis Hslots : slotNum tw0 <= 2 ^ 62.
Hypothesis Hiv : Second <= interval tw0 <= maxDuration.
Hypothesis Hd : 0 <= task_interval t0 <= maxDuration.
Hypothesis Hw0 : wheel_ok tw0.

Local Abbreviation k := (task_key t0).
Local Abbreviation n := (slotNum tw0).
Local Abbreviation s := (stepsOf tw0 (task_interval t0)).
Local Abbreviation cur := (currentPos tw0).
Local Abbreviation p0 := (Z.to_nat (currentPos tw0)).
Local Abbreviation pos := (Z.to_nat ((currentPos tw0 + stepsOf tw0 (task_interval t0))
                                     mod slotNum tw0)).

Hypothesis Hoff : s mod n <> 0.

Lemma pos_off : pos <> p0.
Proof.
  destruct (tracking_facts (task_interval t0) tw0 Hslots Hiv Hd Hw0)
    as (Hn & Hs & Hcur & _).
  pose proof (Z.mod_pos_bound (cur + s) n ltac:(lia)) as Hb.
  intros E. apply Z2Nat.inj in E; [|lia..].
  apply Hoff. rewrite <- (Z.mod_small cur n) in E at 2 by lia.
  rewrite Z.add_mod in E by lia.
  rewrite (Z.mod_small cur n) in E by lia.
  pose proof (Z.mod_pos_bound s n ltac:(lia)) as Hsb.
  destruct (Z_lt_ge_dec (cur + s mod n) n).
  - rewrite Z.mod_small in E by lia. lia.
  - replace (cur + s mod n) with (cur + s mod n - n + 1 * n) in E by lia.
    rewrite Z.mod_add, Z.mod_small in E by lia. lia.
Qed.

(** The scan in which the task runs: it runs once, and it is armed again
    in another slot, out of the way of the scan. *)
Lemma scan_loop_runs_once fuel tw' log' j0 :
  inv tw0 ->
  task_at tw0 p0 j0 (set_circle t0 0) -> task_times t0 <> 0 ->
  scan_loop fuel tw0 p0 0 [] = Ok (tw', log') ->
  dispatches k log' = 1%nat /\ after_run t0 pos (s / n) tw'.
Proof.
  intros Hinv Hat0 Ht0. pose proof pos_off as Hpos.
  apply (scan_loop_rule
           (fun tw i log => inv tw /\ same_frame tw0 tw /\
              ((dispatches k log = 1%nat /\ after_run t0 pos (s / n) tw) \/
               (dispatches k log = 0%nat /\
                exists j, task_at tw p0 j (set_circle t0 0) /\ (i <= j)%nat)))
           (fun tw log => dispatches k log = 1%nat /\ after_run t0 pos (s / n) tw)).
  - intros tw i log (_ & _ & [Hd1|(_ & j & (l' & Hp' & Hj') & Hij)]).
    { by destruct (slots tw !! p0) as [[l|]|]. }
    rewrite Hp'. intros Hend.
    apply lookup_ge_None in Hend. apply lookup_lt_Some in Hj'. lia.
  - intros tw i log l t1 st (Hinv1 & Hf1 & Hcase) Hp Hi Hst.
    pose proof (inv_scan_item _ _ _ _ _ _ _ Hinv1 Hp Hi Hst) as Hres.
    pose proof (scan_item_log _ _ _ _ _ _ _ Hst) as Hlog.
    assert (Hat1 : task_at tw p0 i t1) by (by exists l).
    assert (Hframe : match st with
                     | Continue tw1 _ _ | Done tw1 _ => inv tw1 /\ same_frame tw0 tw1
                     end).
    { destruct st; destruct Hres; split; eauto using same_frame_trans. }
    assert (Hgoal : match st with
      | Continue tw1 i1 log1 =>
          (dispatches k log1 = 1%nat /\ after_run t0 pos (s / n) tw1) \/
          (dispatches k log1 = 0%nat /\
           exists j, task_at tw1 p0 j (set_circle t0 0) /\ (i1 <= j)%nat)
      | Done tw1 log1 => dispatches k log1 = 1%nat /\ after_run t0 pos (s / n) tw1
      end).
    2:{ destruct st; [split_and!; [apply Hframe..|done]|done]. }
    destruct Hcase as [[Hd1 Hafter]|(Hd0 & j & Hat & Hij)].
    + (* the task ran: the item is of another key *)
      assert (Hk1 : task_key t1 <> k).
      { unfold after_run in Hafter. destruct (periodic t0).
        - destruct Hafter as (j & Hat).
          intros E. destruct (task_at_unique tw _ _ _ _ _ _ (proj2 Hinv1) Hat Hat1)
            as (Hpp & _); [cbn [task_key set_circle]; by rewrite task_key_rearmed, E|done].
        - intros E. pose proof (task_at_registered tw p0 i t1 (proj2 Hinv1) Hat1) as Hreg.
          rewrite E in Hreg. congruence. }
      assert (Hd' : forall log1, log1 = log \/ log1 = log ++ [t1] ->
                dispatches k log1 = 1%nat).
      { intros log1 [->| ->]; [done|]. by rewrite dispatches_other. }
      assert (Hafter' : match st with
                        | Continue tw1 _ _ | Done tw1 _ => after_run t0 pos (s / n) tw1
                        end).
      { unfold after_run in *. destruct (periodic t0).
        - destruct Hafter as (j & Hat).
          pose proof (scan_item_other_place _ _ _ _ _ _ _ _ _ _ Hp Hi Hat
                        (or_introl Hpos) Hst) as Hpl.
          destruct st as [tw1 i1 log1|tw1 log1].
          + destruct Hpl as (j' & Hat' & _). by exists j'.
          + destruct Hpl as [(j' & Hat') _]. by exists j'.
        - pose proof (scan_item_not_registered _ _ _ _ _ _ _ _ Hinv1 Hp Hi Hafter Hst)
            as Hnr.
          destruct st; by destruct Hnr. }
      destruct st; [left|]; (split; [by apply Hd'|done]).
    + destruct (decide (task_key t1 = k)) as [Hk1|Hk1].
      * destruct (task_at_unique tw p0 j (set_circle t0 0) p0 i t1 (proj2 Hinv1) Hat Hat1)
          as (_ & -> & <-); [by rewrite Hk1|].
        destruct (scan_item_Ok _ _ _ _ _ _ _ Hst)
          as [[? _]|[(_ & Hc1 & _)|(_ & _ & tw1 & Hre & ->)]];
          [done|cbn in Hc1; lia|].
        assert (Hran : dispatches k (log ++ [set_circle t0 0]) = 1%nat /\
                       after_run t0 pos (s / n) tw1).
        { split.
          - change k with (task_key (set_circle t0 0)).
            rewrite dispatches_same. cbn [task_key set_circle]. by rewrite Hd0.
          - unfold after_run.
            destruct (rearm_Ok _ _ _ Hre) as [[Hper Hadd]|[Hper ->]];
              rewrite periodic_set_circle in Hper; rewrite Hper.
            + assert (Hwd : wheel_ok (drop_item tw p0 i l (set_circle t0 0)))
                by (apply wheel_ok_drop_item; apply Hinv1).
              destruct (addTask_framed (task_interval t0) tw0 Hslots Hiv Hd Hw0
                          (drop_item tw p0 i l (set_circle t0 0))
                          (rearmed (set_circle t0 0)) tw1) as (l1 & Hl1 & ->);
                [done|done| |done|].
              { unfold rearmed. cbn. by destruct (0 <? task_times t0). }
              rewrite rearmed_set_circle. exists (length l1).
              by apply task_at_appended.
            + apply (timer_drop_item tw p0 i l (set_circle t0 0)). }
        destruct (l !! S i); [by left|done].
      * assert (Hne : p0 <> p0 \/ j <> i).
        { right. intros ->. destruct Hat as (l' & Hp' & Hj').
          assert (l' = l) as -> by congruence.
          assert (t1 = set_circle t0 0) as -> by congruence. done. }
        pose proof (scan_item_other_place _ _ _ _ _ _ _ _ _ _ Hp Hi Hat Hne Hst) as Hpl.
        assert (Hd' : forall log1, log1 = log \/ log1 = log ++ [t1] ->
                  dispatches k log1 = 0%nat).
        { intros log1 [->| ->]; [done|]. by rewrite dispatches_other. }
        destruct st as [tw1 i1 log1|tw1 log1].
        -- destruct Hpl as (j' & Hat' & Hside).
           right. split; [by apply Hd'|]. exists j'.
           split; [done|]. by apply (Hside eq_refl).
        -- destruct Hpl as [_ Hside]. specialize (Hside eq_refl). lia.
  - split_and!; [done..|]. right. split; [done|]. exists j0. split; [done|lia].
Qed.

(** The tick in which the task runs. *)
Lemma tickHandler_runs_once fuel tw' log :
  inv tw0 -> waits t0 n cur 0 tw0 ->
  tickHandler fuel tw0 = Ok (tw', log) ->
  dispatches k log = 1%nat /\ after_run t0 pos (s / n) tw'.
Proof.
  intros Hinv (p & j & c & Hat & Ht & Hc0 & He) Htick.
  pose proof (ok_slotNum tw0 Hw0) as Hn. pose proof (ok_pos tw0 Hw0) as Hc.
  destruct (tickHandler_scan tw0 Hw0 _ _ _ Htick) as (tw1 & Hscan & Hsl & Htm).
  pose proof (Z.mod_pos_bound (Z.of_nat p - cur) n ltac:(lia)) as Hm.
  assert (c = 0) as -> by nia.
  assert (Hmz : (Z.of_nat p - cur) mod n = 0) by nia.
  assert (p = p0) as ->.
  { destruct Hat as (l & Hp & _).
    apply lookup_lt_Some in Hp. rewrite (ok_length tw0 Hw0) in Hp.
    apply Z.mod_divide in Hmz; [|lia]. destruct Hmz as [q E].
    assert (q = 0) by nia. lia. }
  destruct (scan_loop_runs_once fuel tw1 log j Hinv Hat Ht Hscan) as [Hd1 Hafter].
  split; [done|]. unfold after_run, task_at in *. rewrite Hsl, Htm. done.
Qed.

(** How long the task that was armed again waits, counted from the next
    tick. *)
Lemma after_run_waits tw' :
  slotNum tw' = n -> currentPos tw' = (cur + 1) mod n ->
  periodic t0 = true -> task_times (rearmed t0) <> 0 ->
  after_run t0 pos (s / n) tw' ->
  waits (rearmed t0) (slotNum tw') (currentPos tw') (s - 1) tw'.
Proof.
  intros En Ec Hper Ht Hafter. unfold after_run in Hafter. rewrite Hper in Hafter.
  destruct Hafter as (j & Hat).
  destruct (tracking_facts (task_interval t0) tw0 Hslots Hiv Hd Hw0)
    as (Hn & Hs & Hcur & _ & Hsn & Hsn').
  pose proof (Z.mod_pos_bound (cur + s) n ltac:(lia)) as Hb.
  exists pos, j, (s / n). split_and!; [done|done|lia|].
  rewrite En, Ec, Zminus_mod_idemp_r, Z2Nat.id by lia.
  rewrite Zminus_mod_idemp_l.
  replace (cur + s - (cur + 1)) with (s - 1) by lia.
  rewrite mod_pred by (done || lia).
  pose proof (Z.div_mod s n ltac:(lia)). lia.
Qed.

End Schedule.

(** A task with no run left is not started any more. *)
Lemma spent_steps k d tw p j t evs tw' log :
  inv tw -> slotNum tw <= 2 ^ 62 -> Second <= interval tw <= maxDuration ->
  0 <= d <= maxDuration ->
  task_at tw p j t -> task_key t = k -> task_interval t = d -> task_times t = 0 ->
  0 <= task_circle t <= stepsOf tw d / slotNum tw ->
  (forall ev, ev ∈ evs -> event_key ev <> Some k) ->
  steps tw evs tw' log ->
  dispatches k log = 0%nat.
Proof.
  intros Hinv Hn Hiv Hd Hat Hk Hint Ht Hc Hevs Hsteps.
  assert (Htr : tracks k d (weight (slotNum tw) (stepsOf tw d) t
                            + (Z.of_nat p - currentPos tw) mod slotNum tw + 1) tw 0).
  { right. exists p, j, t. split; [|lia]. unfold holds_task. split_and!; done || lia. }
  pose proof (tracks_steps k d _ tw 0 evs tw' log Hinv Hn Hiv Hd
                ltac:(unfold maxInt; lia) Htr Hevs Hsteps) as Htr'.
  pose proof (tracks_nonneg _ _ _ _ _ Htr'). lia.
Qed.

Lemma runs_by_next s R m :
  0 < R -> runs_by s R (S m) = runs_by s (R - 1) m.
Proof.
  intros HR. unfold runs_by. rewrite Nat2Z.inj_succ.
  destruct (Z.leb_spec (Z.succ (Z.of_nat m)) R), (Z.leb_spec (Z.of_nat m) (R - 1));
    try lia. do 2 f_equal. lia.
Qed.

Lemma runs_by_first s m :
  0 < s -> runs_by s 0 (S m) = 1 + runs_by s (s - 1) m.
Proof.
  intros Hs. unfold runs_by. rewrite Nat2Z.inj_succ.
  destruct (Z.leb_spec (Z.succ (Z.of_nat m)) 0); [lia|].
  replace (Z.succ (Z.of_nat m) - 0 - 1) with (Z.of_nat m) by lia.
  destruct (Z.leb_spec (Z.of_nat m) (s - 1)).
  - rewrite Z.div_small by lia. lia.
  - replace (Z.of_nat m) with (Z.of_nat m - (s - 1) - 1 + 1 * s) at 1 by lia.
    rewrite Z.div_add by lia. lia.
Qed.

Lemma runs_by_nonneg s R m : 0 < s -> 0 <= R -> 0 <= runs_by s R m.
Proof.
  intros Hs HR. unfold runs_by. destruct (Z.leb_spec (Z.of_nat m) R); [lia|].
  assert (0 <= (Z.of_nat m - R - 1) / s) by (apply Z.div_pos; lia). lia.
Qed.

(** The runs of a task that waits, when its delay is no whole number of
    rotations: the first in the tick it waits for, the following [s]
    ticks apart, as many as [times] allows. *)
Lemma schedule_steps k d tw evs tw' log :
  inv tw -> slotNum tw <= 2 ^ 62 -> Second <= interval tw <= maxDuration ->
  0 <= d <= maxDuration -> stepsOf tw d mod slotNum tw <> 0 ->
  (forall ev, ev ∈ evs -> event_key ev <> Some k) ->
  steps tw evs tw' log ->
  forall t R,
    task_key t = k -> task_interval t = d ->
    task_times t = -1 \/ 1 <= task_times t <= maxInt ->
    0 <= R <= stepsOf tw d ->
    waits t (slotNum tw) (currentPos tw) R tw ->
    Z.of_nat (dispatches k log) = cap (task_times t) (runs_by (stepsOf tw d) R (ticks evs)).
Proof.
  intros Hinv Hn Hiv Hd Hoff Hevs Hsteps.
  induction Hsteps as [tw|tw ev tw1 log1 evs tw2 log2 Hstep Hrest IH];
    intros t R Hk Hint Ht HR Hw.
  { cbn. unfold runs_by, cap. destruct (Z.leb_spec (Z.of_nat 0) R); [|lia].
    destruct (Z.eqb_spec (task_times t) (-1)); lia. }
  pose proof (stepsOf_range tw d Hiv Hd) as Hs.
  assert (Hspos : 0 < stepsOf tw d).
  { destruct (Z.eq_dec (stepsOf tw d) 0) as [E|]; [|lia].
    rewrite E, Z.mod_0_l in Hoff; [done|]. pose proof (ok_slotNum tw (proj1 Hinv)). lia. }
  destruct (inv_step _ _ _ _ Hinv Hstep) as (Hinv1 & Ei & En).
  assert (Hs1 : stepsOf tw1 d = stepsOf tw d) by (unfold stepsOf; by rewrite Ei).
  assert (Hev : event_key ev <> Some k) by (apply Hevs; left).
  assert (Hevs' : forall ev', ev' ∈ evs -> event_key ev' <> Some k).
  { intros ev' Hev'. apply Hevs. by right. }
  specialize (IH Hinv1 ltac:(by rewrite En) ltac:(by rewrite Ei)
                ltac:(by rewrite Hs1, En) Hevs').
  rewrite Hs1 in IH. rewrite dispatches_app, Nat2Z.inj_add.
  assert (Hother : ev <> Tick ->
    Z.of_nat (dispatches k log1) + Z.of_nat (dispatches k log2)
    = cap (task_times t) (runs_by (stepsOf tw d) R (ticks (ev :: evs)))).
  { intros Hnt. replace (ticks (ev :: evs)) with (ticks evs) by (by destruct ev).
    destruct Hw as (p & j & c & Hat & Hrest').
    destruct (task_at_step_other tw ev tw1 log1 p j _ Hinv Hat
                ltac:(by rewrite task_key_set_circle, Hk) Hnt Hstep)
      as (_ & (_ & En1 & Ec1) & -> & j' & Hat').
    cbn. apply (IH t R); [done..|]. rewrite En1, Ec1. by exists p, j', c. }
  pose proof Hstep as Hstep'.
  destruct Hstep' as [fuel tw tw1 log1 Htick| | |]; [|by apply Hother..].
  cbn [ticks].
  destruct (inv_tickHandler _ _ _ _ Hinv Htick) as (_ & _ & _ & Ec).
  destruct (Z.eq_dec R 0) as [->|HR0].
  - (* the tick in which the task runs *)
    assert (Hd' : 0 <= task_interval t <= maxDuration) by (by rewrite Hint).
    assert (Hoff' : stepsOf tw (task_interval t) mod slotNum tw <> 0) by (by rewrite Hint).
    destruct (tickHandler_runs_once t tw Hn Hiv Hd' (proj1 Hinv) Hoff' fuel tw1 log1 Hinv
                Hw Htick) as [Hd1 Hafter].
    rewrite Hk in Hd1. rewrite Hd1.
    rewrite runs_by_first by done.
    pose proof (runs_by_nonneg (stepsOf tw d) (stepsOf tw d - 1) (ticks evs)
                  ltac:(lia) ltac:(lia)) as Hnn.
    destruct Ht as [Hforever|Hfinite].
    + (* forever *)
      assert (Hper : periodic t = true) by (unfold periodic; by rewrite Hforever).
      assert (Hre : rearmed t = t) by (unfold rearmed; by rewrite Hforever).
      pose proof (after_run_waits t tw Hn Hiv Hd' (proj1 Hinv) Hoff' tw1 En Ec Hper
                    ltac:(rewrite Hre, Hforever; done) Hafter) as Hw1.
      rewrite Hre, Hint in Hw1.
      rewrite (IH t (stepsOf tw d - 1)); [|done|done|by left|lia|done].
      unfold cap. rewrite Hforever. cbn. lia.
    + assert (Hper : periodic t = true).
      { unfold periodic. destruct (Z.ltb_spec 0 (task_times t)); [done|lia]. }
      assert (Hre : rearmed t = set_times t (task_times t - 1)).
      { unfold rearmed. destruct (Z.ltb_spec 0 (task_times t)); [|lia].
        rewrite wrap64_small; [done|]. unfold maxInt in *. lia. }
      assert (Hcap : cap (task_times t) (1 + runs_by (stepsOf tw d) (stepsOf tw d - 1)
                                               (ticks evs))
                     = 1 + Z.min (task_times t - 1)
                             (runs_by (stepsOf tw d) (stepsOf tw d - 1) (ticks evs))).
      { unfold cap. destruct (Z.eqb_spec (task_times t) (-1)); lia. }
      rewrite Hcap. change (Z.of_nat 1) with 1. f_equal.
      destruct (Z.eq_dec (task_times t) 1) as [E1|E1].
      * (* the last run: the task is left with no run *)
        unfold after_run in Hafter. rewrite Hper, Hre, Hint in Hafter.
        destruct Hafter as (j & Hat).
        assert (Hzero : dispatches k log2 = 0%nat).
        { eapply (spent_steps k d tw1); [exact Hinv1|by rewrite En|by rewrite Ei|done|
            exact Hat|done|done|cbn; lia| |done|done].
          cbn [task_circle set_circle]. rewrite Hs1, En.
          pose proof (ok_slotNum tw (proj1 Hinv)).
          split; [apply Z.div_pos; lia|lia]. }
        rewrite Hzero. lia.
      * pose proof (after_run_waits t tw Hn Hiv Hd' (proj1 Hinv) Hoff' tw1 En Ec Hper
                      ltac:(rewrite Hre; cbn; lia) Hafter) as Hw1.
        rewrite Hre, Hint in Hw1.
        rewrite (IH (set_times t (task_times t - 1)) (stepsOf tw d - 1));
          [|done|done|right; cbn; unfold maxInt in *; lia|lia|done].
        unfold cap. cbn [task_times set_times].
        destruct (Z.eqb_spec (task_times t - 1) (-1)); lia.
  - rewrite <- Hk in *.
    destruct (tickHandler_waits t tw (proj1 Hinv) R fuel tw1 log1 Hinv
                ltac:(unfold maxInt; lia) Hw Htick) as [Hd1 Hw1].
    rewrite Hd1, runs_by_next by lia.
    rewrite (IH t (R - 1)); [lia|done|done|done|lia|done].
Qed.

(** *** A task alone on the wheel *)

Section Lone.

Variables (iv n : Z) (p : nat).
Hypothesis Hn : 0 < n <= 2 ^ 62.
Hypothesis Hp : (p < Z.to_nat n)%nat.
Hypothesis Hiv : Second <= iv <= maxDuration.

Lemma slots_lone cur t q :
  slots (lone_wheel iv n cur p t) !! q
  = if decide (p = q) then Some (Some [t])
    else if decide (q < Z.to_nat n)%nat then Some (Some []) else None.
Proof.
  cbn. destruct (decide (p = q)) as [<-|Hne].
  - by rewrite list_lookup_insert_eq by (by rewrite length_replicate).
  - rewrite list_lookup_insert_ne by done. destruct (decide (q < Z.to_nat n)%nat).
    + by apply lookup_replicate_2.
    + apply lookup_ge_None. rewrite length_replicate. lia.
Qed.

Lemma wheel_ok_lone cur t : 0 <= cur < n -> wheel_ok (lone_wheel iv n cur p t).
Proof.
  intros Hc. split.
  - cbn. assert (2 ^ 62 < 2 ^ 63) by done. lia.
  - cbn. by rewrite length_insert, length_replicate.
  - intros q s Hq. rewrite slots_lone in Hq.
    destruct (decide (p = q)); [by simplify_eq|].
    destruct (decide (q < Z.to_nat n)%nat); by simplify_eq.
  - done.
Qed.

Lemma set_slot_lone cur t l t' :
  task_key t' = task_key t ->
  set_slot (lone_wheel iv n cur p t) p l
  = mkTimeWheel iv (<[p := Some l]> (replicate (Z.to_nat n) (Some [])))
      {[task_key t' := Z.of_nat p]} cur n.
Proof.
  intros Hk. unfold set_slot, set_slots, lone_wheel. cbn.
  by rewrite list_insert_insert_eq, Hk.
Qed.

(** The scan of a tick on such a wheel, for a task that runs forever
    with a delay of a whole number of rotations. *)
Lemma scan_loop_lone fuel cur t tw' log :
  0 <= cur < n -> 0 <= task_interval t <= maxDuration -> task_times t = -1 ->
  (wholeSeconds (task_interval t) / wholeSeconds iv) mod n = 0 ->
  0 <= task_circle t < 2 ^ 62 ->
  scan_loop fuel (lone_wheel iv n cur p t) (Z.to_nat cur) 0 [] = Ok (tw', log) ->
  if decide (Z.of_nat p = cur) then
    if decide (0 < task_circle t) then
      tw' = lone_wheel iv n cur p (set_circle t (task_circle t - 1)) /\ log = []
    else
      tw' = lone_wheel iv n cur p
              (set_circle t (wholeSeconds (task_interval t) / wholeSeconds iv / n)) /\
      log = [t]
  else tw' = lone_wheel iv n cur p t /\ log = [].
Proof.
  intros Hc Hd Ht Hs Hcirc Hscan.
  destruct fuel as [|fuel]; [done|]. cbn [scan_loop] in Hscan.
  rewrite slots_lone in Hscan.
  destruct (decide (Z.of_nat p = cur)) as [E|E].
  2:{ rewrite decide_False, decide_True in Hscan by lia. cbn in Hscan.
      by injection Hscan as <- <-. }
  rewrite decide_True in Hscan by lia. cbn [lookup list_lookup] in Hscan.
  destruct (decide (0 < task_circle t)) as [Hpos|Hpos].
  - unfold scan_item in Hscan. rewrite Ht in Hscan. cbn [Z.eqb] in Hscan.
    rewrite (proj2 (Z.ltb_lt _ _) Hpos) in Hscan. cbn [mbind result_bind] in Hscan.
    rewrite wrap64_small in Hscan by (assert (2 ^ 62 < 2 ^ 63) by done; lia).
    replace (Z.to_nat cur) with p in Hscan by lia.
    cbn [insert list_insert] in Hscan.
    rewrite (set_slot_lone cur t _ (set_circle t (task_circle t - 1)) eq_refl) in Hscan.
    destruct fuel as [|fuel]; [done|]. cbn [scan_loop] in Hscan.
    cbn [slots] in Hscan.
    rewrite list_lookup_insert_eq in Hscan by (by rewrite length_replicate).
    cbn in Hscan. by injection Hscan as <- <-.
  - replace (Z.to_nat cur) with p in Hscan by lia.
    rewrite scan_item_due in Hscan by lia.
    unfold rearm, periodic, rearmed in Hscan. rewrite Ht in Hscan.
    cbn [Z.ltb Z.eqb Z.compare orb] in Hscan.
    set (s := wholeSeconds (task_interval t) / wholeSeconds iv) in *.
    set (twd := drop_item (lone_wheel iv n cur p t) p 0 [t] t) in *.
    assert (Hgp : getPositionAndCircle twd (task_interval t) = Ok (cur, s / n)).
    { rewrite getPositionAndCircle_ok by (cbn; lia).
      cbn [currentPos slotNum twd drop_item set_timer set_slot set_slots lone_wheel].
      change (stepsOf twd (task_interval t)) with s.
      do 2 f_equal. rewrite Z.add_mod, Hs, Z.add_0_r, Z.mod_mod by lia.
      apply Z.mod_small. lia. }
    unfold addTask in Hscan. rewrite Hgp in Hscan. cbn [mbind result_bind] in Hscan.
    assert (Hsl : slots twd = replicate (Z.to_nat n) (Some [])).
    { cbn. rewrite list_insert_insert_eq. apply list_insert_id.
      by apply lookup_replicate_2. }
    assert (Hidx : index_slot twd cur = Ok (Some [])).
    { unfold index_slot. destruct (Z.ltb_spec cur 0); [lia|].
      rewrite Hsl, lookup_replicate_2 by lia. done. }
    rewrite Hidx in Hscan. cbn [mbind result_bind lookup list_lookup app] in Hscan.
    injection Hscan as <- <-. split; [|done].
    unfold set_timer, set_slot, set_slots, lone_wheel. cbn [slots timer interval
      currentPos slotNum task_key set_circle]. rewrite Hsl.
    replace (Z.to_nat cur) with p by lia. f_equal.
    cbn [twd drop_item set_timer timer lone_wheel].
    rewrite delete_singleton_eq, insert_empty. by rewrite E.
Qed.

Lemma tickHandler_lone fuel cur t tw' log :
  0 <= cur < n -> 0 <= task_interval t <= maxDuration -> task_times t = -1 ->
  (wholeSeconds (task_interval t) / wholeSeconds iv) mod n = 0 ->
  0 <= task_circle t < 2 ^ 62 ->
  tickHandler fuel (lone_wheel iv n cur p t) = Ok (tw', log) ->
  if decide (Z.of_nat p = cur) then
    if decide (0 < task_circle t) then
      tw' = lone_wheel iv n ((cur + 1) mod n) p (set_circle t (task_circle t - 1)) /\
      log = []
    else
      tw' = lone_wheel iv n ((cur + 1) mod n) p
              (set_circle t (wholeSeconds (task_interval t) / wholeSeconds iv / n)) /\
      log = [t]
  else tw' = lone_wheel iv n ((cur + 1) mod n) p t /\ log = [].
Proof.
  intros Hc Hd Ht Hs Hcirc Htick.
  pose proof (wheel_ok_lone cur t Hc) as Hw.
  destruct (wheel_ok_tickHandler _ _ _ _ Hw Htick) as (_ & Ei & En & Hcur).
  destruct (tickHandler_scan _ Hw _ _ _ Htick) as (tw1 & Hscan & Hsl & Htm).
  assert (Hshape : forall t1, tw1 = lone_wheel iv n cur p t1 ->
            tw' = lone_wheel iv n ((cur + 1) mod n) p t1).
  { intros t1 E. rewrite E in Hsl, Htm. destruct tw' as [iv' sl' tm' cp' sn'].
    cbn in *. by subst. }
  pose proof (scan_loop_lone fuel cur t tw1 log Hc Hd Ht Hs Hcirc Hscan) as Hres.
  destruct (decide (Z.of_nat p = cur)).
  - destruct (decide (0 < task_circle t)); destruct Hres as [E ->];
      (split; [by apply Hshape|done]).
  - destruct Hres as [E ->]. split; [by apply Hshape|done].
Qed.

(** The runs of such a task in a run of ticks: the first when its
    circles and the way of the cursor are used up, the following a delay
    and a rotation apart. *)
Lemma lone_steps m : forall cur t tw2 log,
  0 <= cur < n -> 0 <= task_interval t <= maxDuration -> task_times t = -1 ->
  (wholeSeconds (task_interval t) / wholeSeconds iv) mod n = 0 ->
  0 <= task_circle t <= wholeSeconds (task_interval t) / wholeSeconds iv / n ->
  steps (lone_wheel iv n cur p t) (replicate m Tick) tw2 log ->
  Z.of_nat (dispatches (task_key t) log)
  = runs_by (wholeSeconds (task_interval t) / wholeSeconds iv + n)
      (task_circle t * n + (Z.of_nat p - cur) mod n) m.
Proof.
  induction m as [|m IH]; intros cur t tw2 log Hc Hd Ht Hs Hcirc Hsteps.
  { inversion Hsteps; subst. cbn. unfold runs_by.
    pose proof (Z.mod_pos_bound (Z.of_nat p - cur) n ltac:(lia)).
    destruct (Z.leb_spec (Z.of_nat 0) (task_circle t * n + (Z.of_nat p - cur) mod n));
      [done|nia]. }
  set (s := wholeSeconds (task_interval t) / wholeSeconds iv) in *.
  assert (Hsr : 0 <= s <= 9223372037).
  { pose proof (wholeSeconds_ge_1 _ Hiv). pose proof (wholeSeconds_range _ Hd).
    unfold s. split; [apply Z.div_pos; lia|]. apply Z.div_le_upper_bound; nia. }
  assert (Hsn : 0 <= s / n <= s).
  { split; [apply Z.div_pos; lia|]. apply Z.div_le_upper_bound; nia. }
  assert (Hsd : s / n * n = s).
  { pose proof (Z.div_mod s n ltac:(lia)). lia. }
  assert (H62 : 9223372037 < 2 ^ 62) by done.
  cbn [replicate] in Hsteps.
  inversion Hsteps as [|? ? tw1 log1 ? ? log2 Hstep Hrest]; subst.
  inversion Hstep as [fuel ? ? ? Htick| | |]; subst.
  pose proof (tickHandler_lone fuel cur t tw1 log1 Hc Hd Ht Hs ltac:(lia) Htick) as Hres.
  pose proof (Z.mod_pos_bound (Z.of_nat p - cur) n ltac:(lia)) as Hmb.
  assert (Hc' : 0 <= (cur + 1) mod n < n) by (apply Z.mod_pos_bound; lia).
  rewrite dispatches_app, Nat2Z.inj_add.
  destruct (decide (Z.of_nat p = cur)) as [E|E].
  - assert (Hm0 : (Z.of_nat p - cur) mod n = 0).
    { replace (Z.of_nat p - cur) with 0 by lia. by apply Z.mod_0_l; lia. }
    assert (Hm1 : (Z.of_nat p - (cur + 1) mod n) mod n = n - 1).
    { rewrite Zminus_mod_idemp_r. replace (Z.of_nat p - (cur + 1)) with (-1) by lia.
      apply mod_minus_one. lia. }
    destruct (decide (0 < task_circle t)) as [Hpos|Hpos]; destruct Hres as [-> ->].
    + assert (Hcirc' : 0 <= task_circle t - 1 <= s / n) by lia.
      pose proof (IH ((cur + 1) mod n) (set_circle t (task_circle t - 1)) tw2 log2
                    Hc' Hd Ht Hs Hcirc' Hrest) as Hih.
      cbn [task_interval task_circle task_key set_circle] in Hih. fold s in Hih.
      rewrite Hih, Hm0, Hm1, runs_by_next by nia.
      change (Z.of_nat (dispatches (task_key t) [])) with 0.
      rewrite Z.add_0_l. f_equal. lia.
    + assert (Hcirc' : 0 <= s / n <= s / n) by lia.
      pose proof (IH ((cur + 1) mod n) (set_circle t (s / n)) tw2 log2
                    Hc' Hd Ht Hs Hcirc' Hrest) as Hih.
      cbn [task_interval task_circle task_key set_circle] in Hih. fold s in Hih.
      rewrite Hih.
      assert (Hone : dispatches (task_key t) [t] = 1%nat).
      { unfold dispatches, with_key. by rewrite filter_cons, decide_True by done. }
      rewrite Hone, Hm0, Hm1.
      assert (task_circle t = 0) as -> by lia.
      rewrite Z.mul_0_l, Z.add_0_l, (runs_by_first (s + n)) by lia.
      rewrite Hsd. change (Z.of_nat 1) with 1. do 2 f_equal. lia.
  - destruct Hres as [-> ->].
    rewrite (IH ((cur + 1) mod n) t tw2 log2 Hc' Hd Ht Hs Hcirc Hrest). fold s.
    assert (Hne : (Z.of_nat p - cur) mod n <> 0).
    { intros E0. apply Z.mod_divide in E0; [|lia]. destruct E0 as [q E0].
      assert (q = 0) by nia. lia. }
    rewrite Zminus_mod_idemp_r.
    replace (Z.of_nat p - (cur + 1)) with (Z.of_nat p - cur - 1) by lia.
    rewrite (mod_pred (Z.of_nat p - cur) n) by (done || lia).
    rewrite runs_by_next by nia.
    change (Z.of_nat (dispatches (task_key t) [])) with 0.
    rewrite Z.add_0_l. f_equal. lia.
Qed.

End Lone.

(** *** The claims of the specification *)

(** C1, as amended.  For a wheel whose interval is at least one second and
    a valid delay [d > 0], [addTask] returns, and it puts the task at the
    back of the slot [pos = (currentPos + steps) mod slotNum] with
    [circle = steps / slotNum], the registry pointing at [pos], where the
    cursor is the one of the moment and [steps] is the quotient of the
    whole seconds of [d] by the whole seconds of the wheel's interval (not
    the quotient of the two durations).  The whole seconds of a duration are
    its seconds as a float64 truncated to an integer: the integer quotient
    by one second, or one more. *)
Theorem C1_addTask_places_by_whole_seconds tw t :
  wheel_ok tw -> slotNum tw <= 2 ^ 62 ->
  Second <= interval tw <= maxDuration ->
  0 < task_interval t <= maxDuration ->
  let steps := wholeSeconds (task_interval t) / wholeSeconds (interval tw) in
  let pos := (currentPos tw + steps) mod slotNum tw in
  let circle := steps / slotNum tw in
  task_interval t / Second <= wholeSeconds (task_interval t)
    <= task_interval t / Second + 1 /\
  exists l,
    slots tw !! Z.to_nat pos = Some (Some l) /\
    addTask tw t
    = Ok (mkTimeWheel (interval tw)
            (<[Z.to_nat pos := Some (l ++ [set_circle t circle])]> (slots tw))
            (<[task_key t := pos]> (timer tw)) (currentPos tw) (slotNum tw)) /\
    forall tw', addTask tw t = Ok tw' -> placed tw' t pos circle.
Proof.
  intros Hok Hn Hi Hd steps pos circle.
  split; [apply wholeSeconds_bounds; lia|].
  pose proof (ok_slotNum tw Hok) as Hn'. pose proof (ok_pos tw Hok) as Hc.
  assert (Hpos : 0 <= pos < slotNum tw) by (apply Z.mod_pos_bound; lia).
  destruct (index_slot_in_range tw pos Hok Hpos) as (l & Hidx & Hl).
  assert (Hadd : addTask tw t
    = Ok (mkTimeWheel (interval tw)
            (<[Z.to_nat pos := Some (l ++ [set_circle t circle])]> (slots tw))
            (<[task_key t := pos]> (timer tw)) (currentPos tw) (slotNum tw))).
  { unfold addTask. rewrite getPositionAndCircle_ok by lia.
    unfold stepsOf. cbn [mbind result_bind]. fold steps. fold pos. fold circle.
    rewrite Hidx.
    cbn [mbind result_bind]. reflexivity. }
  exists l. split_and!; [done..|]. intros tw' Htw'. rewrite Hadd in Htw'.
  injection Htw' as <-. split; cbn.
  - apply lookup_insert_eq.
  - exists (l ++ [set_circle t circle]). split; [|apply last_snoc].
    apply list_lookup_insert_eq. by eapply lookup_lt_Some.
Qed.

(** C3.  In a wheel whose positive interval is shorter than one second the
    whole seconds of the interval are 0: every [addTask], and the re-arming
    of every periodic task that fires, panics with an integer division by
    zero.  With an interval of one second or more the placement arithmetic
    returns for every delay. *)
Theorem C3_placement_total_iff_whole_second tw :
  0 < interval tw <= maxDuration -> 0 < slotNum tw ->
  (interval tw < Second ->
     wholeSeconds (interval tw) = 0 /\
     (forall d, getPositionAndCircle tw d = Panic DivideByZero) /\
     (forall t, addTask tw t = Panic DivideByZero) /\
     (forall p i log l t,
        task_times t <> 0 -> task_circle t <= 0 -> periodic t = true ->
        scan_item tw p i log l t = Panic DivideByZero)) /\
  (Second <= interval tw ->
     1 <= wholeSeconds (interval tw) /\
     forall d, exists pos circle, getPositionAndCircle tw d = Ok (pos, circle)).
Proof.
  intros Hi Hn. split.
  - intros Hlt. split_and!.
    + apply wholeSeconds_sub_second. lia.
    + intros d. apply getPositionAndCircle_sub_second. lia.
    + intros t. unfold addTask. rewrite getPositionAndCircle_sub_second by lia. done.
    + intros p i log l t Ht Hc Hp. unfold scan_item.
      destruct (Z.eqb_spec (task_times t) 0); [done|].
      destruct (Z.ltb_spec 0 (task_circle t)); [lia|].
      unfold periodic in Hp. rewrite Hp. unfold addTask.
      rewrite getPositionAndCircle_sub_second by (cbn; lia). done.
  - intros Hge. pose proof (wholeSeconds_ge_1 (interval tw) ltac:(lia)) as Hw.
    split; [done|]. intros d. unfold getPositionAndCircle, go_div, go_rem.
    change (int_of_float64 (Seconds (interval tw))) with (wholeSeconds (interval tw)).
    destruct (Z.eqb_spec (wholeSeconds (interval tw)) 0); [lia|].
    cbn [mbind result_bind]. destruct (Z.eqb_spec (slotNum tw) 0); [lia|].
    cbn [mbind result_bind]. eauto.
Qed.

(** C4.  In every state the coordinator of a wheel made by [New] reaches
    by ticks and by Add, Update and Remove commands, an Add carrying a key
    that no armed task has: a task is in slot [p] exactly when the registry
    maps its key to [p], and the slot a registered key points at holds
    exactly one task with that key. *)
Theorem C4_registry_agrees_with_slots tw :
  reachable tw ->
  (forall k p,
     (exists l t, slots tw !! p = Some (Some l) /\ t ∈ l /\ task_key t = k)
     <-> timer tw !! k = Some (Z.of_nat p)) /\
  (forall k z,
     timer tw !! k = Some z ->
     exists p l, z = Z.of_nat p /\ slots tw !! p = Some (Some l) /\
                 length (with_key k l) = 1%nat).
Proof.
  intros Hreach. destruct (inv_reachable tw Hreach) as [Hw Hr].
  assert (Hone : forall k z, timer tw !! k = Some z ->
    exists p l t, z = Z.of_nat p /\ slots tw !! p = Some (Some l) /\ t ∈ l /\
                  task_key t = k /\ length (with_key k l) = 1%nat).
  { intros k z Hk. destruct (reg_has_task tw Hr k z Hk) as (p & l & t & -> & Hp & Ht & <-).
    exists p, l, t. split_and!; [done..|].
    by rewrite (with_key_unique l t (reg_nodup tw Hr p l Hp) Ht). }
  split.
  - intros k p. split.
    + intros (l & t & Hp & Ht & <-). by eapply reg_of_task.
    + intros Hk. destruct (Hone k _ Hk) as (p' & l & t & E & Hp & Ht & Hkey & _).
      apply Nat2Z.inj in E as <-. eauto.
  - intros k z Hk. destruct (Hone k z Hk) as (p & l & t & -> & Hp & _ & _ & Hlen). eauto.
Qed.

(** C5, as amended.  A task is armed with 3 runs under a key no armed task
    has, and the coordinator goes on with ticks and with commands for other
    keys.  Then the callback of the task is started at most 3 times; as
    long as its key is registered the task sits in the registered slot with
    3 minus that number of runs left (after the third start it is still
    there, with no run left, until the cursor next comes to its slot and the
    scan drops it without a start); once the key is not registered the
    callback was started exactly 3 times and no slot holds the task, and
    that is the case after [4 * steps + 3 * slotNum + 1] ticks at the
    latest, [steps] being the whole-second quotient of the delay by the
    wheel's interval. *)
Theorem C5_three_runs_then_unregistered tw0 k d data job t tw1 evs tw2 log :
  inv tw0 -> slotNum tw0 <= 2 ^ 62 -> 0 < interval tw0 <= maxDuration ->
  d <= maxDuration ->
  AddTask d 3 (Some k) data (Some job) = Some t ->
  timer tw0 !! k = None -> addTask tw0 t = Ok tw1 ->
  steps tw1 evs tw2 log ->
  (forall ev, ev ∈ evs -> event_key ev <> Some k) ->
  (dispatches k log <= 3)%nat /\
  (forall z, timer tw2 !! k = Some z ->
     exists p l t', z = Z.of_nat p /\ slots tw2 !! p = Some (Some l) /\ t' ∈ l /\
       task_key t' = k /\ task_times t' = 3 - Z.of_nat (dispatches k log)) /\
  (timer tw2 !! k = None -> dispatches k log = 3%nat /\ absent k tw2) /\
  (4 * stepsOf tw0 d + 3 * slotNum tw0 + 1 <= Z.of_nat (ticks evs) ->
   timer tw2 !! k = None).
Proof.
  intros Hinv0 Hn Hiv Hdmax HAdd Hfresh Hadd Hsteps Hevs.
  assert (Ht : t = mkTask d 3 0 k job data /\ 0 < d).
  { unfold AddTask in HAdd. destruct (Z.leb_spec d 0); [done|]. by injection HAdd as <-. }
  destruct Ht as [-> Hd].
  assert (Hsec : Second <= interval tw0).
  { destruct (Z.lt_ge_cases (interval tw0) Second) as [Hlt|]; [|done].
    unfold addTask in Hadd. rewrite getPositionAndCircle_sub_second in Hadd by lia. done. }
  destruct (inv_addTask tw0 (mkTask d 3 0 k job data) tw1 Hinv0 Hfresh Hadd)
    as [Hinv1 (Ei & En & Ec)].
  destruct (inv_steps _ _ _ _ Hinv1 Hsteps) as (Hinv2 & Ei2 & En2).
  pose proof (tracks_armed k d tw0 (mkTask d 3 0 k job data) tw1 Hinv0 Hn
                ltac:(lia) ltac:(lia) eq_refl eq_refl ltac:(cbn; lia) Hadd) as Htr1.
  cbn [task_times] in Htr1.
  assert (Hs1 : stepsOf tw1 d = stepsOf tw0 d) by (unfold stepsOf; by rewrite Ei).
  pose proof (tracks_steps k d _ tw1 3 evs tw2 log Hinv1 ltac:(lia) ltac:(lia)
                ltac:(lia) ltac:(unfold maxInt; lia) Htr1 Hevs Hsteps) as Htr2.
  pose proof (tracks_nonneg _ _ _ _ _ Htr2) as Hr2.
  split_and!.
  - lia.
  - intros z Hz. by eapply tracks_registered; [apply Hinv2|..].
  - intros Hz. split.
    + pose proof (tracks_not_registered _ _ _ _ _ (proj2 Hinv2) Htr2 Hz). lia.
    + by apply not_registered_absent; [apply Hinv2|].
  - intros Hticks. eapply tracks_expired; [apply Hinv2| | | |exact Htr2|]; lia.
Qed.

(** C6.  [New] returns the nil wheel when the interval or the slot count
    is not positive; otherwise it returns a wheel whose cursor is 0 and
    whose [slotNum] slots are all empty lists. *)
Theorem C6_New_fails_or_makes_empty_wheel (iv n : Z) :
  (iv <= 0 \/ n <= 0 -> New iv n = (None : option TimeWheel)) /\
  (0 < iv -> 0 < n ->
     exists tw : TimeWheel,
       New iv n = Some tw /\ currentPos tw = 0 /\
       interval tw = iv /\ slotNum tw = n /\
       length (slots tw) = Z.to_nat n /\
       (forall p s, slots tw !! p = Some s -> s = Some []) /\
       timer tw = ∅).
Proof.
  split.
  - intros Hbad. unfold New.
    destruct (Z.leb_spec iv 0); [done|].
    destruct (Z.leb_spec n 0); [done|]. lia.
  - intros Hi Hn.
    destruct (New iv n) as [tw|] eqn:HNew.
    + destruct (New_Some _ _ _ HNew) as (_ & _ & ->). eexists. split; [done|].
      cbn. split_and!; [done..|by rewrite length_replicate| |done].
      intros p s Hp. by apply lookup_replicate in Hp as [-> _].
    + unfold New in HNew. destruct (Z.leb_spec iv 0); [lia|].
      destruct (Z.leb_spec n 0); [lia|]. done.
Qed.

(** C7, as amended.  [New] has one result, a pointer to a wheel: for an
    invalid interval or slot count it is the nil wheel and nothing else is
    returned, and the nil wheel is returned for no other arguments. *)
Theorem C7_New_signals_failure_by_nil interval slotNum :
  New interval slotNum = (None : option TimeWheel)
  <-> interval <= 0 \/ slotNum <= 0.
Proof.
  unfold New. destruct (Z.leb_spec interval 0); [by split; [left|]|].
  destruct (Z.leb_spec slotNum 0); [by split; [right|]|].
  cbn [orb]. split; [done|lia].
Qed.

(** C8.  A task with a key no armed task has is added; the coordinator
    goes on, without starting its callback; the key is removed.  Then the
    key is not registered, no slot holds a task with it, and as long as no
    command adds the key again its callback is never started and the key
    stays unregistered.  When the removal follows the addition at once, the
    wheel is the one before the addition. *)
Theorem C8_add_then_remove tw0 t tw1 evs1 tw2 log1 tw3 evs2 tw4 log2 :
  inv tw0 -> timer tw0 !! task_key t = None ->
  addTask tw0 t = Ok tw1 ->
  steps tw1 evs1 tw2 log1 -> dispatches (task_key t) log1 = 0%nat ->
  removeTask tw2 (task_key t) = Ok tw3 ->
  steps tw3 evs2 tw4 log2 ->
  (forall ev, ev ∈ evs2 -> event_key ev <> Some (task_key t)) ->
  timer tw3 !! task_key t = None /\ absent (task_key t) tw3 /\
  dispatches (task_key t) (log1 ++ log2) = 0%nat /\
  timer tw4 !! task_key t = None /\ absent (task_key t) tw4 /\
  (evs1 = [] -> tw3 = tw0).
Proof.
  intros Hinv0 Hfresh Hadd Hsteps1 Hd1 Hrm Hsteps2 Hevs2.
  destruct (inv_addTask _ _ _ Hinv0 Hfresh Hadd) as [Hinv1 _].
  destruct (inv_steps _ _ _ _ Hinv1 Hsteps1) as [Hinv2 _].
  destruct (inv_removeTask _ _ _ Hinv2 Hrm) as [Hinv3 _].
  destruct (inv_steps _ _ _ _ Hinv3 Hsteps2) as [Hinv4 _].
  pose proof (removeTask_not_registered _ _ _ Hinv2 Hrm) as Hk3.
  destruct (steps_not_registered _ _ _ _ _ Hinv3 Hk3 Hevs2 Hsteps2) as [Hk4 Hd2].
  split_and!; [done|by apply not_registered_absent; [apply Hinv3|]| |done
              |by apply not_registered_absent; [apply Hinv4|]|].
  - rewrite dispatches_app. lia.
  - intros ->. inversion Hsteps1; subst.
    destruct (addTask_Ok _ _ _ Hadd) as (pos & c & l & _ & Hpos & Hl & ->).
    assert (Hnone : remove_loop (task_key t) l = None).
    { destruct (remove_loop (task_key t) l) as [l'|] eqn:E; [|done].
      destruct (remove_loop_Some _ _ _ E) as (i & t' & Hi & Hk' & _).
      pose proof (reg_of_task tw0 (proj2 Hinv0) _ l t' Hl
                    (list_elem_of_lookup_2 _ _ _ Hi)) as Hreg. congruence. }
    assert (Hrl : forall l0 t0, remove_loop (task_key t0) l0 = None ->
              remove_loop (task_key t0) (l0 ++ [t0]) = Some l0).
    { intros l0 t0. induction l0 as [|a l0 IH]; cbn [remove_loop app].
      - by rewrite decide_True.
      - destruct (decide (task_key a = task_key t0)); [done|].
        destruct (remove_loop (task_key t0) l0); [done|]. intros _.
        by rewrite IH. }
    unfold removeTask in Hrm. cbn [timer set_timer] in Hrm.
    rewrite lookup_insert_eq in Hrm. unfold index_slot in Hrm.
    destruct (Z.ltb_spec pos 0); [lia|]. cbn [slots set_timer set_slot set_slots] in Hrm.
    rewrite list_lookup_insert_eq in Hrm by (by eapply lookup_lt_Some).
    cbn [mbind result_bind] in Hrm.
    change (task_key t) with (task_key (set_circle t c)) in Hrm at 1.
    rewrite Hrl in Hrm by done. injection Hrm as <-.
    destruct tw0 as [iv sl tm cp sn]. unfold set_slot, set_timer, set_slots. cbn in *.
    f_equal.
    + rewrite list_insert_insert_eq. by apply list_insert_id.
    + by rewrite delete_insert_eq, delete_id.
Qed.

(** C9.  An update for a key that is not registered leaves the whole
    wheel as it was. *)
Theorem C9_update_of_unregistered_key tw u :
  timer tw !! up_key u = None -> updateTask tw u = Ok tw.
Proof. intros Hk. unfold updateTask. by rewrite Hk. Qed.

(** C10.  An update for a registered key returns the wheel with the list
    of the registered slot rewritten in place: the list keeps its length
    and every task its index, key, circle, runs and callback; the task with
    the key takes the new interval and payload and every other task is
    untouched; the other slots, the registry, the cursor, the slot count
    and the wheel's interval are the same. *)
Theorem C10_update_in_place tw u pos :
  inv tw -> timer tw !! up_key u = Some pos ->
  exists p l,
    pos = Z.of_nat p /\ slots tw !! p = Some (Some l) /\
    updateTask tw u
    = Ok (mkTimeWheel (interval tw) (<[p := Some (update_loop u l)]> (slots tw))
            (timer tw) (currentPos tw) (slotNum tw)) /\
    length (update_loop u l) = length l /\
    forall j t, l !! j = Some t ->
      exists t', update_loop u l !! j = Some t' /\
        task_key t' = task_key t /\ task_circle t' = task_circle t /\
        task_times t' = task_times t /\ task_job t' = task_job t /\
        (task_key t = up_key u ->
           task_interval t' = up_interval u /\ task_taskData t' = up_taskData u) /\
        (task_key t <> up_key u -> t' = t).
Proof.
  intros [Hw Hr] Hk. destruct (reg_has_task tw Hr _ _ Hk) as (p & l & t0 & -> & Hp & _ & _).
  exists p, l. split_and!; [done..| | |].
  - unfold updateTask, index_slot. rewrite Hk.
    destruct (Z.ltb_spec (Z.of_nat p) 0); [lia|]. by rewrite Nat2Z.id, Hp.
  - unfold update_loop. by rewrite length_fmap.
  - intros j t Hj. unfold update_loop. rewrite list_lookup_fmap, Hj. cbn.
    eexists. split; [done|]. by destruct (decide (task_key t = up_key u)).
Qed.

(** *** Further properties of the coordinator *)

(** X1.  Placement in whole seconds, in closed form.  When the wheel's
    interval is at least a second and it and the delay are below [2^23]
    seconds (97 days), [getPositionAndCircle] returns, without a float in
    sight, the slot [(currentPos + steps) mod slotNum] and the circle
    [steps / slotNum] for [steps = (d / 1s) / (interval / 1s)], the
    divisions being integer divisions. *)
Theorem getPositionAndCircle_exact tw d :
  0 < slotNum tw <= 2 ^ 62 -> 0 <= currentPos tw < slotNum tw ->
  Second <= interval tw < 2 ^ 23 * Second -> 0 <= d < 2 ^ 23 * Second ->
  getPositionAndCircle tw d
  = Ok ((currentPos tw + d / Second / (interval tw / Second)) mod slotNum tw,
        d / Second / (interval tw / Second) / slotNum tw).
Proof.
  intros Hn Hc Hiv Hd.
  assert (Hmax : 2 ^ 23 * Second <= maxDuration) by done.
  rewrite getPositionAndCircle_ok by lia.
  unfold stepsOf. by rewrite !wholeSeconds_exact by lia.
Qed.

(** X2.  [start] handles the events that come before the first [Stop] and no
    other.  When it returns, whatever the commands were (keys armed twice
    included), the wheel still has its [slotNum] lists, its interval and its
    slot count, and the cursor has advanced by the number of ticks handled,
    modulo [slotNum]: commands never move it. *)
Theorem start_handles_until_Stop fuel tw evs tw' log :
  wheel_ok tw -> start fuel tw evs = Ok (tw', log) ->
  start fuel tw (before_stop evs) = Ok (tw', log) /\
  wheel_ok tw' /\ interval tw' = interval tw /\ slotNum tw' = slotNum tw /\
  currentPos tw' = (currentPos tw + Z.of_nat (ticks (before_stop evs))) mod slotNum tw.
Proof.
  intros Hw Hst. split; [by rewrite <- start_before_stop|].
  by apply (start_cursor fuel tw evs tw' log).
Qed.

(** X3.  When the delay of every armed task is at least as long as the
    wheel's interval (in whole seconds), a tick returns, with fuel for two
    iterations per task of the scanned list; it starts the callbacks of
    exactly the due tasks of that list (runs left, no circle left), in the
    order of the list and once each, moves the cursor to the next slot, and
    leaves a wheel of the same kind. *)
Theorem tickHandler_fires_due_tasks tw fuel l :
  inv tw -> slotNum tw <= 2 ^ 62 -> Second <= interval tw <= maxDuration ->
  all_tame tw ->
  slots tw !! Z.to_nat (currentPos tw) = Some (Some l) ->
  (2 * length l < fuel)%nat ->
  exists tw', tickHandler fuel tw = Ok (tw', fired l) /\
    inv tw' /\ all_tame tw' /\
    currentPos tw' = (currentPos tw + 1) mod slotNum tw.
Proof.
  intros Hinv Hn Hiv Htame Hl Hfuel.
  destruct (tickHandler_returns tw fuel l Hinv Hn Hiv Htame Hl Hfuel) as (tw' & Htick & Ht').
  destruct (inv_tickHandler _ _ _ _ Hinv Htick) as (Hinv' & _ & _ & Hc).
  by exists tw'.
Qed.

(** X4.  On a wheel as in X3 the coordinator never hangs in a tick: for
    every [m] there is a run of [m] ticks, after which the cursor is [m]
    slots further, modulo [slotNum]. *)
Theorem ticks_return_on_tame_wheel tw m :
  inv tw -> slotNum tw <= 2 ^ 62 -> Second <= interval tw <= maxDuration ->
  all_tame tw ->
  exists tw' log, steps tw (replicate m Tick) tw' log /\ inv tw' /\ all_tame tw' /\
    currentPos tw' = (currentPos tw + Z.of_nat m) mod slotNum tw.
Proof.
  revert tw. induction m as [|m IH]; intros tw Hinv Hn Hiv Htame.
  { exists tw, []. split_and!; [constructor|done..|].
    pose proof (ok_slotNum tw (proj1 Hinv)). pose proof (ok_pos tw (proj1 Hinv)).
    rewrite Z.add_0_r, Z.mod_small by lia. done. }
  destruct (index_slot_in_range tw (currentPos tw) (proj1 Hinv) (ok_pos tw (proj1 Hinv)))
    as (l & _ & Hl).
  destruct (tickHandler_returns tw (S (2 * length l)) l Hinv Hn Hiv Htame Hl ltac:(lia))
    as (tw1 & Htick & Htame1).
  destruct (inv_tickHandler _ _ _ _ Hinv Htick) as (Hinv1 & Ei & En & Ec).
  destruct (IH tw1 Hinv1 ltac:(by rewrite En) ltac:(by rewrite Ei) Htame1)
    as (tw' & log & Hsteps & Hinv' & Htame' & Hc').
  exists tw', (fired l ++ log). split_and!; [|done..|].
  - cbn [replicate]. econstructor; [|done]. by econstructor.
  - rewrite Hc', Ec, En, Zplus_mod_idemp_l, Nat2Z.inj_succ. f_equal. lia.
Qed.

(** X5.  [removeTask] on a wheel whose registry agrees with its slots: it
    returns, the key is out of the registry and out of every slot, the
    registry entries and the tasks of all other keys are as they were and in
    their order, and removing the key once more changes nothing. *)
Theorem removeTask_removes_key_only tw k :
  inv tw ->
  exists tw', removeTask tw k = Ok tw' /\ inv tw' /\ same_frame tw tw' /\
    timer tw' = delete k (timer tw) /\
    (forall p l, slots tw !! p = Some (Some l) ->
       slots tw' !! p = Some (Some (filter (fun t => task_key t <> k) l))) /\
    removeTask tw' k = Ok tw'.
Proof.
  intros Hinv. destruct (removeTask_post tw k Hinv) as (tw' & Hrm & Hinv' & Hf & Ht & Hs).
  exists tw'. split_and!; [done..|].
  unfold removeTask. by rewrite Ht, lookup_delete_eq.
Qed.

(** X6.  [addTask] does not look whether the key is armed.  When it is, the
    wheel holds two tasks of the key and the registry one entry; a
    [removeTask] of the key then takes one of them away with the entry, and
    the other stays in its slot, out of reach of [removeTask], which from
    then on returns without touching the wheel. *)
Theorem addTask_registered_key_leaks tw t tw' z :
  inv tw -> timer tw !! task_key t = Some z -> addTask tw t = Ok tw' ->
  exists tw'', removeTask tw' (task_key t) = Ok tw'' /\
    timer tw'' !! task_key t = None /\
    (exists p l t', slots tw'' !! p = Some (Some l) /\ t' ∈ l /\
                    task_key t' = task_key t) /\
    removeTask tw'' (task_key t) = Ok tw''.
Proof.
  intros Hinv Hz Hadd.
  destruct (addTask_registered_key tw t tw' z Hinv Hz Hadd) as (tw'' & Hrm & Hk & Hleft).
  exists tw''. split_and!; [done..|]. unfold removeTask. by rewrite Hk.
Qed.

(** X7.  The first run.  A task comes from [AddTask] with runs to do
    ([times <> 0]) under a key no armed task has, and the coordinator goes
    on with ticks and with commands for other keys.  With [steps] the
    whole-second
    quotient of the delay by the wheel's interval, the callback is not
    started during the first [steps] ticks, and it is started during tick
    [steps + 1]: the first entry of the key in the log is the task as
    [AddTask] made it, with its job and its payload. *)
Theorem AddTask_first_run tw0 k d times data job t tw1 evs tw2 log :
  inv tw0 -> slotNum tw0 <= 2 ^ 62 -> 0 < interval tw0 <= maxDuration ->
  d <= maxDuration ->
  AddTask d times (Some k) data (Some job) = Some t -> times <> 0 ->
  timer tw0 !! k = None -> addTask tw0 t = Ok tw1 ->
  steps tw1 evs tw2 log ->
  (forall ev, ev ∈ evs -> event_key ev <> Some k) ->
  (Z.of_nat (ticks evs) <= stepsOf tw0 d -> dispatches k log = 0%nat) /\
  (stepsOf tw0 d < Z.of_nat (ticks evs) -> head (with_key k log) = Some t).
Proof.
  intros Hinv0 Hn Hiv Hdmax HAdd Htimes Hfresh Hadd Hsteps Hevs.
  assert (Ht : t = mkTask d times 0 k job data /\ 0 < d).
  { unfold AddTask in HAdd. destruct (Z.leb_spec d 0); [done|]. by injection HAdd as <-. }
  destruct Ht as [-> Hd].
  assert (Hsec : Second <= interval tw0).
  { destruct (Z.lt_ge_cases (interval tw0) Second) as [Hlt|]; [|done].
    unfold addTask in Hadd. rewrite getPositionAndCircle_sub_second in Hadd by lia. done. }
  destruct (inv_addTask tw0 (mkTask d times 0 k job data) tw1 Hinv0 Hfresh Hadd) as [Hinv1 (Ei & En & Ec)].
  pose proof (waits_armed tw0 (mkTask d times 0 k job data) tw1 (proj1 Hinv0) Hn ltac:(lia)
                ltac:(cbn; lia) Htimes Hadd) as Hw.
  cbn [task_interval] in Hw.
  pose proof (stepsOf_range tw0 d ltac:(lia) ltac:(lia)) as Hs.
  assert (HR : 0 <= stepsOf tw0 d <= maxInt) by (unfold maxInt; lia).
  destruct (waits_steps _ _ tw1 evs tw2 log Hinv1 HR Hw Hevs Hsteps)
    as [H1 H2].
  split; [intros Hle; by destruct (H1 Hle)|intros Hlt; by destruct (H2 Hlt)].
Qed.

(** X8.  An update before the first run.  The task is armed as above, and
    before its first run an update for its key arrives, made by [UpdateTask]
    (which checks the key only).  The first run comes in the same tick as
    without the update, [steps + 1], the steps being those of the delay
    given to [AddTask]; and the callback is started with the new payload,
    the task carrying the new delay. *)
Theorem UpdateTask_before_first_run tw0 k d times data job t tw1 d' data' u
    evs1 evs2 tw2 log :
  inv tw0 -> slotNum tw0 <= 2 ^ 62 -> 0 < interval tw0 <= maxDuration ->
  d <= maxDuration ->
  AddTask d times (Some k) data (Some job) = Some t -> times <> 0 ->
  timer tw0 !! k = None -> addTask tw0 t = Ok tw1 ->
  UpdateTask (Some k) d' data' = Some u ->
  steps tw1 (evs1 ++ Update u :: evs2) tw2 log ->
  (forall ev, ev ∈ evs1 ++ evs2 -> event_key ev <> Some k) ->
  Z.of_nat (ticks evs1) <= stepsOf tw0 d ->
  (Z.of_nat (ticks evs1 + ticks evs2) <= stepsOf tw0 d -> dispatches k log = 0%nat) /\
  (stepsOf tw0 d < Z.of_nat (ticks evs1 + ticks evs2) ->
     head (with_key k log) = Some (mkTask d' times 0 k job data')).
Proof.
  intros Hinv0 Hn Hiv Hdmax HAdd Htimes Hfresh Hadd HUp Hsteps Hevs Hm1.
  assert (Ht : t = mkTask d times 0 k job data /\ 0 < d).
  { unfold AddTask in HAdd. destruct (Z.leb_spec d 0); [done|]. by injection HAdd as <-. }
  destruct Ht as [-> Hd]. injection HUp as <-.
  assert (Hsec : Second <= interval tw0).
  { destruct (Z.lt_ge_cases (interval tw0) Second) as [Hlt|]; [|done].
    unfold addTask in Hadd. rewrite getPositionAndCircle_sub_second in Hadd by lia. done. }
  destruct (inv_addTask tw0 (mkTask d times 0 k job data) tw1 Hinv0 Hfresh Hadd) as [Hinv1 (Ei & En & Ec)].
  pose proof (waits_armed tw0 (mkTask d times 0 k job data) tw1 (proj1 Hinv0) Hn ltac:(lia)
                ltac:(cbn; lia) Htimes Hadd) as Hw.
  cbn [task_interval] in Hw.
  pose proof (stepsOf_range tw0 d ltac:(lia) ltac:(lia)) as Hs.
  destruct (steps_app_inv _ _ _ _ _ Hsteps) as (twa & log1 & log2 & Hs1 & Hs2 & ->).
  assert (Hevs1 : forall ev, ev ∈ evs1 -> event_key ev <> Some k).
  { intros ev Hev. apply Hevs, elem_of_app. by left. }
  assert (Hevs2 : forall ev, ev ∈ evs2 -> event_key ev <> Some k).
  { intros ev Hev. apply Hevs, elem_of_app. by right. }
  assert (HR : 0 <= stepsOf tw0 d <= maxInt) by (unfold maxInt; lia).
  destruct (waits_steps _ _ tw1 evs1 twa log1 Hinv1 HR Hw Hevs1 Hs1)
    as [H1 _].
  destruct (H1 Hm1) as [Hd1 Hwa].
  destruct (inv_steps _ _ _ _ Hinv1 Hs1) as (Hinva & _).
  inversion Hs2 as [|? ? twb logb ? ? logc Hstep Hrest]; subst.
  inversion Hstep as [| |? ? ? Hup|]; subst.
  destruct (inv_updateTask _ _ _ Hinva Hup) as [Hinvb (_ & Enb & Ecb)].
  pose proof (waits_updateTask _ _ _ _ _ (mkUptask k d' data') _ Hinva Hwa eq_refl Hup)
    as Hwb.
  rewrite <- Enb, <- Ecb in Hwb.
  assert (HR' : 0 <= stepsOf tw0 d - Z.of_nat (ticks evs1) <= maxInt)
    by (unfold maxInt; lia).
  destruct (waits_steps _ _ twb evs2 tw2 logc Hinvb HR' Hwb Hevs2 Hrest)
    as [H3 H4].
  cbn [task_key] in Hd1.
  cbn [app]. rewrite dispatches_app, with_key_app, (with_key_nil _ _ Hd1), Hd1.
  cbn [app Nat.add]. rewrite Nat2Z.inj_add. split.
  - intros Hle. destruct (H3 ltac:(lia)) as [Hd2 _]. exact Hd2.
  - intros Hlt. destruct (H4 ltac:(lia)) as [Hh _]. exact Hh.
Qed.

(** X9.  The runs of a task.  A task comes from [AddTask] with [r >= 0] runs
    under a key no armed task has, and the coordinator goes on with ticks
    and with commands for other keys.  The callback is started at most [r]
    times; while the key is registered the task is in the registered slot
    with [r] minus that number of runs left; once the key is not registered
    the callback was started exactly [r] times and no slot holds the task,
    and that is so after [r * (steps + slotNum) + steps + 1] ticks at the
    latest.  With [r = 0] the callback is never started. *)
Theorem AddTask_runs_then_unregistered tw0 k d r data job t tw1 evs tw2 log :
  inv tw0 -> slotNum tw0 <= 2 ^ 62 -> 0 < interval tw0 <= maxDuration ->
  d <= maxDuration -> 0 <= r <= maxInt ->
  AddTask d r (Some k) data (Some job) = Some t ->
  timer tw0 !! k = None -> addTask tw0 t = Ok tw1 ->
  steps tw1 evs tw2 log ->
  (forall ev, ev ∈ evs -> event_key ev <> Some k) ->
  (Z.of_nat (dispatches k log) <= r) /\
  (forall z, timer tw2 !! k = Some z ->
     exists p l t', z = Z.of_nat p /\ slots tw2 !! p = Some (Some l) /\ t' ∈ l /\
       task_key t' = k /\ task_times t' = r - Z.of_nat (dispatches k log)) /\
  (timer tw2 !! k = None -> Z.of_nat (dispatches k log) = r /\ absent k tw2) /\
  (r * (stepsOf tw0 d + slotNum tw0) + stepsOf tw0 d + 1 <= Z.of_nat (ticks evs) ->
   timer tw2 !! k = None).
Proof.
  intros Hinv0 Hn Hiv Hdmax Hr HAdd Hfresh Hadd Hsteps Hevs.
  assert (Ht : t = mkTask d r 0 k job data /\ 0 < d).
  { unfold AddTask in HAdd. destruct (Z.leb_spec d 0); [done|]. by injection HAdd as <-. }
  destruct Ht as [-> Hd].
  assert (Hsec : Second <= interval tw0).
  { destruct (Z.lt_ge_cases (interval tw0) Second) as [Hlt|]; [|done].
    unfold addTask in Hadd. rewrite getPositionAndCircle_sub_second in Hadd by lia. done. }
  destruct (inv_addTask tw0 (mkTask d r 0 k job data) tw1 Hinv0 Hfresh Hadd)
    as [Hinv1 (Ei & En & Ec)].
  destruct (inv_steps _ _ _ _ Hinv1 Hsteps) as (Hinv2 & Ei2 & En2).
  pose proof (tracks_armed k d tw0 (mkTask d r 0 k job data) tw1 Hinv0 Hn
                ltac:(lia) ltac:(lia) eq_refl eq_refl ltac:(cbn; lia) Hadd) as Htr1.
  cbn [task_times] in Htr1.
  assert (Hs1 : stepsOf tw1 d = stepsOf tw0 d) by (unfold stepsOf; by rewrite Ei).
  pose proof (tracks_steps k d _ tw1 r evs tw2 log Hinv1 ltac:(lia) ltac:(lia)
                ltac:(lia) ltac:(lia) Htr1 Hevs Hsteps) as Htr2.
  pose proof (tracks_nonneg _ _ _ _ _ Htr2) as Hr2.
  split_and!.
  - lia.
  - intros z Hz. by eapply tracks_registered; [apply Hinv2|..].
  - intros Hz. split.
    + pose proof (tracks_not_registered _ _ _ _ _ (proj2 Hinv2) Htr2 Hz). lia.
    + by apply not_registered_absent; [apply Hinv2|].
  - intros Hticks. eapply tracks_expired; [apply Hinv2| | | |exact Htr2|]; lia.
Qed.

(** X10.  A task that runs forever.  A task comes from [AddTask] with
    [times = -1] under a key no armed task has.  Whatever ticks and
    commands for
    other keys follow, the key stays registered and its slot holds the task,
    with [times = -1] and the delay it was given: only [RemoveTask] ends it. *)
Theorem AddTask_forever_stays_registered tw0 k d data job t tw1 evs tw2 log :
  inv tw0 ->
  AddTask d (-1) (Some k) data (Some job) = Some t ->
  timer tw0 !! k = None -> addTask tw0 t = Ok tw1 ->
  steps tw1 evs tw2 log ->
  (forall ev, ev ∈ evs -> event_key ev <> Some k) ->
  exists p l t', timer tw2 !! k = Some (Z.of_nat p) /\
    slots tw2 !! p = Some (Some l) /\ t' ∈ l /\
    task_key t' = k /\ task_times t' = -1 /\ task_interval t' = d.
Proof.
  intros Hinv0 HAdd Hfresh Hadd Hsteps Hevs.
  assert (Ht : t = mkTask d (-1) 0 k job data).
  { unfold AddTask in HAdd. destruct (Z.leb_spec d 0); [done|]. by injection HAdd as <-. }
  subst t.
  destruct (inv_addTask tw0 (mkTask d (-1) 0 k job data) tw1 Hinv0 Hfresh Hadd) as [Hinv1 _].
  destruct (inv_steps _ _ _ _ Hinv1 Hsteps) as (Hinv2 & _).
  assert (Hfor : forever k d tw1).
  { destruct (addTask_Ok _ _ _ Hadd) as (pos & c & l & _ & _ & Hl & ->).
    exists (Z.to_nat pos), (length l), (set_circle (mkTask d (-1) 0 k job data) c).
    split_and!; [by apply task_at_appended|done..]. }
  destruct (forever_steps k d tw1 evs tw2 log Hinv1 Hfor Hevs Hsteps)
    as (p & j & t' & Hat & Hk & Ht & Hd).
  pose proof (task_at_registered tw2 p j t' (proj2 Hinv2) Hat) as Hreg.
  destruct Hat as (l & Hp & Hj). exists p, l, t'.
  split_and!; [by rewrite <- Hk|done|by eapply list_elem_of_lookup_2|done..].
Qed.

(** X11.  A number of runs below [-1].  [AddTask] takes any [times]; a task
    with [times < -1] is started once, during tick [steps + 1], and with
    that it is out of the registry and of the slots: it is not armed again. *)
Theorem AddTask_negative_times_runs_once tw0 k d times data job t tw1 evs tw2 log :
  inv tw0 -> slotNum tw0 <= 2 ^ 62 -> 0 < interval tw0 <= maxDuration ->
  d <= maxDuration ->
  AddTask d times (Some k) data (Some job) = Some t -> times < -1 ->
  timer tw0 !! k = None -> addTask tw0 t = Ok tw1 ->
  steps tw1 evs tw2 log ->
  (forall ev, ev ∈ evs -> event_key ev <> Some k) ->
  (Z.of_nat (ticks evs) <= stepsOf tw0 d -> dispatches k log = 0%nat) /\
  (stepsOf tw0 d < Z.of_nat (ticks evs) ->
     with_key k log = [t] /\ timer tw2 !! k = None /\ absent k tw2).
Proof.
  intros Hinv0 Hn Hiv Hdmax HAdd Htimes Hfresh Hadd Hsteps Hevs.
  assert (Ht : t = mkTask d times 0 k job data /\ 0 < d).
  { unfold AddTask in HAdd. destruct (Z.leb_spec d 0); [done|]. by injection HAdd as <-. }
  destruct Ht as [-> Hd].
  assert (Hsec : Second <= interval tw0).
  { destruct (Z.lt_ge_cases (interval tw0) Second) as [Hlt|]; [|done].
    unfold addTask in Hadd. rewrite getPositionAndCircle_sub_second in Hadd by lia. done. }
  destruct (inv_addTask tw0 (mkTask d times 0 k job data) tw1 Hinv0 Hfresh Hadd) as [Hinv1 (Ei & En & Ec)].
  destruct (inv_steps _ _ _ _ Hinv1 Hsteps) as (Hinv2 & _).
  pose proof (waits_armed tw0 (mkTask d times 0 k job data) tw1 (proj1 Hinv0) Hn ltac:(lia)
                ltac:(cbn; lia) ltac:(cbn; lia) Hadd) as Hw.
  cbn [task_interval] in Hw.
  pose proof (stepsOf_range tw0 d ltac:(lia) ltac:(lia)) as Hs.
  assert (HR : 0 <= stepsOf tw0 d <= maxInt) by (unfold maxInt; lia).
  destruct (waits_steps _ _ tw1 evs tw2 log Hinv1 HR Hw Hevs Hsteps)
    as [H1 H2].
  split; [intros Hle; by destruct (H1 Hle)|]. intros Hlt.
  destruct (H2 Hlt) as [Hh Hone]. cbn [task_key] in *.
  destruct Hone as [Hk Hd1].
  { unfold periodic. cbn [task_times].
    destruct (Z.ltb_spec 0 times); [lia|]. destruct (Z.eqb_spec times (-1)); [lia|done]. }
  split_and!; [|done|by apply not_registered_absent; [apply Hinv2|]].
  unfold dispatches in Hd1. destruct (with_key k log) as [|x [|y rest]]; [done| |done].
  cbn in Hh. by injection Hh as ->.
Qed.

Lemma runs_by_pred s m : 0 < s -> runs_by s s m = Z.of_nat (pred m) / s.
Proof.
  intros Hs. unfold runs_by. destruct (Z.leb_spec (Z.of_nat m) s).
  - rewrite Z.div_small; lia.
  - replace (Z.of_nat (pred m)) with (Z.of_nat m - s - 1 + 1 * s) by lia.
    by rewrite Z.div_add by lia.
Qed.

(** X14.  The schedule.  A task comes from [AddTask] to run forever
    ([times = -1]) or [times >= 1] times, under a key no armed task has,
    and its
    delay is [steps] slots long, [steps] being no multiple of [slotNum].
    Whatever ticks and commands for other keys follow, the callback is
    started during the ticks [steps + 1], [2 * steps + 1], [3 * steps + 1],
    ... and during no other, until [times] runs are done: after [m] ticks it
    was started [(m - 1) / steps] times, or [times] times if that is less. *)
Theorem AddTask_runs_every_steps_ticks tw0 k d times data job t tw1 evs tw2 log :
  inv tw0 -> slotNum tw0 <= 2 ^ 62 -> 0 < interval tw0 <= maxDuration ->
  d <= maxDuration ->
  AddTask d times (Some k) data (Some job) = Some t ->
  times = -1 \/ 1 <= times <= maxInt ->
  stepsOf tw0 d mod slotNum tw0 <> 0 ->
  timer tw0 !! k = None -> addTask tw0 t = Ok tw1 ->
  steps tw1 evs tw2 log ->
  (forall ev, ev ∈ evs -> event_key ev <> Some k) ->
  Z.of_nat (dispatches k log) = cap times (Z.of_nat (pred (ticks evs)) / stepsOf tw0 d).
Proof.
  intros Hinv0 Hn Hiv Hdmax HAdd Htimes Hoff Hfresh Hadd Hsteps Hevs.
  assert (Ht : t = mkTask d times 0 k job data /\ 0 < d).
  { unfold AddTask in HAdd. destruct (Z.leb_spec d 0); [done|]. by injection HAdd as <-. }
  destruct Ht as [-> Hd].
  assert (Hsec : Second <= interval tw0).
  { destruct (Z.lt_ge_cases (interval tw0) Second) as [Hlt|]; [|done].
    unfold addTask in Hadd. rewrite getPositionAndCircle_sub_second in Hadd by lia. done. }
  destruct (inv_addTask tw0 (mkTask d times 0 k job data) tw1 Hinv0 Hfresh Hadd)
    as [Hinv1 (Ei & En & Ec)].
  pose proof (waits_armed tw0 (mkTask d times 0 k job data) tw1 (proj1 Hinv0) Hn
                ltac:(lia) ltac:(cbn; lia) ltac:(cbn; lia) Hadd) as Hw.
  cbn [task_interval] in Hw.
  pose proof (stepsOf_range tw0 d ltac:(lia) ltac:(lia)) as Hs.
  assert (Hs1 : stepsOf tw1 d = stepsOf tw0 d) by (unfold stepsOf; by rewrite Ei).
  assert (Hspos : 0 < stepsOf tw0 d).
  { destruct (Z.eq_dec (stepsOf tw0 d) 0) as [E|]; [|lia].
    rewrite E, Z.mod_0_l in Hoff; [done|]. pose proof (ok_slotNum tw0 (proj1 Hinv0)). lia. }
  rewrite <- runs_by_pred by done. rewrite <- Hs1.
  apply (schedule_steps k d tw1 evs tw2 log Hinv1 ltac:(by rewrite En)
           ltac:(rewrite Ei; lia) ltac:(lia) ltac:(by rewrite Hs1, En) Hevs Hsteps
           (mkTask d times 0 k job data) (stepsOf tw1 d));
    [done|done|done|lia|by rewrite Hs1].
Qed.

(** X15.  A task alone on the wheel.  A wheel comes from [New] and one
    task from [AddTask], to run forever, with a delay that is a whole
    number of rotations long ([steps] a multiple of [slotNum], 0
    included); then only ticks follow.  The first run is in tick
    [steps + 1], and the following runs are [steps + slotNum] ticks apart,
    a rotation more than the delay: the task that fires goes to the back
    of the list under the scan with [steps / slotNum] circles, and as it
    is the last of the list the scan ends without taking one off. *)
Theorem lone_task_runs_a_rotation_late iv n k d data job t tw0 tw1 m tw2 log :
  Second <= iv <= maxDuration -> n <= 2 ^ 62 -> New iv n = Some tw0 ->
  d <= maxDuration -> AddTask d (-1) (Some k) data (Some job) = Some t ->
  stepsOf tw0 d mod n = 0 ->
  addTask tw0 t = Ok tw1 ->
  steps tw1 (replicate m Tick) tw2 log ->
  Z.of_nat (dispatches k log) = runs_by (stepsOf tw0 d + n) (stepsOf tw0 d) m.
Proof.
  intros Hiv Hn HNew Hdmax HAdd Hs Hadd Hsteps.
  destruct (New_Some _ _ _ HNew) as (_ & Hn0 & ->).
  assert (Ht : t = mkTask d (-1) 0 k job data /\ 0 < d).
  { unfold AddTask in HAdd. destruct (Z.leb_spec d 0); [done|]. by injection HAdd as <-. }
  destruct Ht as [-> Hd].
  unfold stepsOf in *. cbn [interval] in *.
  set (s := wholeSeconds d / wholeSeconds iv) in *.
  assert (Hsr : 0 <= s <= 9223372037).
  { pose proof (wholeSeconds_ge_1 _ Hiv). pose proof (wholeSeconds_range d ltac:(lia)).
    unfold s. split; [apply Z.div_pos; lia|]. apply Z.div_le_upper_bound; nia. }
  assert (Hsd : s / n * n = s).
  { pose proof (Z.div_mod s n ltac:(lia)). lia. }
  assert (Hp : (0 < Z.to_nat n)%nat) by lia.
  assert (Htw1 : tw1 = lone_wheel iv n 0 0 (mkTask d (-1) (s / n) k job data)).
  { unfold addTask in Hadd. rewrite getPositionAndCircle_ok in Hadd by (cbn; lia).
    cbn [mbind result_bind task_interval currentPos slotNum] in Hadd.
    unfold stepsOf in Hadd. cbn [interval] in Hadd. fold s in Hadd.
    rewrite Z.add_0_l, Hs in Hadd. unfold index_slot in Hadd.
    cbn [Z.ltb Z.compare slots Z.to_nat] in Hadd.
    rewrite lookup_replicate_2 in Hadd by done.
    cbn [mbind result_bind] in Hadd. injection Hadd as <-.
    unfold lone_wheel, set_timer, set_slot, set_slots, set_circle.
    cbn [slots timer interval currentPos slotNum task_key task_interval task_times
           task_job task_taskData app Z.to_nat Z.of_nat].
    by rewrite insert_empty. }
  subst tw1.
  pose proof (lone_steps iv n 0 ltac:(lia) Hp Hiv m 0 (mkTask d (-1) (s / n) k job data)
                tw2 log ltac:(lia) ltac:(cbn; lia) eq_refl Hs) as Hrun.
  cbn [task_interval task_circle task_key] in Hrun. fold s in Hrun.
  rewrite Hrun; [|split; [apply Z.div_pos; lia|lia]|done].
  f_equal. rewrite Hsd, Z.sub_0_r, Z.mod_0_l by lia. lia.
Qed.

(** X12.  No panic.  On a sound wheel (the shape [New] gives, an interval of
    a second at least, no more than [2^62] slots, no negative delay in a
    task, registry entries that are slots; keys may be armed twice), and for
    events whose delays are no negative durations, [start] does not panic:
    no division by zero, no index out of range, no nil list.  It returns a
    sound wheel, or it hangs in a scan. *)
Theorem start_never_panics fuel tw evs :
  sound tw -> Forall event_ok evs -> safely (start fuel tw evs).
Proof.
  intros Hs Hevs. revert tw Hs. induction Hevs as [|ev evs Hev _ IH]; intros tw Hs; [done|].
  assert (Hgo : safely ('(tw1, log) ← handle fuel tw ev;
                        '(tw2, log') ← start fuel tw1 evs; Ok (tw2, log ++ log'))).
  { pose proof (sound_handle fuel tw ev Hs Hev) as Hh.
    destruct (handle fuel tw ev) as [[tw1 log1]| |]; [|done..].
    cbn [mbind result_bind]. specialize (IH tw1 Hh).
    by destruct (start fuel tw1 evs) as [[tw2 log2]| |]. }
  by destruct ev.
Qed.

(** X13.  A negative delay.  [UpdateTask] takes any delay, and [updateTask]
    writes it to the task.  When the first task of the scanned list is due,
    is to be armed again and carries a delay of [-c] seconds that reaches
    back beyond slot 0 (and not by a whole number of rotations), the tick
    panics: [getPositionAndCircle] returns a negative slot and [addTask]
    indexes the slice with it. *)
Theorem tickHandler_negative_delay_panics fuel tw t l c :
  wheel_ok tw -> slotNum tw <= 2 ^ 62 -> Second <= interval tw <= maxDuration ->
  slots tw !! Z.to_nat (currentPos tw) = Some (Some (t :: l)) ->
  due t = true -> periodic t = true ->
  task_interval t = - c * Second -> 1 <= c <= 9223372036 ->
  currentPos tw < c / wholeSeconds (interval tw) ->
  (c / wholeSeconds (interval tw) - currentPos tw) mod slotNum tw <> 0 ->
  tickHandler (S fuel) tw = Panic IndexOutOfRange.
Proof.
  intros Hw Hn Hiv Hl Hdue Hper Hd Hc Hlt Hmod.
  destruct (index_slot_in_range tw (currentPos tw) Hw (ok_pos tw Hw)) as (l' & Hidx & _).
  unfold tickHandler. rewrite Hidx. cbn [mbind result_bind].
  unfold scanAddRunTask. rewrite Hl. cbn [scan_loop]. rewrite Hl. cbn [lookup list_lookup].
  unfold due in Hdue. apply andb_true_iff in Hdue as [Ht0 Hc0].
  apply negb_true_iff in Ht0, Hc0.
  apply Z.eqb_neq in Ht0. apply Z.ltb_ge in Hc0.
  rewrite scan_item_due by done. unfold rearm. rewrite Hper.
  rewrite (addTask_negative_delay _ (rearmed t) c); [done|..].
  - by apply wheel_ok_drop_item.
  - done.
  - done.
  - unfold rearmed. by destruct (0 <? task_times t).
  - done.
  - done.
  - done.
Qed.
End Proofs.

(** ** The claims on concrete wheels *)

Lemma New_wheel (iv n : Z) : 0 < iv -> 0 < n -> New iv n = Some (wheel iv n).
Proof.
  intros Hi Hn. unfold New.
  destruct (Z.leb_spec iv 0); [lia|]. destruct (Z.leb_spec n 0); [lia|].
  cbn [orb]. f_equal. unfold init, wheel, set_slots. cbn.
  rewrite init_slots_fold by done. by rewrite Nat.sub_diag, app_nil_r.
Qed.

Lemma inv_wheel (iv n : Z) : 0 < iv -> 0 < n <= maxInt -> inv (wheel iv n).
Proof. intros Hi Hn. apply (inv_New iv n); [lia|]. apply New_wheel; lia. Qed.

Lemma reachable_wheel_A3 : reachable wheel_A3.
Proof.
  exists 1000000000, 3, (wheel 1000000000 3), [Add (arm 1000000000 3 "A")], ([] ++ []).
  split_and!; [done..|by apply New_wheel|]. run_steps.
Qed.

(** *** C1 *)

(** C1 as stated fails: on a wheel of slots of 1.5 s a delay of 3 s is two
    intervals long, so the claim puts the task in slot 2; [addTask] counts
    3 whole seconds over 1 whole second and puts it in slot 3. *)
Lemma C1_counterexample :
  placement_spec wheel_1500ms 3000000000 = (2, 0) /\
  exists tw', addTask wheel_1500ms (arm 3000000000 1 "A") = Ok tw' /\
    placed tw' (arm 3000000000 1 "A") 3 0 /\
    ~ placed tw' (arm 3000000000 1 "A") 2 0.
Proof.
  split; [reflexivity|]. eexists. split; [vm_compute; reflexivity|]. split.
  - split; [reflexivity|]. eexists. split; reflexivity.
  - intros [Ht _]. vm_compute in Ht. discriminate.
Qed.

Lemma C1_witness :
  exists l,
    slots (wheel 1000000000 3) !! Z.to_nat 2 = Some (Some l) /\
    addTask (wheel 1000000000 3) (arm 2000000000 3 "A")
    = Ok (mkTimeWheel 1000000000
            (<[Z.to_nat 2 := Some (l ++ [set_circle (arm 2000000000 3 "A") 0])]>
               (slots (wheel 1000000000 3)))
            (<["A" := 2]> ∅) 0 3).
Proof.
  destruct (C1_addTask_places_by_whole_seconds (wheel 1000000000 3)
              (arm 2000000000 3 "A")) as (_ & l & Hl & Hadd & _).
  - apply inv_wheel; [lia|]. unfold maxInt. lia.
  - vm_compute. discriminate.
  - vm_compute. split; discriminate.
  - vm_compute. split; [reflexivity|discriminate].
  - exists l. split; [exact Hl|exact Hadd].
Defined.

(** *** C2 *)

Lemma scan_item_AB log :
  scan_item wheel_AB 0 0 log
    [arm 1000000000 (-1) "A"; arm 1000000000 (-1) "B"] (arm 1000000000 (-1) "A")
  = Ok (Continue wheel_BA 0 (log ++ [arm 1000000000 (-1) "A"])).
Proof. vm_compute. reflexivity. Qed.

Lemma scan_item_BA log :
  scan_item wheel_BA 0 0 log
    [arm 1000000000 (-1) "B"; arm 1000000000 (-1) "A"] (arm 1000000000 (-1) "B")
  = Ok (Continue wheel_AB 0 (log ++ [arm 1000000000 (-1) "B"])).
Proof. vm_compute. reflexivity. Qed.

Lemma scan_loop_AB_out_of_fuel fuel : forall log,
  scan_loop fuel wheel_AB 0 0 log = OutOfFuel /\
  scan_loop fuel wheel_BA 0 0 log = OutOfFuel.
Proof.
  induction fuel as [|fuel IH]; intros log; [done|]. split.
  - rewrite (scan_loop_S fuel wheel_AB 0 0 log _ _ eq_refl eq_refl), scan_item_AB.
    apply IH.
  - rewrite (scan_loop_S fuel wheel_BA 0 0 log _ _ eq_refl eq_refl), scan_item_BA.
    apply IH.
Qed.

(** C2: the code departs from the claim where a task that fires is armed
    again into the slot under the scan.  [New(2 s, 3)] followed by
    [AddTask(1 s, forever)] for A and for B gives [wheel_AB], and the first
    tick never ends there, whatever the fuel: the scan finds A and B in turn
    behind its cursor for ever, and the wheel's cursor never advances.  In
    [wheel_due2], where A and B of delay 2 s are due in a wheel of two slots
    of 1 s, the tick ends, but both tasks, armed again with circle 1, are
    met a second time by the same scan and left with circle 0. *)
Theorem C2_scan_meets_rearmed_tasks_again :
  New 2000000000 3 = Some (wheel 2000000000 3) /\
  AddTask 1000000000 (-1) (Some "A") 0%nat (Some "job") = Some (arm 1000000000 (-1) "A") /\
  AddTask 1000000000 (-1) (Some "B") 0%nat (Some "job") = Some (arm 1000000000 (-1) "B") /\
  start 0 (wheel 2000000000 3)
    [Add (arm 1000000000 (-1) "A"); Add (arm 1000000000 (-1) "B")] = Ok (wheel_AB, []) /\
  (forall fuel, tickHandler fuel wheel_AB = OutOfFuel) /\
  start 9 (wheel 1000000000 2)
    [Add (arm 2000000000 (-1) "A"); Add (arm 2000000000 (-1) "B"); Tick; Tick]
  = Ok (wheel_due2, []) /\
  getPositionAndCircle wheel_due2 2000000000 = Ok (0, 1) /\
  tickHandler 9 wheel_due2
  = Ok (set_currentPos wheel_due2 1,
        [arm 2000000000 (-1) "A"; arm 2000000000 (-1) "B"]).
Proof.
  split_and!; [by_computing|by_computing|by_computing|by_computing|
               |by_computing|by_computing|by_computing].
  intros fuel. unfold tickHandler.
  change (index_slot wheel_AB (currentPos wheel_AB))
    with (Ok (Some [arm 1000000000 (-1) "A"; arm 1000000000 (-1) "B"])
            : result (option (list (@task string nat string)))).
  cbn [mbind result_bind].
  change (scanAddRunTask fuel wheel_AB (Z.to_nat (currentPos wheel_AB)))
    with (scan_loop fuel wheel_AB 0 0 []).
  by rewrite (proj1 (scan_loop_AB_out_of_fuel fuel [])).
Qed.

(** *** C3 *)

Lemma C3_witness :
  (forall t, addTask (wheel 500000000 4) t = Panic DivideByZero) /\
  (forall d, exists pos circle,
     getPositionAndCircle (wheel 1000000000 4) d = Ok (pos, circle)).
Proof.
  split.
  - destruct (C3_placement_total_iff_whole_second (wheel 500000000 4)) as [Hsub _].
    + vm_compute. split; [reflexivity|discriminate].
    + reflexivity.
    + destruct Hsub as (_ & _ & Hadd & _); [reflexivity|]. exact Hadd.
  - destruct (C3_placement_total_iff_whole_second (wheel 1000000000 4)) as [_ Htot].
    + vm_compute. split; [reflexivity|discriminate].
    + reflexivity.
    + destruct Htot as [_ Htot]; [vm_compute; discriminate|]. exact Htot.
Defined.

(** *** C4 *)

Lemma C4_witness :
  (exists l t, slots wheel_A3 !! 1%nat = Some (Some l) /\ t ∈ l /\ task_key t = "A") /\
  (exists p l, 1 = Z.of_nat p /\ slots wheel_A3 !! p = Some (Some l) /\
               length (with_key "A" l) = 1%nat).
Proof.
  destruct (C4_registry_agrees_with_slots wheel_A3 reachable_wheel_A3) as [Hiff Hone].
  split.
  - apply (Hiff "A" 1%nat). reflexivity.
  - apply (Hone "A" 1). reflexivity.
Defined.

(** *** C5 *)

(** C5 as stated fails: four ticks after A is armed with 3 runs its
    callback has been started 3 times, and A is still registered, in slot 1
    with no run left. *)
Lemma C5_counterexample :
  addTask (wheel 1000000000 3) (arm 1000000000 3 "A") = Ok wheel_A3 /\
  exists tw' log,
    steps wheel_A3 [Tick; Tick; Tick; Tick] tw' log /\
    dispatches "A" log = 3%nat /\
    timer tw' !! "A" = Some 1 /\
    slots tw' !! 1%nat = Some (Some [arm 1000000000 0 "A"]) /\
    ~ absent "A" tw'.
Proof.
  split; [vm_compute; reflexivity|].
  eexists _, _. split; [run_steps|]. split_and!; [reflexivity..|].
  intros Habs. apply (Habs 1%nat [arm 1000000000 0 "A"] (arm 1000000000 0 "A"));
    [reflexivity|by left|reflexivity].
Qed.

Lemma C5_witness :
  exists tw2 log,
    steps wheel_A3 [Tick; Tick; Tick; Tick; Tick] tw2 log /\
    (dispatches "A" log <= 3)%nat /\
    (timer tw2 !! "A" = None -> dispatches "A" log = 3%nat /\ absent "A" tw2).
Proof.
  assert (Hsteps : exists tw2 log, steps wheel_A3 [Tick; Tick; Tick; Tick; Tick] tw2 log).
  { eexists _, _. run_steps. }
  destruct Hsteps as (tw2 & log & Hsteps). exists tw2, log. split; [exact Hsteps|].
  destruct (C5_three_runs_then_unregistered (wheel 1000000000 3) "A" 1000000000
              0%nat "job" (arm 1000000000 3 "A") wheel_A3
              [Tick; Tick; Tick; Tick; Tick] tw2 log) as (Hle & _ & Hgone & _).
  - apply inv_wheel; [lia|]. unfold maxInt. lia.
  - vm_compute. discriminate.
  - vm_compute. split; [reflexivity|discriminate].
  - vm_compute. discriminate.
  - reflexivity.
  - reflexivity.
  - vm_compute. reflexivity.
  - exact Hsteps.
  - intros ev Hev. repeat (apply elem_of_cons in Hev as [->|Hev]; [discriminate|]).
    by apply elem_of_nil in Hev.
  - split; [exact Hle|exact Hgone].
Defined.

(** *** C6 *)

Lemma C6_witness :
  exists tw : @TimeWheel string _ _ nat string,
    New 1000000000 3 = Some tw /\ currentPos tw = 0 /\
    slots tw = [Some []; Some []; Some []].
Proof.
  destruct (C6_New_fails_or_makes_empty_wheel (Key := string) (TaskData := nat)
              (Job := string) 1000000000 3) as [_ Hok].
  destruct Hok as (tw & HNew & Hc & _); [reflexivity..|].
  exists tw. split; [exact HNew|]. split; [exact Hc|].
  vm_compute in HNew. injection HNew as <-. reflexivity.
Defined.

(** *** C7 *)

(** C7 as stated fails: for an interval of 0 [New] returns the nil wheel,
    its only result. *)
Lemma C7_counterexample :
  New 0 1 = (None : option (@TimeWheel string _ _ nat string)).
Proof. reflexivity. Qed.

Lemma C7_witness :
  New (-1) 5 = (None : option (@TimeWheel string _ _ nat string)).
Proof.
  apply (C7_New_signals_failure_by_nil (Key := string) (TaskData := nat) (Job := string)).
  left. lia.
Defined.

(** *** C8 *)

Lemma C8_witness :
  exists tw2 tw3 tw4 log2,
    steps wheel_A3 [Tick] tw2 [] /\
    removeTask tw2 "A" = Ok tw3 /\
    steps tw3 [Tick; Tick; Tick] tw4 log2 /\
    timer tw3 !! "A" = None /\ dispatches "A" log2 = 0%nat /\
    timer tw4 !! "A" = None.
Proof.
  assert (H1 : exists tw2, steps wheel_A3 [Tick] tw2 ([] ++ [])).
  { eexists. run_steps. }
  destruct H1 as (tw2 & H1).
  assert (H2 : exists tw3, removeTask tw2 "A" = Ok tw3).
  { inversion H1 as [|? ? ? ? ? ? ? Hs Hr]; subst. inversion Hr; subst.
    inversion Hs as [fuel ? ? ? Ht| | |]; subst.
    destruct fuel as [|fuel]; [vm_compute in Ht; discriminate|].
    vm_compute in Ht. injection Ht as <- <-. eexists. vm_compute. reflexivity. }
  destruct H2 as (tw3 & H2).
  assert (H3 : exists tw4 log2, steps tw3 [Tick; Tick; Tick] tw4 log2).
  { inversion H1 as [|? ? ? ? ? ? ? Hs Hr]; subst. inversion Hr; subst.
    inversion Hs as [fuel ? ? ? Ht| | |]; subst.
    destruct fuel as [|fuel]; [vm_compute in Ht; discriminate|].
    vm_compute in Ht. injection Ht as <- <-.
    vm_compute in H2. injection H2 as <-. eexists _, _. run_steps. }
  destruct H3 as (tw4 & log2 & H3).
  exists tw2, tw3, tw4, log2.
  destruct (C8_add_then_remove (wheel 1000000000 3) (arm 1000000000 3 "A") wheel_A3
              [Tick] tw2 [] tw3 [Tick; Tick; Tick] tw4 log2)
    as (Hk3 & _ & Hd & Hk4 & _).
  - apply inv_wheel; [lia|]. unfold maxInt. lia.
  - reflexivity.
  - vm_compute. reflexivity.
  - exact H1.
  - reflexivity.
  - exact H2.
  - exact H3.
  - intros ev Hev. repeat (apply elem_of_cons in Hev as [->|Hev]; [discriminate|]).
    by apply elem_of_nil in Hev.
  - split_and!; [exact H1|exact H2|exact H3|exact Hk3|exact Hd|exact Hk4].
Defined.

(** *** C9 *)

Lemma C9_witness :
  updateTask wheel_A3 (mkUptask "B" 5000000000 7%nat) = Ok wheel_A3.
Proof. apply C9_update_of_unregistered_key. reflexivity. Defined.

(** *** C10 *)

Lemma C10_witness :
  updateTask wheel_A3 (mkUptask "A" 5000000000 7%nat)
  = Ok (mkTimeWheel 1000000000
          [Some []; Some [mkTask 5000000000 3 0 "A" "job" 7%nat]; Some []]
          {["A" := 1]} 0 3).
Proof.
  destruct (C10_update_in_place wheel_A3 (mkUptask "A" 5000000000 7%nat) 1)
    as (p & l & Hp & Hl & Hup & _).
  - apply inv_reachable, reachable_wheel_A3.
  - reflexivity.
  - rewrite Hup. assert (p = 1%nat) as -> by lia.
    vm_compute in Hl. injection Hl as <-. vm_compute. reflexivity.
Defined.

(** ** The further properties on concrete wheels *)

Lemma inv_wheel_A3 : inv wheel_A3.
Proof. apply inv_reachable, reachable_wheel_A3. Qed.

Lemma inv_wheel_A3_due : inv wheel_A3_due.
Proof.
  assert (Hsteps : steps wheel_A3 [Tick] wheel_A3_due ([] ++ [])) by run_steps.
  by destruct (inv_steps _ _ _ _ inv_wheel_A3 Hsteps).
Qed.

Lemma all_tame_wheel_A3_due : all_tame wheel_A3_due.
Proof.
  intros p l t Hp Ht. destruct p as [|[|[|p]]]; cbn in Hp; try discriminate;
    injection Hp as <-; try (by apply elem_of_nil in Ht).
  apply list_elem_of_singleton in Ht as ->.
  split; [vm_compute; split; [reflexivity|discriminate]|vm_compute; discriminate].
Qed.

Lemma others_than_A (evs : list (@event string nat string)) :
  Forall (fun ev => event_key ev <> Some "A") evs ->
  forall ev, ev ∈ evs -> event_key ev <> Some "A".
Proof. intros Hall ev Hev. by apply (proj1 (Forall_forall _ _) Hall). Qed.

Lemma getPositionAndCircle_exact_witness :
  getPositionAndCircle wheel_1500ms 3000000000 = Ok (3, 0).
Proof.
  apply (getPositionAndCircle_exact wheel_1500ms 3000000000).
  - vm_compute. split; [reflexivity|discriminate].
  - vm_compute. split; [discriminate|reflexivity].
  - vm_compute. split; [discriminate|reflexivity].
  - vm_compute. split; [discriminate|reflexivity].
Defined.

Lemma start_handles_until_Stop_witness :
  exists tw' log,
    start 20 (wheel 1000000000 3) [Add (arm 2000000000 3 "A"); Tick; Stop; Tick]
    = Ok (tw', log) /\
    start 20 (wheel 1000000000 3) [Add (arm 2000000000 3 "A"); Tick] = Ok (tw', log) /\
    currentPos tw' = 1.
Proof.
  assert (Hst : exists tw' log,
            start 20 (wheel 1000000000 3) [Add (arm 2000000000 3 "A"); Tick; Stop; Tick]
            = Ok (tw', log)).
  { eexists _, _. vm_compute. reflexivity. }
  destruct Hst as (tw' & log & Hst). exists tw', log. split; [exact Hst|].
  destruct (start_handles_until_Stop 20 (wheel 1000000000 3)
              [Add (arm 2000000000 3 "A"); Tick; Stop; Tick] tw' log)
    as (Hpre & _ & _ & _ & Hc).
  - apply inv_wheel; [lia|]. unfold maxInt. lia.
  - exact Hst.
  - split; [exact Hpre|]. rewrite Hc. reflexivity.
Defined.

Lemma tickHandler_fires_due_tasks_witness :
  exists tw', tickHandler 3 wheel_A3_due = Ok (tw', [mkTask 1000000000 3 0 "A" "job" 0%nat]) /\
    currentPos tw' = 2.
Proof.
  destruct (tickHandler_fires_due_tasks wheel_A3_due 3
              [mkTask 1000000000 3 0 "A" "job" 0%nat]) as (tw' & Htick & _ & _ & Hc).
  - exact inv_wheel_A3_due.
  - vm_compute. discriminate.
  - vm_compute. split; discriminate.
  - exact all_tame_wheel_A3_due.
  - reflexivity.
  - cbn. lia.
  - exists tw'. split; [exact Htick|]. rewrite Hc. reflexivity.
Defined.

Lemma ticks_return_on_tame_wheel_witness :
  exists tw' log, steps wheel_A3_due [Tick; Tick; Tick; Tick] tw' log /\ currentPos tw' = 2.
Proof.
  destruct (ticks_return_on_tame_wheel wheel_A3_due 4) as (tw' & log & Hsteps & _ & _ & Hc).
  - exact inv_wheel_A3_due.
  - vm_compute. discriminate.
  - vm_compute. split; discriminate.
  - exact all_tame_wheel_A3_due.
  - exists tw', log. split; [exact Hsteps|]. rewrite Hc. reflexivity.
Defined.

Lemma removeTask_removes_key_only_witness :
  exists tw', removeTask wheel_A3 "A" = Ok tw' /\
    timer tw' = delete "A" (timer wheel_A3) /\
    slots tw' !! 1%nat = Some (Some []) /\
    removeTask tw' "A" = Ok tw'.
Proof.
  destruct (removeTask_removes_key_only wheel_A3 "A" inv_wheel_A3)
    as (tw' & Hrm & _ & _ & Ht & Hs & Hid).
  exists tw'. split; [exact Hrm|]. split; [exact Ht|]. split; [|exact Hid].
  apply (Hs 1%nat [mkTask 1000000000 3 0 "A" "job" 0%nat]). reflexivity.
Defined.

Lemma addTask_registered_key_leaks_witness :
  exists tw' tw'',
    addTask wheel_A3 (arm 2000000000 1 "A") = Ok tw' /\
    removeTask tw' "A" = Ok tw'' /\ timer tw'' !! "A" = None /\
    (exists p l t', slots tw'' !! p = Some (Some l) /\ t' ∈ l /\ task_key t' = "A").
Proof.
  assert (Hadd : exists tw', addTask wheel_A3 (arm 2000000000 1 "A") = Ok tw').
  { eexists. vm_compute. reflexivity. }
  destruct Hadd as (tw' & Hadd).
  destruct (addTask_registered_key_leaks wheel_A3 (arm 2000000000 1 "A") tw' 1)
    as (tw'' & Hrm & Hk & Hleft & _).
  - exact inv_wheel_A3.
  - reflexivity.
  - exact Hadd.
  - exists tw', tw''. split; [exact Hadd|]. split; [exact Hrm|]. split; [exact Hk|exact Hleft].
Defined.

Lemma AddTask_first_run_witness :
  exists tw1 tw2 log,
    addTask (wheel 1000000000 3) (arm 2000000000 3 "A") = Ok tw1 /\
    steps tw1 [Tick; Tick; Tick] tw2 log /\
    head (with_key "A" log) = Some (arm 2000000000 3 "A").
Proof.
  assert (Hrun : exists tw1 tw2 log,
            addTask (wheel 1000000000 3) (arm 2000000000 3 "A") = Ok tw1 /\
            steps tw1 [Tick; Tick; Tick] tw2 log).
  { eexists _, _, _. split; [vm_compute; reflexivity|run_steps]. }
  destruct Hrun as (tw1 & tw2 & log & Hadd & Hsteps). exists tw1, tw2, log.
  split; [exact Hadd|]. split; [exact Hsteps|].
  destruct (AddTask_first_run (wheel 1000000000 3) "A" 2000000000 3 0%nat "job"
              (arm 2000000000 3 "A") tw1 [Tick; Tick; Tick] tw2 log) as [_ Hrun].
  - apply inv_wheel; [lia|]. unfold maxInt. lia.
  - vm_compute. discriminate.
  - vm_compute. split; [reflexivity|discriminate].
  - vm_compute. discriminate.
  - reflexivity.
  - discriminate.
  - reflexivity.
  - exact Hadd.
  - exact Hsteps.
  - apply others_than_A. repeat constructor; discriminate.
  - apply Hrun. vm_compute. reflexivity.
Defined.

Lemma UpdateTask_before_first_run_witness :
  exists tw1 tw2 log,
    addTask (wheel 1000000000 3) (arm 2000000000 3 "A") = Ok tw1 /\
    steps tw1 ([Tick] ++ Update (mkUptask "A" 5000000000 7%nat) :: [Tick; Tick]) tw2 log /\
    head (with_key "A" log) = Some (mkTask 5000000000 3 0 "A" "job" 7%nat).
Proof.
  assert (Hrun : exists tw1 tw2 log,
            addTask (wheel 1000000000 3) (arm 2000000000 3 "A") = Ok tw1 /\
            steps tw1 ([Tick] ++ Update (mkUptask "A" 5000000000 7%nat) :: [Tick; Tick])
              tw2 log).
  { eexists _, _, _. split; [vm_compute; reflexivity|cbn [app]; run_steps]. }
  destruct Hrun as (tw1 & tw2 & log & Hadd & Hsteps). exists tw1, tw2, log.
  split; [exact Hadd|]. split; [exact Hsteps|].
  destruct (UpdateTask_before_first_run (wheel 1000000000 3) "A" 2000000000 3 0%nat "job"
              (arm 2000000000 3 "A") tw1 5000000000 7%nat (mkUptask "A" 5000000000 7%nat)
              [Tick] [Tick; Tick] tw2 log) as [_ Hrun].
  - apply inv_wheel; [lia|]. unfold maxInt. lia.
  - vm_compute. discriminate.
  - vm_compute. split; [reflexivity|discriminate].
  - vm_compute. discriminate.
  - reflexivity.
  - discriminate.
  - reflexivity.
  - exact Hadd.
  - reflexivity.
  - exact Hsteps.
  - apply others_than_A. repeat constructor; discriminate.
  - vm_compute. discriminate.
  - apply Hrun. vm_compute. reflexivity.
Defined.

Lemma AddTask_runs_then_unregistered_witness :
  exists tw1 tw2 log,
    addTask (wheel 1000000000 3) (arm 1000000000 1 "A") = Ok tw1 /\
    steps tw1 [Tick; Tick; Tick; Tick; Tick; Tick] tw2 log /\
    Z.of_nat (dispatches "A" log) = 1 /\ timer tw2 !! "A" = None /\ absent "A" tw2.
Proof.
  assert (Hrun : exists tw1 tw2 log,
            addTask (wheel 1000000000 3) (arm 1000000000 1 "A") = Ok tw1 /\
            steps tw1 [Tick; Tick; Tick; Tick; Tick; Tick] tw2 log).
  { eexists _, _, _. split; [vm_compute; reflexivity|run_steps]. }
  destruct Hrun as (tw1 & tw2 & log & Hadd & Hsteps). exists tw1, tw2, log.
  split; [exact Hadd|]. split; [exact Hsteps|].
  destruct (AddTask_runs_then_unregistered (wheel 1000000000 3) "A" 1000000000 1 0%nat
              "job" (arm 1000000000 1 "A") tw1 [Tick; Tick; Tick; Tick; Tick; Tick] tw2 log)
    as (_ & _ & Hgone & Hlate).
  - apply inv_wheel; [lia|]. unfold maxInt. lia.
  - vm_compute. discriminate.
  - vm_compute. split; [reflexivity|discriminate].
  - vm_compute. discriminate.
  - vm_compute. split; discriminate.
  - reflexivity.
  - reflexivity.
  - exact Hadd.
  - exact Hsteps.
  - apply others_than_A. repeat constructor; discriminate.
  - assert (Hk : timer tw2 !! "A" = None) by (apply Hlate; vm_compute; discriminate).
    destruct (Hgone Hk) as [Hd Habs]. split; [exact Hd|]. split; [exact Hk|exact Habs].
Defined.

Lemma AddTask_forever_stays_registered_witness :
  exists tw1 tw2 log,
    addTask (wheel 1000000000 3) (arm 2000000000 (-1) "A") = Ok tw1 /\
    steps tw1 [Tick; Tick; Tick; Tick] tw2 log /\
    exists p l t', timer tw2 !! "A" = Some (Z.of_nat p) /\
      slots tw2 !! p = Some (Some l) /\ t' ∈ l /\
      task_key t' = "A" /\ task_times t' = -1 /\ task_interval t' = 2000000000.
Proof.
  assert (Hrun : exists tw1 tw2 log,
            addTask (wheel 1000000000 3) (arm 2000000000 (-1) "A") = Ok tw1 /\
            steps tw1 [Tick; Tick; Tick; Tick] tw2 log).
  { eexists _, _, _. split; [vm_compute; reflexivity|run_steps]. }
  destruct Hrun as (tw1 & tw2 & log & Hadd & Hsteps). exists tw1, tw2, log.
  split; [exact Hadd|]. split; [exact Hsteps|].
  apply (AddTask_forever_stays_registered (wheel 1000000000 3) "A" 2000000000 0%nat "job"
           (arm 2000000000 (-1) "A") tw1 [Tick; Tick; Tick; Tick] tw2 log).
  - apply inv_wheel; [lia|]. unfold maxInt. lia.
  - reflexivity.
  - reflexivity.
  - exact Hadd.
  - exact Hsteps.
  - apply others_than_A. repeat constructor; discriminate.
Defined.

Lemma AddTask_negative_times_runs_once_witness :
  exists tw1 tw2 log,
    addTask (wheel 1000000000 3) (arm 1000000000 (-2) "A") = Ok tw1 /\
    steps tw1 [Tick; Tick; Tick] tw2 log /\
    with_key "A" log = [arm 1000000000 (-2) "A"] /\ timer tw2 !! "A" = None.
Proof.
  assert (Hrun : exists tw1 tw2 log,
            addTask (wheel 1000000000 3) (arm 1000000000 (-2) "A") = Ok tw1 /\
            steps tw1 [Tick; Tick; Tick] tw2 log).
  { eexists _, _, _. split; [vm_compute; reflexivity|run_steps]. }
  destruct Hrun as (tw1 & tw2 & log & Hadd & Hsteps). exists tw1, tw2, log.
  split; [exact Hadd|]. split; [exact Hsteps|].
  destruct (AddTask_negative_times_runs_once (wheel 1000000000 3) "A" 1000000000 (-2)
              0%nat "job" (arm 1000000000 (-2) "A") tw1 [Tick; Tick; Tick] tw2 log)
    as [_ Hrun].
  - apply inv_wheel; [lia|]. unfold maxInt. lia.
  - vm_compute. discriminate.
  - vm_compute. split; [reflexivity|discriminate].
  - vm_compute. discriminate.
  - reflexivity.
  - reflexivity.
  - reflexivity.
  - exact Hadd.
  - exact Hsteps.
  - apply others_than_A. repeat constructor; discriminate.
  - destruct Hrun as (Hlog & Hk & _); [vm_compute; reflexivity|].
    split; [exact Hlog|exact Hk].
Defined.

Lemma start_never_panics_witness :
  safely (start 20 (wheel 1000000000 3)
            [Add (arm 1000000000 (-1) "A"); Add (arm 2000000000 3 "A"); Tick;
             Update (mkUptask "A" 0 7%nat); Remove "A"; Tick; Tick]).
Proof.
  apply start_never_panics.
  - apply (sound_New 1000000000 3).
    + vm_compute. split; discriminate.
    + vm_compute. discriminate.
    + apply New_wheel; lia.
  - repeat constructor; vm_compute; discriminate.
Defined.

Lemma tickHandler_negative_delay_panics_witness :
  start 20 (wheel 1000000000 3)
    [Add (arm 3000000000 (-1) "A"); Update (mkUptask "A" (-2000000000) 0%nat);
     Tick; Tick; Tick] = Ok (wheel_neg, []) /\
  tickHandler 1 wheel_neg = Panic IndexOutOfRange.
Proof.
  split; [vm_compute; reflexivity|].
  apply (tickHandler_negative_delay_panics 0 wheel_neg
           (mkTask (-2000000000) (-1) 0 "A" "job" 0%nat) [] 2).
  - assert (Hsteps : exists log, steps (wheel 1000000000 3)
              [Add (arm 3000000000 (-1) "A"); Update (mkUptask "A" (-2000000000) 0%nat);
               Tick; Tick; Tick] wheel_neg log).
    { eexists. run_steps. }
    destruct Hsteps as (log & Hsteps).
    assert (Hinv : inv (wheel 1000000000 3)).
    { apply inv_wheel; [lia|]. unfold maxInt. lia. }
    by destruct (inv_steps _ _ _ _ Hinv Hsteps) as ([Hw _] & _).
  - vm_compute. discriminate.
  - vm_compute. split; discriminate.
  - reflexivity.
  - reflexivity.
  - reflexivity.
  - reflexivity.
  - lia.
  - vm_compute. reflexivity.
  - vm_compute. discriminate.
Defined.

Lemma AddTask_runs_every_steps_ticks_witness :
  exists tw1 tw2 log,
    addTask (wheel 1000000000 3) (arm 2000000000 (-1) "A") = Ok tw1 /\
    steps tw1 [Tick; Tick; Tick; Tick; Tick] tw2 log /\
    Z.of_nat (dispatches "A" log) = 2.
Proof.
  assert (Hrun : exists tw1 tw2 log,
            addTask (wheel 1000000000 3) (arm 2000000000 (-1) "A") = Ok tw1 /\
            steps tw1 [Tick; Tick; Tick; Tick; Tick] tw2 log).
  { eexists _, _, _. split; [vm_compute; reflexivity|run_steps]. }
  destruct Hrun as (tw1 & tw2 & log & Hadd & Hsteps). exists tw1, tw2, log.
  split; [exact Hadd|]. split; [exact Hsteps|].
  rewrite (AddTask_runs_every_steps_ticks (wheel 1000000000 3) "A" 2000000000 (-1) 0%nat
             "job" (arm 2000000000 (-1) "A") tw1
             [Tick; Tick; Tick; Tick; Tick] tw2 log).
  - vm_compute. reflexivity.
  - apply inv_wheel; [lia|]. unfold maxInt. lia.
  - vm_compute. discriminate.
  - vm_compute. split; [reflexivity|discriminate].
  - vm_compute. discriminate.
  - reflexivity.
  - left. reflexivity.
  - vm_compute. discriminate.
  - reflexivity.
  - exact Hadd.
  - exact Hsteps.
  - apply others_than_A. repeat constructor; discriminate.
Defined.

Lemma lone_task_runs_a_rotation_late_witness :
  exists tw1 tw2 log,
    addTask (wheel 1000000000 2) (arm 2000000000 (-1) "A") = Ok tw1 /\
    steps tw1 (replicate 7 Tick) tw2 log /\
    Z.of_nat (dispatches "A" log) = 2.
Proof.
  assert (Hrun : exists tw1 tw2 log,
            addTask (wheel 1000000000 2) (arm 2000000000 (-1) "A") = Ok tw1 /\
            steps tw1 (replicate 7 Tick) tw2 log).
  { eexists _, _, _. split; [vm_compute; reflexivity|cbn [replicate]; run_steps]. }
  destruct Hrun as (tw1 & tw2 & log & Hadd & Hsteps). exists tw1, tw2, log.
  split; [exact Hadd|]. split; [exact Hsteps|].
  rewrite (lone_task_runs_a_rotation_late 1000000000 2 "A" 2000000000 0%nat "job"
             (arm 2000000000 (-1) "A") (wheel 1000000000 2) tw1 7 tw2 log).
  - vm_compute. reflexivity.
  - vm_compute. split; discriminate.
  - vm_compute. discriminate.
  - apply New_wheel; lia.
  - vm_compute. discriminate.
  - reflexivity.
  - vm_compute. reflexivity.
  - exact Hadd.
  - exact Hsteps.
Defined.
